(** * The multiple-tau correlator [Correlator_Likh]

    A shallow embedding of [src/multiTauCorrelator/correlator_likh.cc]
    and the verification of its specification.

    - [double] values are kept abstract behind the class [Double]: the
      structural results hold for any interpretation of the arithmetic
      (IEEE doubles included); results that need exact arithmetic are
      proved for the instance over the rationals [Q].
    - [unsigned int], [int] and [unsigned long] are integers of [Z] with
      their wrap-around written out ([u32], [s32], [u64]).
    - The heap arrays are lists; an access outside an array is undefined
      behaviour in C++ and is the outcome [Fault] here.
    - [add] is recursive; it is defined by recursion on a fuel that bounds
      the depth of the recursion, and running out of it is the outcome
      [OutOfFuel]. *)

From Stdlib Require Import ZArith QArith Qpower Lia.
From stdpp Require Import base tactics option list list_numbers sorting.

Local Open Scope Z_scope.

(** ** Machine integers *)

Definition u32 (z : Z) : Z := z mod 2 ^ 32.
Definition u64 (z : Z) : Z := z mod 2 ^ 64.
Definition s32 (z : Z) : Z := (z + 2 ^ 31) mod 2 ^ 32 - 2 ^ 31.

Arguments u32 : simpl never.
Arguments u64 : simpl never.
Arguments s32 : simpl never.

(** ** Arrays indexed by machine integers *)

Definition alen {A} (l : list A) : Z := Z.of_nat (length l).

Definition aget {A} (l : list A) (i : Z) : option A :=
  if 0 <=? i then l !! Z.to_nat i else None.

Definition aset {A} (l : list A) (i : Z) (x : A) : list A :=
  if 0 <=? i then <[Z.to_nat i := x]> l else l.

Definition aget2 {A} (a : list (list A)) (k i : Z) : option A :=
  match aget a k with
  | Some row => aget row i
  | None => None
  end.

Definition aset2 {A} (a : list (list A)) (k i : Z) (x : A) : list (list A) :=
  match aget a k with
  | Some row => aset a k (aset row i x)
  | None => a
  end.

Definition inb {A} (l : list A) (i : Z) : bool := (0 <=? i) && (i <? alen l).

Definition inb2 {A} (a : list (list A)) (k i : Z) : bool :=
  match aget a k with
  | Some row => inb row i
  | None => false
  end.

Arguments alen : simpl never.
Arguments aget : simpl never.
Arguments aset : simpl never.
Arguments aget2 : simpl never.
Arguments aset2 : simpl never.
Arguments inb : simpl never.
Arguments inb2 : simpl never.

(** ** The arithmetic of [double] *)

Class Double (D : Type) : Type := {
  d_add : D -> D -> D;
  d_sub : D -> D -> D;
  d_mul : D -> D -> D;
  d_div : D -> D -> D;
  (** [pow(x, k)] with an [int] exponent *)
  d_pow : D -> Z -> D;
  (** conversion of an integer value to [double] *)
  d_of_Z : Z -> D;
  (** [x > y] *)
  d_gt : D -> D -> bool;
  (** the literals [-2E10] and [-1e10] *)
  d_m2e10 : D;
  d_m1e10 : D
}.

(** Exact arithmetic: the rationals. *)
#[export] Instance Double_Q : Double Q := {
  d_add := Qplus;
  d_sub := Qminus;
  d_mul := Qmult;
  d_div := Qdiv;
  d_pow := Qpower;
  d_of_Z := inject_Z;
  d_gt := fun x y => negb (Qle_bool x y);
  d_m2e10 := inject_Z (-20000000000);
  d_m1e10 := inject_Z (-10000000000)
}.

(** ** Configuration: the members assigned by [setsize] only *)

Record config : Type := Config {
  numcorrelators : Z;
  p : Z;
  m : Z;
  d_min : Z;
  (** the member [length] of the class: capacity of [t] and [f] *)
  length_ : Z
}.

(** ** Outcomes of an operation *)

Inductive outcome (A : Type) : Type :=
| Done (a : A)
| Fault
| OutOfFuel.
Arguments Done {A}.
Arguments Fault {A}.
Arguments OutOfFuel {A}.

Section Model.
Context {D : Type} {DD : Double D}.

(** ** State: the members [add], [evaluate] and [initialize] assign *)

Record state : Type := State {
  shift : list (list D);
  correlation : list (list D);
  ncorrelation : list (list Z);
  accumulator : list D;
  naccumulator : list Z;
  insertindex : list Z;
  kmax : Z;
  accval : D;
  t : list D;
  f : list D;
  npcorr : Z
}.

Definition set_shift (v : list (list D)) (s : state) : state :=
  State v (correlation s) (ncorrelation s) (accumulator s) (naccumulator s)
        (insertindex s) (kmax s) (accval s) (t s) (f s) (npcorr s).
Definition set_correlation (v : list (list D)) (s : state) : state :=
  State (shift s) v (ncorrelation s) (accumulator s) (naccumulator s)
        (insertindex s) (kmax s) (accval s) (t s) (f s) (npcorr s).
Definition set_ncorrelation (v : list (list Z)) (s : state) : state :=
  State (shift s) (correlation s) v (accumulator s) (naccumulator s)
        (insertindex s) (kmax s) (accval s) (t s) (f s) (npcorr s).
Definition set_accumulator (v : list D) (s : state) : state :=
  State (shift s) (correlation s) (ncorrelation s) v (naccumulator s)
        (insertindex s) (kmax s) (accval s) (t s) (f s) (npcorr s).
Definition set_naccumulator (v : list Z) (s : state) : state :=
  State (shift s) (correlation s) (ncorrelation s) (accumulator s) v
        (insertindex s) (kmax s) (accval s) (t s) (f s) (npcorr s).
Definition set_insertindex (v : list Z) (s : state) : state :=
  State (shift s) (correlation s) (ncorrelation s) (accumulator s)
        (naccumulator s) v (kmax s) (accval s) (t s) (f s) (npcorr s).
Definition set_kmax (v : Z) (s : state) : state :=
  State (shift s) (correlation s) (ncorrelation s) (accumulator s)
        (naccumulator s) (insertindex s) v (accval s) (t s) (f s) (npcorr s).
Definition set_accval (v : D) (s : state) : state :=
  State (shift s) (correlation s) (ncorrelation s) (accumulator s)
        (naccumulator s) (insertindex s) (kmax s) v (t s) (f s) (npcorr s).
Definition set_t (v : list D) (s : state) : state :=
  State (shift s) (correlation s) (ncorrelation s) (accumulator s)
        (naccumulator s) (insertindex s) (kmax s) (accval s) v (f s) (npcorr s).
Definition set_f (v : list D) (s : state) : state :=
  State (shift s) (correlation s) (ncorrelation s) (accumulator s)
        (naccumulator s) (insertindex s) (kmax s) (accval s) (t s) v (npcorr s).
Definition set_npcorr (v : Z) (s : state) : state :=
  State (shift s) (correlation s) (ncorrelation s) (accumulator s)
        (naccumulator s) (insertindex s) (kmax s) (accval s) (t s) (f s) v.

(** A member seen as a location that is read and assigned. *)
Record field (A : Type) : Type := Field {
  fget : state -> A;
  fset : A -> state -> state
}.
Arguments fget {A}.
Arguments fset {A}.

Definition f_shift := Field _ shift set_shift.
Definition f_correlation := Field _ correlation set_correlation.
Definition f_ncorrelation := Field _ ncorrelation set_ncorrelation.
Definition f_accumulator := Field _ accumulator set_accumulator.
Definition f_naccumulator := Field _ naccumulator set_naccumulator.
Definition f_insertindex := Field _ insertindex set_insertindex.
Definition f_kmax := Field _ kmax set_kmax.
Definition f_accval := Field _ accval set_accval.
Definition f_t := Field _ t set_t.
Definition f_f := Field _ f set_f.
Definition f_npcorr := Field _ npcorr set_npcorr.

(** ** Ghost events

    The program has no output besides its state.  To speak of "an
    insertion at level k" and of "a product term accumulated into
    correlation[k][j]" the model records them as events.  Events are
    written by [emit] only and no operation reads them: the monad below is
    a writer for them. *)

Inductive event : Type :=
| EvInsert (k slot : Z) (w : D)
| EvProduct (k j ind1 ind2 : Z).

(** ** The monad of the operations *)

Definition M (A : Type) : Type := state -> outcome (A * state * list event).

Definition ret {A} (a : A) : M A := fun s => Done (a, s, []).

Definition bind {A B} (c : M A) (k : A -> M B) : M B := fun s =>
  match c s with
  | Done (a, s1, e1) =>
      match k a s1 with
      | Done (b, s2, e2) => Done (b, s2, e1 ++ e2)
      | Fault => Fault
      | OutOfFuel => OutOfFuel
      end
  | Fault => Fault
  | OutOfFuel => OutOfFuel
  end.

Definition fault {A} : M A := fun _ => Fault.
Definition out_of_fuel {A} : M A := fun _ => OutOfFuel.
Definition emit (e : event) : M unit := fun s => Done (tt, s, [e]).

(** scalar members *)
Definition rd {A} (fl : field A) : M A := fun s => Done (fget fl s, s, []).
Definition wr {A} (fl : field A) (v : A) : M unit :=
  fun s => Done (tt, fset fl v s, []).

(** [a[i]] and [a[i] = v] *)
Definition load {A} (fl : field (list A)) (i : Z) : M A := fun s =>
  match aget (fget fl s) i with
  | Some v => Done (v, s, [])
  | None => Fault
  end.
Definition store {A} (fl : field (list A)) (i : Z) (v : A) : M unit := fun s =>
  if inb (fget fl s) i then Done (tt, fset fl (aset (fget fl s) i v) s, [])
  else Fault.

(** [a[k][i]] and [a[k][i] = v] *)
Definition load2 {A} (fl : field (list (list A))) (k i : Z) : M A := fun s =>
  match aget2 (fget fl s) k i with
  | Some v => Done (v, s, [])
  | None => Fault
  end.
Definition store2 {A} (fl : field (list (list A))) (k i : Z) (v : A) : M unit :=
  fun s =>
  if inb2 (fget fl s) k i then Done (tt, fset fl (aset2 (fget fl s) k i v) s, [])
  else Fault.

Fixpoint for_range {L} (n : nat) (j : Z) (body : Z -> L -> M L) (x : L) : M L :=
  match n with
  | O => ret x
  | S n' => bind (body j x) (for_range n' (j + 1) body)
  end.

End Model.

Arguments state D : clear implicits.
Arguments event D : clear implicits.
Arguments M D A : clear implicits.
Arguments fget {D A}.
Arguments fset {D A}.

Declare Scope corr_scope.
Delimit Scope corr_scope with corr.
Notation "x <- c ;; k" := (bind c (fun x => k))
  (at level 20, c at level 99, k at level 200, only parsing) : corr_scope.
Notation "c ;; k" := (bind c (fun _ => k))
  (at level 100, k at level 200, only parsing, right associativity) : corr_scope.
Notation "'when' b 'then' c" := (if b then c else ret tt)
  (at level 10, c at level 200, only parsing) : corr_scope.

(** ** The operations of the class *)

Section Operations.
Context {D : Type} {DD : Double D}.
Local Open Scope corr_scope.

(** [setsize]: the configuration.  The arguments are [unsigned int];
    [p / m] with [m = 0] is undefined and gives no configuration. *)
Definition setsize (numcorrin p_in m_in : Z) : option config :=
  if m_in =? 0 then None
  else Some (Config numcorrin p_in m_in (p_in / m_in) (u32 (numcorrin * p_in))).

(** [setsize]: the arrays, as [new] leaves them: of the sizes asked for,
    their contents not initialised ([jd] and [jz] stand for what they
    hold). *)
Definition allocate (cfg : config) (jd : D) (jz : Z) : state D :=
  let n := Z.to_nat (numcorrelators cfg) in
  let row {A} (x : A) := replicate (Z.to_nat (p cfg)) x in
  State (replicate n (row jd)) (replicate n (row jd)) (replicate n (row jz))
        (replicate n jd) (replicate n jz) (replicate n jz)
        jz jd
        (replicate (Z.to_nat (length_ cfg)) jd)
        (replicate (Z.to_nat (length_ cfg)) jd)
        jz.

Variable cfg : config.

Definition initialize : M D unit :=
  for_range (Z.to_nat (numcorrelators cfg)) 0 (fun j _ =>
    for_range (Z.to_nat (p cfg)) 0 (fun i _ =>
      store2 f_shift j i d_m2e10 ;;
      store2 f_correlation j i (d_of_Z 0) ;;
      store2 f_ncorrelation j i 0) tt ;;
    store f_accumulator j (d_of_Z 0) ;;
    store f_naccumulator j 0 ;;
    store f_insertindex j 0) tt ;;
  for_range (Z.to_nat (length_ cfg)) 0 (fun i _ =>
    store f_t i (d_of_Z 0) ;;
    store f_f i (d_of_Z 0)) tt ;;
  wr f_npcorr 0 ;;
  wr f_kmax 0 ;;
  wr f_accval (d_of_Z 0).

(** The body of both correlation loops:
    [if (shift[k][ind2] > -1e10) { correlation[k][j] += ...; ++ncorrelation[k][j]; }] *)
Definition accumulate (k j ind1 ind2 : Z) : M D unit :=
  s2 <- load2 f_shift k ind2 ;;
  when d_gt s2 d_m1e10 then
    (c <- load2 f_correlation k j ;;
     s1 <- load2 f_shift k ind1 ;;
     s2' <- load2 f_shift k ind2 ;;
     store2 f_correlation k j (d_add c (d_mul s1 s2')) ;;
     n <- load2 f_ncorrelation k j ;;
     store2 f_ncorrelation k j (u64 (n + 1)) ;;
     emit (EvProduct k j ind1 ind2)).

(** "Calculate correlation function": [ind2] is an [int], [ind1], [j],
    [p] and [d_min] are [unsigned int]. *)
Definition correlate (k : Z) : M D unit :=
  ind1 <- load f_insertindex k ;;
  if k =? 0 then
    for_range (Z.to_nat (p cfg)) 0 (fun j ind2 =>
      accumulate k j ind1 ind2 ;;
      let ind2 := s32 (ind2 - 1) in
      ret (if ind2 <? 0 then s32 (ind2 + p cfg) else ind2)) (s32 ind1) ;;
    ret tt
  else
    for_range (Z.to_nat (p cfg - d_min cfg)) (d_min cfg) (fun j ind2 =>
      let ind2 := if ind2 <? 0 then s32 (ind2 + p cfg) else ind2 in
      accumulate k j ind1 ind2 ;;
      ret (s32 (ind2 - 1))) (s32 (ind1 - d_min cfg)) ;;
    ret tt.

(** [if (k > kmax) kmax = k;], "(1) Insert new value in shift array",
    "Add to average value" and the first two statements of "(3 & 4)". *)
Definition insert (w : D) (k : Z) : M D unit :=
  kmx <- rd f_kmax ;;
  (when kmx <? k then wr f_kmax k) ;;
  ii <- load f_insertindex k ;;
  store2 f_shift k ii w ;;
  emit (EvInsert k ii w) ;;
  (when k =? 0 then (av <- rd f_accval ;; wr f_accval (d_add av w))) ;;
  a <- load f_accumulator k ;;
  store f_accumulator k (d_add a w) ;;
  n <- load f_naccumulator k ;;
  store f_naccumulator k (u32 (n + 1)).

(** [++insertindex[k]; if (insertindex[k] == p) insertindex[k] = 0;] *)
Definition advance (k : Z) : M D unit :=
  i <- load f_insertindex k ;;
  store f_insertindex k (u32 (i + 1)) ;;
  i' <- load f_insertindex k ;;
  when i' =? p cfg then store f_insertindex k 0.

(** [add(w, k)].  The recursive call is at level [k + 1]; [fuel] bounds
    the number of nested calls. *)
Fixpoint add (fuel : nat) (w : D) (k : Z) : M D unit :=
  match fuel with
  | O => out_of_fuel
  | S fuel' =>
      if k =? numcorrelators cfg then ret tt
      else
        insert w k ;;
        n <- load f_naccumulator k ;;
        (when n =? m cfg then
           (a <- load f_accumulator k ;;
            add fuel' (d_div a (d_of_Z (m cfg))) (u32 (k + 1)) ;;
            store f_accumulator k (d_of_Z 0) ;;
            store f_naccumulator k 0)) ;;
        correlate k ;;
        advance k
  end.

(** One [if (ncorrelation[k][i] > 0) { t[im] = lag; f[im] = ...; ++im; }] *)
Definition emit_point (k i : Z) (lag aux : D) (im : Z) : M D Z :=
  n <- load2 f_ncorrelation k i ;;
  if 0 <? n then
    store f_t im lag ;;
    c <- load2 f_correlation k i ;;
    store f_f im (d_sub (d_div c (d_of_Z n)) aux) ;;
    ret (u32 (im + 1))
  else ret im.

(** [evaluate(norm)].  The counters [k] and [i] of the second loop are
    [int]s compared with the [unsigned int]s [kmax] and [p]. *)
Definition evaluate (norm : bool) : M D unit :=
  aux <- (if norm then
            av <- rd f_accval ;;
            n <- load2 f_ncorrelation 0 0 ;;
            ret (d_mul (d_div av (d_of_Z n)) (d_div av (d_of_Z n)))
          else ret (d_of_Z 0)) ;;
  im <- for_range (Z.to_nat (p cfg)) 0 (fun i im =>
          emit_point 0 i (d_of_Z i) aux im) 0 ;;
  kmx <- rd f_kmax ;;
  im <- for_range (Z.to_nat (kmx - 1)) 1 (fun k im =>
          for_range (Z.to_nat (p cfg - d_min cfg)) (s32 (d_min cfg)) (fun i im =>
            emit_point k i (d_mul (d_of_Z i) (d_pow (d_of_Z (m cfg)) k)) aux im) im)
        im ;;
  wr f_npcorr im.

End Operations.

(** * Verification *)

(** ** Machine integers in range *)

Lemma u32_id z : 0 <= z < 2 ^ 32 -> u32 z = z.
Proof. intros. unfold u32. apply Z.mod_small. lia. Qed.

Lemma u64_id z : 0 <= z < 2 ^ 64 -> u64 z = z.
Proof. intros. unfold u64. apply Z.mod_small. lia. Qed.

Lemma s32_id z : - 2 ^ 31 <= z < 2 ^ 31 -> s32 z = z.
Proof. intros. unfold s32. rewrite Z.mod_small; lia. Qed.

Lemma u64_range z : 0 <= u64 z < 2 ^ 64.
Proof. unfold u64. apply Z.mod_pos_bound. lia. Qed.

(** ** Arrays *)

Section Arrays.
Context {A : Type}.
Implicit Types (l : list A) (i j : Z) (x y : A).

Lemma alen_nonneg l : 0 <= alen l.
Proof. unfold alen. lia. Qed.

Lemma aget_Some_lt l i x : aget l i = Some x -> 0 <= i < alen l.
Proof.
  unfold aget, alen. destruct (Z.leb_spec 0 i); [|done].
  intros Hl. apply lookup_lt_Some in Hl. lia.
Qed.

Lemma aget_lt_Some l i : 0 <= i < alen l -> is_Some (aget l i).
Proof.
  unfold aget, alen. intros Hi. destruct (Z.leb_spec 0 i); [|lia].
  apply lookup_lt_is_Some. lia.
Qed.

Lemma aget_None l i : ~ (0 <= i < alen l) -> aget l i = None.
Proof.
  intros Hi. destruct (aget l i) eqn:E; [|done].
  apply aget_Some_lt in E. lia.
Qed.

Lemma inb_true l i : inb l i = true <-> 0 <= i < alen l.
Proof. unfold inb. rewrite andb_true_iff, Z.leb_le, Z.ltb_lt. done. Qed.

Lemma inb_aget l i x : aget l i = Some x -> inb l i = true.
Proof. intros H. apply inb_true. eauto using aget_Some_lt. Qed.

Lemma inb_false l i : inb l i = false -> aget l i = None.
Proof.
  intros H. apply aget_None. intros Hi. apply inb_true in Hi. congruence.
Qed.

Lemma alen_aset l i x : alen (aset l i x) = alen l.
Proof. unfold aset, alen. destruct (0 <=? i); [|done]. by rewrite length_insert. Qed.

Lemma inb_aset l i j x : inb (aset l i x) j = inb l j.
Proof. unfold inb. by rewrite alen_aset. Qed.

Lemma aget_aset_eq l i x : 0 <= i < alen l -> aget (aset l i x) i = Some x.
Proof.
  unfold aget, aset, alen. intros Hi. destruct (Z.leb_spec 0 i); [|lia].
  apply list_lookup_insert_eq. lia.
Qed.

Lemma aget_aset_ne l i j x : i <> j -> aget (aset l i x) j = aget l j.
Proof.
  unfold aget, aset. intros Hij.
  destruct (Z.leb_spec 0 j); [|done]. destruct (Z.leb_spec 0 i); [|done].
  apply list_lookup_insert_ne. lia.
Qed.

Lemma aset_id l i x : aget l i = Some x -> aset l i x = l.
Proof.
  unfold aget, aset. destruct (0 <=? i); [|done]. apply list_insert_id.
Qed.

Lemma aset_aset l i x y : aset (aset l i x) i y = aset l i y.
Proof. unfold aset. destruct (0 <=? i); [|done]. apply list_insert_insert_eq. Qed.

Lemma aset_comm l i j x y :
  i <> j -> aset (aset l i x) j y = aset (aset l j y) i x.
Proof.
  unfold aset. intros Hij.
  destruct (Z.leb_spec 0 j); [|done]. destruct (Z.leb_spec 0 i); [|done].
  apply list_insert_insert_ne. lia.
Qed.

Lemma aget_ext l1 l2 :
  alen l1 = alen l2 ->
  (forall i, 0 <= i < alen l1 -> aget l1 i = aget l2 i) ->
  l1 = l2.
Proof.
  unfold alen, aget. intros Hlen Hi. apply list_eq. intros n.
  destruct (decide (n < length l1)%nat) as [Hn|Hn].
  - specialize (Hi (Z.of_nat n)). rewrite Nat2Z.id in Hi.
    destruct (Z.leb_spec 0 (Z.of_nat n)); [|lia]. apply Hi. lia.
  - rewrite !lookup_ge_None_2; [done|lia|lia].
Qed.

Lemma aget_replicate n x i :
  0 <= i < Z.of_nat n -> aget (replicate n x) i = Some x.
Proof.
  unfold aget. intros Hi. destruct (Z.leb_spec 0 i); [|lia].
  apply lookup_replicate_2. lia.
Qed.

Lemma alen_replicate n x : alen (replicate n x) = Z.of_nat n.
Proof. unfold alen. by rewrite length_replicate. Qed.

End Arrays.

(** ** The state of one level

    All the state [add] keeps for level [k] is at index [k] of six
    arrays.  [get_level] collects it and [put_level] assigns it. *)

Section Levels.
Context {D : Type} {DD : Double D}.

Record level : Type := Level {
  l_shift : list D;
  l_corr : list D;
  l_ncorr : list Z;
  l_acc : D;
  l_nacc : Z;
  l_ii : Z
}.

Definition get_level (k : Z) (s : state D) : option level :=
  match aget (shift s) k, aget (correlation s) k, aget (ncorrelation s) k,
        aget (accumulator s) k, aget (naccumulator s) k, aget (insertindex s) k
  with
  | Some sh, Some c, Some n, Some a, Some na, Some ii =>
      Some (Level sh c n a na ii)
  | _, _, _, _, _, _ => None
  end.

Definition put_level (k : Z) (l : level) (s : state D) : state D :=
  State (aset (shift s) k (l_shift l))
        (aset (correlation s) k (l_corr l))
        (aset (ncorrelation s) k (l_ncorr l))
        (aset (accumulator s) k (l_acc l))
        (aset (naccumulator s) k (l_nacc l))
        (aset (insertindex s) k (l_ii l))
        (kmax s) (accval s) (t s) (f s) (npcorr s).

(** The validity test of the correlation loops. *)
Definition valid (x : D) : bool := d_gt x d_m1e10.

Definition d_at (l : list D) (i : Z) : D := default (d_of_Z 0) (aget l i).
Definition z_at (l : list Z) (i : Z) : Z := default 0 (aget l i).

Variable cfg : config.

(** The slot of the sample [j] insertions before the one at [ii]. *)
Definition slot (ii j : Z) : Z := (ii - j) mod p cfg.

(** What one call of [add] does to the level it is called at, as
    functions of that level's state. *)
Definition lv_insert (w : D) (l : level) : level :=
  Level (aset (l_shift l) (l_ii l) w) (l_corr l) (l_ncorr l)
        (d_add (l_acc l) w) (u32 (l_nacc l + 1)) (l_ii l).

Definition lv_full (l : level) : bool := l_nacc l =? m cfg.

Definition lv_carry (l : level) : D := d_div (l_acc l) (d_of_Z (m cfg)).

Definition lv_reset (l : level) : level :=
  Level (l_shift l) (l_corr l) (l_ncorr l) (d_of_Z 0) 0 (l_ii l).

Definition lv_accumulate (j : Z) (l : level) : level :=
  let s2 := d_at (l_shift l) (slot (l_ii l) j) in
  if valid s2 then
    Level (l_shift l)
          (aset (l_corr l) j
             (d_add (d_at (l_corr l) j) (d_mul (d_at (l_shift l) (l_ii l)) s2)))
          (aset (l_ncorr l) j (u64 (z_at (l_ncorr l) j + 1)))
          (l_acc l) (l_nacc l) (l_ii l)
  else l.

Fixpoint lv_loop (n : nat) (j : Z) (l : level) : level :=
  match n with
  | O => l
  | S n' => lv_loop n' (j + 1) (lv_accumulate j l)
  end.

Fixpoint ev_loop (n : nat) (j : Z) (k : Z) (l : level) : list (event D) :=
  match n with
  | O => []
  | S n' =>
      (if valid (d_at (l_shift l) (slot (l_ii l) j))
       then [EvProduct k j (l_ii l) (slot (l_ii l) j)] else [])
      ++ ev_loop n' (j + 1) k l
  end.

(** The first lag of the correlation loop of level [k]. *)
Definition lv_lo (k : Z) : Z := if k =? 0 then 0 else d_min cfg.

Definition lv_correlate (k : Z) (l : level) : level :=
  lv_loop (Z.to_nat (p cfg - lv_lo k)) (lv_lo k) l.

Definition lv_products (k : Z) (l : level) : list (event D) :=
  ev_loop (Z.to_nat (p cfg - lv_lo k)) (lv_lo k) k l.

Definition lv_advance (l : level) : level :=
  Level (l_shift l) (l_corr l) (l_ncorr l) (l_acc l) (l_nacc l)
        (if u32 (l_ii l + 1) =? p cfg then 0 else u32 (l_ii l + 1)).

(** The level after [insert] and the reset that follows the recursive
    call. *)
Definition lv_head (w : D) (l : level) : level :=
  if lv_full (lv_insert w l) then lv_reset (lv_insert w l) else lv_insert w l.

Definition lv_step (w : D) (k : Z) (l : level) : level :=
  lv_advance (lv_correlate k (lv_head w l)).

(** What [add(w, k)] does to the members shared by all levels. *)
Definition bump (w : D) (k : Z) (s : state D) : state D :=
  let s1 := if kmax s <? k then set_kmax k s else s in
  if k =? 0 then set_accval (d_add (accval s1) w) s1 else s1.

(** [add] as a function: level [k] takes its step, and when its
    accumulator is full the average goes to level [k + 1]. *)
Fixpoint add_pure (fuel : nat) (w : D) (k : Z) (s : state D)
  : state D * list (event D) :=
  match fuel with
  | O => (s, [])
  | S fuel' =>
      if k =? numcorrelators cfg then (s, [])
      else
        match get_level k s with
        | None => (s, [])
        | Some l =>
            let s1 := put_level k (lv_step w k l) (bump w k s) in
            let r :=
              if lv_full (lv_insert w l)
              then add_pure fuel' (lv_carry (lv_insert w l)) (k + 1) s1
              else (s1, []) in
            (r.1, EvInsert k (l_ii l) w :: r.2 ++ lv_products k (lv_head w l))
        end
  end.

(** *** Well-formed levels and states

    [wf] is what keeps every array access of [add] and [evaluate] inside
    its array. *)

Definition cfg_ok : Prop :=
  1 <= numcorrelators cfg < 2 ^ 31 /\
  1 <= p cfg < 2 ^ 31 /\
  1 <= m cfg < 2 ^ 32 /\
  d_min cfg = p cfg / m cfg /\
  length_ cfg = numcorrelators cfg * p cfg /\
  numcorrelators cfg * p cfg < 2 ^ 32.

Record level_shape (l : level) : Prop := LevelShape {
  ls_shift : alen (l_shift l) = p cfg;
  ls_corr : alen (l_corr l) = p cfg;
  ls_ncorr : alen (l_ncorr l) = p cfg;
  ls_ii : 0 <= l_ii l < p cfg
}.

Record wf (s : state D) : Prop := Wf {
  wf_shift : alen (shift s) = numcorrelators cfg;
  wf_correlation : alen (correlation s) = numcorrelators cfg;
  wf_ncorrelation : alen (ncorrelation s) = numcorrelators cfg;
  wf_accumulator : alen (accumulator s) = numcorrelators cfg;
  wf_naccumulator : alen (naccumulator s) = numcorrelators cfg;
  wf_insertindex : alen (insertindex s) = numcorrelators cfg;
  wf_levels : forall k l, get_level k s = Some l -> level_shape l;
  wf_kmax : 0 <= kmax s < numcorrelators cfg;
  wf_t : alen (t s) = length_ cfg;
  wf_f : alen (f s) = length_ cfg
}.

End Levels.

Arguments level D : clear implicits.

(** ** Reading and assigning a level *)

Section LevelLemmas.
Context {D : Type} {DD : Double D}.
Implicit Types (s : state D) (l : level D) (k j : Z).

Lemma get_level_Some k s l :
  get_level k s = Some l <->
  aget (shift s) k = Some (l_shift l) /\
  aget (correlation s) k = Some (l_corr l) /\
  aget (ncorrelation s) k = Some (l_ncorr l) /\
  aget (accumulator s) k = Some (l_acc l) /\
  aget (naccumulator s) k = Some (l_nacc l) /\
  aget (insertindex s) k = Some (l_ii l).
Proof.
  unfold get_level. split.
  - intros H. repeat case_match; try done. by simplify_eq.
  - intros (-> & -> & -> & -> & -> & ->). by destruct l.
Qed.

Lemma get_level_is_Some k s :
  is_Some (get_level k s) <->
  0 <= k < alen (shift s) /\ 0 <= k < alen (correlation s) /\
  0 <= k < alen (ncorrelation s) /\ 0 <= k < alen (accumulator s) /\
  0 <= k < alen (naccumulator s) /\ 0 <= k < alen (insertindex s).
Proof.
  split.
  - intros [l Hl]. apply get_level_Some in Hl.
    destruct Hl as (H1 & H2 & H3 & H4 & H5 & H6).
    repeat split; eauto using aget_Some_lt; eapply aget_Some_lt; eauto.
  - intros (H1 & H2 & H3 & H4 & H5 & H6).
    apply aget_lt_Some in H1, H2, H3, H4, H5, H6.
    destruct H1 as [x1 H1], H2 as [x2 H2], H3 as [x3 H3],
             H4 as [x4 H4], H5 as [x5 H5], H6 as [x6 H6].
    exists (Level x1 x2 x3 x4 x5 x6). by apply get_level_Some.
Qed.

Lemma get_level_range k s l : get_level k s = Some l -> 0 <= k < alen (shift s).
Proof.
  intros H. assert (is_Some (get_level k s)) as Hs by eauto.
  apply get_level_is_Some in Hs. tauto.
Qed.

Lemma put_get_id k s l : get_level k s = Some l -> put_level k l s = s.
Proof.
  intros H. apply get_level_Some in H.
  destruct H as (H1 & H2 & H3 & H4 & H5 & H6).
  unfold put_level. rewrite !aset_id by done. by destruct s.
Qed.

Lemma get_put_eq k s l l' :
  get_level k s = Some l -> get_level k (put_level k l' s) = Some l'.
Proof.
  intros H. assert (is_Some (get_level k s)) as Hs by eauto.
  apply get_level_is_Some in Hs.
  apply get_level_Some. unfold put_level; simpl.
  rewrite !aget_aset_eq by tauto. done.
Qed.

Lemma get_put_ne k j s l :
  k <> j -> get_level j (put_level k l s) = get_level j s.
Proof.
  intros H. unfold get_level, put_level; simpl.
  by rewrite !aget_aset_ne by done.
Qed.

Lemma put_put k s l l' : put_level k l' (put_level k l s) = put_level k l' s.
Proof. unfold put_level; simpl. by rewrite !aset_aset. Qed.

Lemma put_put_ne k j s l l' :
  k <> j -> put_level j l' (put_level k l s) = put_level k l (put_level j l' s).
Proof.
  intros H. unfold put_level; simpl. f_equal; by apply aset_comm.
Qed.

Lemma wf_get_level cfg s k :
  wf cfg s -> 0 <= k < numcorrelators cfg ->
  exists l, get_level k s = Some l /\ level_shape cfg l.
Proof.
  intros Hwf Hk. destruct (get_level k s) as [l|] eqn:E.
  - exists l. split; [done|]. by eapply wf_levels.
  - assert (is_Some (get_level k s)) as [? ?]; [|congruence].
    apply get_level_is_Some. destruct Hwf. lia.
Qed.

Lemma wf_put_level cfg s k l :
  wf cfg s -> level_shape cfg l -> wf cfg (put_level k l s).
Proof.
  intros Hwf Hl. destruct Hwf.
  split; simpl; rewrite ?alen_aset; try done.
  intros j l' Hj. destruct (decide (k = j)) as [->|Hkj].
  - assert (is_Some (get_level j s)) as [l0 Hl0].
    { apply get_level_is_Some.
      assert (is_Some (get_level j (put_level j l s))) as Hs by eauto.
      apply get_level_is_Some in Hs. simpl in Hs.
      rewrite !alen_aset in Hs. done. }
    erewrite get_put_eq in Hj by done. by simplify_eq.
  - rewrite get_put_ne in Hj by done. eauto.
Qed.

End LevelLemmas.

(** ** Running the operations

    [runs c s a s' e]: from state [s] the operation [c] returns [a], in
    state [s'], having recorded the events [e]. *)

Section Exec.
Context {D : Type} {DD : Double D}.
Implicit Types (s : state D) (l : level D) (k j : Z) (e : list (event D)).

Definition runs {A} (c : M D A) s (a : A) s' e : Prop := c s = Done (a, s', e).

Lemma runs_ret {A} (a : A) s : runs (ret a) s a s [].
Proof. done. Qed.

Lemma runs_bind {A B} (c : M D A) (h : A -> M D B) s a s1 e1 b s2 e2 :
  runs c s a s1 e1 -> runs (h a) s1 b s2 e2 -> runs (bind c h) s b s2 (e1 ++ e2).
Proof. unfold runs, bind. by intros -> ->. Qed.

Lemma runs_eq {A} (c : M D A) s a s1 e1 s2 e2 :
  runs c s a s1 e1 -> s1 = s2 -> e1 = e2 -> runs c s a s2 e2.
Proof. by intros ? <- <-. Qed.

Lemma runs_conv {A} (c : M D A) s a a' s1 e1 s2 e2 :
  runs c s a s1 e1 -> a = a' -> s1 = s2 -> e1 = e2 -> runs c s a' s2 e2.
Proof. by intros ? <- <- <-. Qed.

Lemma runs_rd {A} (fl : field A) s : runs (rd fl) s (fget fl s) s [].
Proof. done. Qed.

Lemma runs_wr {A} (fl : field A) v s : runs (wr fl v) s tt (fset fl v s) [].
Proof. done. Qed.

Lemma runs_emit ev s : runs (emit ev) s tt s [ev].
Proof. done. Qed.

Lemma runs_load {A} (fl : field (list A)) i s v :
  aget (fget fl s) i = Some v -> runs (load fl i) s v s [].
Proof. unfold runs, load. by intros ->. Qed.

Lemma runs_store {A} (fl : field (list A)) i v s :
  0 <= i < alen (fget fl s) ->
  runs (store fl i v) s tt (fset fl (aset (fget fl s) i v) s) [].
Proof. unfold runs, store. intros H. apply inb_true in H. by rewrite H. Qed.

Lemma runs_load2 {A} (fl : field (list (list A))) k i s row v :
  aget (fget fl s) k = Some row -> aget row i = Some v ->
  runs (load2 fl k i) s v s [].
Proof. unfold runs, load2, aget2. by intros -> ->. Qed.

Lemma runs_store2 {A} (fl : field (list (list A))) k i v s row :
  aget (fget fl s) k = Some row -> 0 <= i < alen row ->
  runs (store2 fl k i v) s tt (fset fl (aset (fget fl s) k (aset row i v)) s) [].
Proof.
  unfold runs, store2, inb2, aset2. intros -> H.
  apply inb_true in H. by rewrite H.
Qed.

Lemma runs_when (b : bool) (c : M D unit) s s' e :
  (b = true -> runs c s tt s' e) ->
  runs (if b then c else ret tt) s tt (if b then s' else s) (if b then e else []).
Proof. destruct b; [auto|done]. Qed.

Lemma runs_det {A} (c : M D A) s a s1 e1 a' s2 e2 :
  runs c s a s1 e1 -> runs c s a' s2 e2 -> a = a' /\ s1 = s2 /\ e1 = e2.
Proof. unfold runs. intros -> [= -> -> ->]. done. Qed.

End Exec.

Ltac mprim :=
  lazymatch goal with
  | |- runs (rd _) _ _ _ _ => apply runs_rd
  | |- runs (wr _ _) _ _ _ _ => apply runs_wr
  | |- runs (emit _) _ _ _ _ => apply runs_emit
  | |- runs (ret _) _ _ _ _ => apply runs_ret
  | |- runs (load _ _) _ _ _ _ => eapply runs_load
  | |- runs (store _ _ _) _ _ _ _ => eapply runs_store
  | |- runs (load2 _ _ _) _ _ _ _ => eapply runs_load2
  | |- runs (store2 _ _ _ _) _ _ _ _ => eapply runs_store2
  end.

Ltac mside :=
  simpl;
  first
    [ eassumption
    | match goal with
      | |- aget (aset _ ?k _) ?k = Some _ =>
          rewrite aget_aset_eq by (rewrite ?alen_aset; lia); reflexivity
      | |- ?G =>
          tryif has_evar G then idtac
          else (rewrite ?alen_aset; first [ lia | idtac ])
      end ].

(** [get_level] of a level just put. *)
Ltac glv := first [ eassumption | eapply get_put_eq; glv ].

(** One statement of a sequence. *)
Ltac mstep := eapply runs_bind; [ mprim; mside | simpl ].
(** The last statement. *)
Ltac mlast := mprim; mside.

Section Blocks.
Context {D : Type} {DD : Double D}.
Implicit Types (s : state D) (l : level D) (k j : Z) (e : list (event D)).
Variable cfg : config.

Lemma insert_runs w k s l :
  get_level k s = Some l -> level_shape cfg l ->
  runs (insert w k) s tt
       (put_level k (lv_insert w l) (bump w k s)) [EvInsert k (l_ii l) w].
Proof.
  intros Hl Hok.
  assert (is_Some (get_level k s)) as Hk by eauto.
  apply get_level_is_Some in Hk.
  apply get_level_Some in Hl. destruct Hl as (H1 & H2 & H3 & H4 & H5 & H6).
  destruct Hok as [Hs Hc Hn Hii]. unfold insert, bump.
  destruct Hk as (K1 & K2 & K3 & K4 & K5 & K6).
  destruct (kmax s <? k) eqn:Ek, (k =? 0) eqn:E0.
  all: eapply runs_eq;
    [ mstep; rewrite Ek; do 4 mstep;
      first [ eapply runs_bind; [mstep; mlast|simpl] | mstep ];
      do 3 mstep; mlast
    | unfold put_level, lv_insert; simpl;
      rewrite ?(aset_id (correlation s)), ?(aset_id (ncorrelation s)),
        ?(aset_id (insertindex s)) by done; reflexivity
    | reflexivity ].
Qed.

Lemma advance_runs k s l :
  get_level k s = Some l ->
  runs (advance cfg k) s tt (put_level k (lv_advance cfg l) s) [].
Proof.
  intros Hl.
  assert (is_Some (get_level k s)) as Hk by eauto.
  apply get_level_is_Some in Hk.
  apply get_level_Some in Hl. destruct Hl as (H1 & H2 & H3 & H4 & H5 & H6).
  destruct Hk as (K1 & K2 & K3 & K4 & K5 & K6).
  unfold advance, lv_advance.
  destruct (u32 (l_ii l + 1) =? p cfg) eqn:E.
  all: eapply runs_eq;
    [ do 3 mstep; rewrite E; mlast
    | unfold put_level; simpl; rewrite ?aset_aset;
      rewrite ?(aset_id (shift s)), ?(aset_id (correlation s)),
        ?(aset_id (ncorrelation s)), ?(aset_id (accumulator s)),
        ?(aset_id (naccumulator s)) by done; reflexivity
    | reflexivity ].
Qed.

Lemma reset_runs k s l :
  get_level k s = Some l ->
  runs (bind (store f_accumulator k (d_of_Z 0))
          (fun _ => store f_naccumulator k 0)) s tt
       (put_level k (lv_reset l) s) [].
Proof.
  intros Hl.
  assert (is_Some (get_level k s)) as Hk by eauto.
  apply get_level_is_Some in Hk.
  apply get_level_Some in Hl. destruct Hl as (H1 & H2 & H3 & H4 & H5 & H6).
  destruct Hk as (K1 & K2 & K3 & K4 & K5 & K6).
  eapply runs_eq; [mstep; mlast| |reflexivity].
  unfold put_level, lv_reset; simpl.
  rewrite ?(aset_id (shift s)), ?(aset_id (correlation s)),
    ?(aset_id (ncorrelation s)), ?(aset_id (insertindex s)) by done.
  reflexivity.
Qed.

Lemma slot_range ii j : 0 < p cfg -> 0 <= slot cfg ii j < p cfg.
Proof. intros. unfold slot. apply Z.mod_pos_bound. lia. Qed.

Lemma accumulate_runs k j s l :
  get_level k s = Some l -> level_shape cfg l -> 0 <= j < p cfg ->
  runs (accumulate k j (l_ii l) (slot cfg (l_ii l) j)) s tt
       (put_level k (lv_accumulate cfg j l) s)
       (if valid (d_at (l_shift l) (slot cfg (l_ii l) j))
        then [EvProduct k j (l_ii l) (slot cfg (l_ii l) j)] else []).
Proof.
  intros Hl Hok Hj.
  assert (is_Some (get_level k s)) as Hk by eauto.
  apply get_level_is_Some in Hk.
  pose proof Hl as Hl'.
  apply get_level_Some in Hl. destruct Hl as (H1 & H2 & H3 & H4 & H5 & H6).
  destruct Hk as (K1 & K2 & K3 & K4 & K5 & K6).
  destruct Hok as [Hs Hc Hn Hii].
  pose proof (slot_range (l_ii l) j ltac:(lia)) as Hslot.
  destruct (aget_lt_Some (l_shift l) (slot cfg (l_ii l) j) ltac:(lia)) as [v2 Hv2].
  destruct (aget_lt_Some (l_shift l) (l_ii l) ltac:(lia)) as [v1 Hv1].
  destruct (aget_lt_Some (l_corr l) j ltac:(lia)) as [c Hcj].
  destruct (aget_lt_Some (l_ncorr l) j ltac:(lia)) as [n Hnj].
  unfold accumulate, lv_accumulate, d_at, z_at, valid.
  rewrite Hv2, Hv1, Hcj, Hnj. simpl.
  destruct (d_gt v2 d_m1e10) eqn:Ev.
  - eapply runs_eq.
    + mstep. rewrite Ev. do 6 mstep. mlast.
    + unfold put_level; simpl.
      rewrite ?(aset_id (shift s)), ?(aset_id (accumulator s)),
        ?(aset_id (naccumulator s)), ?(aset_id (insertindex s)) by done.
      reflexivity.
    + reflexivity.
  - eapply runs_eq.
    + mstep. rewrite Ev. mlast.
    + by rewrite put_get_id.
    + reflexivity.
Qed.

Lemma lv_accumulate_frame j l :
  l_shift (lv_accumulate cfg j l) = l_shift l /\
  l_ii (lv_accumulate cfg j l) = l_ii l /\
  l_acc (lv_accumulate cfg j l) = l_acc l /\
  l_nacc (lv_accumulate cfg j l) = l_nacc l.
Proof. unfold lv_accumulate. by case_match. Qed.

Lemma lv_accumulate_shape j l :
  level_shape cfg l -> level_shape cfg (lv_accumulate cfg j l).
Proof.
  intros [Hs Hc Hn Hii]. unfold lv_accumulate.
  case_match; split; simpl; rewrite ?alen_aset; done.
Qed.

Lemma lv_loop_frame n j l :
  l_shift (lv_loop cfg n j l) = l_shift l /\
  l_ii (lv_loop cfg n j l) = l_ii l /\
  l_acc (lv_loop cfg n j l) = l_acc l /\
  l_nacc (lv_loop cfg n j l) = l_nacc l.
Proof.
  revert j l. induction n as [|n IH]; intros j l; simpl; [done|].
  destruct (IH (j + 1) (lv_accumulate cfg j l)) as (-> & -> & -> & ->).
  apply lv_accumulate_frame.
Qed.

Lemma lv_loop_shape n j l :
  level_shape cfg l -> level_shape cfg (lv_loop cfg n j l).
Proof.
  revert j l. induction n as [|n IH]; intros j l Hl; simpl; [done|].
  by apply IH, lv_accumulate_shape.
Qed.

Lemma ev_loop_ext n j k l l' :
  l_shift l = l_shift l' -> l_ii l = l_ii l' ->
  ev_loop cfg n j k l = ev_loop cfg n j k l'.
Proof.
  intros Hs Hi. revert j. induction n as [|n IH]; intros j; simpl; [done|].
  by rewrite Hs, Hi, IH.
Qed.

Lemma mod_shift_up x : - p cfg <= x < 0 -> x mod p cfg = x + p cfg.
Proof.
  intros Hx. rewrite <- (Z_mod_plus_full x 1 (p cfg)).
  rewrite Z.mod_small; lia.
Qed.

Lemma slot_succ ii j : slot cfg ii (j + 1) = (slot cfg ii j - 1) mod p cfg.
Proof.
  unfold slot. rewrite Zminus_mod_idemp_l. f_equal. lia.
Qed.

Lemma step0 ii j :
  1 <= p cfg < 2 ^ 31 ->
  (if s32 (slot cfg ii j - 1) <? 0
   then s32 (s32 (slot cfg ii j - 1) + p cfg)
   else s32 (slot cfg ii j - 1)) = slot cfg ii (j + 1).
Proof.
  intros Hp. pose proof (slot_range ii j ltac:(lia)) as Hslot.
  rewrite slot_succ, (s32_id (_ - 1)) by lia.
  destruct (Z.ltb_spec (slot cfg ii j - 1) 0).
  - rewrite mod_shift_up, s32_id by lia. done.
  - symmetry. apply Z.mod_small. lia.
Qed.

Lemma loop0_runs k ii n : forall j l s,
  get_level k s = Some l -> level_shape cfg l -> l_ii l = ii ->
  1 <= p cfg < 2 ^ 31 -> 0 <= j -> j + Z.of_nat n <= p cfg ->
  runs (for_range n j (fun j ind2 =>
          bind (accumulate k j ii ind2) (fun _ =>
            let ind2 := s32 (ind2 - 1) in
            ret (if ind2 <? 0 then s32 (ind2 + p cfg) else ind2)))
          (slot cfg ii j))
       s (slot cfg ii (j + Z.of_nat n))
       (put_level k (lv_loop cfg n j l) s) (ev_loop cfg n j k l).
Proof.
  induction n as [|n IH]; intros j l s Hl Hok Hii Hp Hj Hn; simpl.
  - eapply runs_conv; [apply runs_ret| | |done].
    + by rewrite Z.add_0_r.
    + by rewrite put_get_id.
  - destruct (lv_accumulate_frame j l) as (Es & Ei & _ & _).
    eapply runs_conv.
    + eapply runs_bind.
      * eapply runs_bind; [|apply runs_ret]. rewrite <- Hii.
        apply accumulate_runs; [done..|lia].
      * simpl. rewrite step0 by done.
        apply (IH (j + 1) (lv_accumulate cfg j l));
          [|by apply lv_accumulate_shape|congruence|lia..].
        eapply get_put_eq. done.
    + f_equal. lia.
    + rewrite put_put. done.
    + rewrite app_nil_r, Hii. f_equal. by apply ev_loop_ext.
Qed.

Lemma loopk_runs k ii n : forall j l s ind2,
  get_level k s = Some l -> level_shape cfg l -> l_ii l = ii ->
  1 <= p cfg < 2 ^ 31 -> 0 <= j -> j + Z.of_nat n <= p cfg ->
  (n <> 0%nat -> - p cfg <= ind2 < p cfg /\ ind2 mod p cfg = slot cfg ii j) ->
  exists r,
  runs (for_range n j (fun j ind2 =>
          let ind2 := if ind2 <? 0 then s32 (ind2 + p cfg) else ind2 in
          bind (accumulate k j ii ind2) (fun _ => ret (s32 (ind2 - 1))))
          ind2)
       s r (put_level k (lv_loop cfg n j l) s) (ev_loop cfg n j k l).
Proof.
  induction n as [|n IH]; intros j l s ind2 Hl Hok Hii Hp Hj Hn Hind; simpl.
  - exists ind2. eapply runs_conv; [apply runs_ret|done| |done].
    by rewrite put_get_id.
  - destruct (lv_accumulate_frame j l) as (Es & Ei & _ & _).
    destruct Hind as [Hr Hm]; [done|].
    pose proof (slot_range ii j ltac:(lia)) as Hslot.
    assert ((if ind2 <? 0 then s32 (ind2 + p cfg) else ind2) = slot cfg ii j)
      as ->.
    { rewrite <- Hm. destruct (Z.ltb_spec ind2 0).
      - rewrite mod_shift_up, s32_id by lia. done.
      - symmetry. apply Z.mod_small. lia. }
    edestruct (IH (j + 1) (lv_accumulate cfg j l)
                 (put_level k (lv_accumulate cfg j l) s)
                 (s32 (slot cfg ii j - 1))) as [r Hr'];
      [by eapply get_put_eq|by apply lv_accumulate_shape|congruence|lia..| |].
    { intros _. rewrite s32_id by lia. split; [lia|]. by rewrite slot_succ. }
    exists r. eapply runs_conv.
    + eapply runs_bind.
      * eapply runs_bind; [|apply runs_ret]. rewrite <- Hii.
        apply accumulate_runs; [done..|lia].
      * simpl. apply Hr'.
    + done.
    + rewrite put_put. done.
    + rewrite app_nil_r, Hii. f_equal. by apply ev_loop_ext.
Qed.

Lemma correlate_runs k s l :
  get_level k s = Some l -> level_shape cfg l ->
  1 <= p cfg < 2 ^ 31 -> 0 <= d_min cfg <= p cfg ->
  runs (correlate cfg k) s tt
       (put_level k (lv_correlate cfg k l) s) (lv_products cfg k l).
Proof.
  intros Hl Hok Hp Hd. pose proof Hl as Hl'.
  apply get_level_Some in Hl'. destruct Hl' as (_ & _ & _ & _ & _ & H6).
  pose proof (ls_ii _ _ Hok) as Hii.
  unfold correlate, lv_correlate, lv_products, lv_lo.
  destruct (k =? 0) eqn:Ek.
  - pose proof (loop0_runs k (l_ii l) (Z.to_nat (p cfg)) 0 l s Hl Hok eq_refl
                  Hp ltac:(lia) ltac:(lia)) as H0.
    replace (slot cfg (l_ii l) 0) with (l_ii l) in H0
      by (unfold slot; rewrite Z.sub_0_r; symmetry; apply Z.mod_small; lia).
    rewrite !Z.sub_0_r.
    eapply runs_conv; [|reflexivity|reflexivity|].
    + mstep. eapply runs_bind; [|apply runs_ret].
      rewrite s32_id by lia. apply H0.
    + rewrite app_nil_r. done.
  - edestruct (loopk_runs k (l_ii l) (Z.to_nat (p cfg - d_min cfg)) (d_min cfg)
                l s (s32 (l_ii l - d_min cfg))) as [r Hr]; [done..|lia|lia| |].
    { intros Hn. rewrite s32_id by lia. split; [lia|done]. }
    eapply runs_conv; [|reflexivity|reflexivity|].
    + mstep. eapply runs_bind; [apply Hr|apply runs_ret].
    + rewrite app_nil_r. done.
Qed.

End Blocks.

(** ** [add] computes [add_pure] *)

Section Refinement.
Context {D : Type} {DD : Double D}.
Implicit Types (s : state D) (l : level D) (k j : Z) (e : list (event D)).
Variable cfg : config.

Lemma get_level_bump w k j s : get_level j (bump w k s) = get_level j s.
Proof. unfold bump. by repeat case_match. Qed.

Lemma bump_put w k j l s :
  bump w k (put_level j l s) = put_level j l (bump w k s).
Proof. unfold bump; simpl. by repeat case_match. Qed.

Lemma lv_insert_shape w l : level_shape cfg l -> level_shape cfg (lv_insert w l).
Proof. intros [? ? ? ?]. split; simpl; rewrite ?alen_aset; done. Qed.

Lemma lv_reset_shape l : level_shape cfg l -> level_shape cfg (lv_reset l).
Proof. by intros [? ? ? ?]. Qed.

Lemma lv_head_shape w l : level_shape cfg l -> level_shape cfg (lv_head cfg w l).
Proof.
  intros Hl. unfold lv_head.
  case_match; auto using lv_reset_shape, lv_insert_shape.
Qed.

Lemma lv_advance_ii l :
  0 < p cfg < 2 ^ 32 -> 0 <= l_ii l < p cfg ->
  0 <= l_ii (lv_advance cfg l) < p cfg.
Proof.
  intros Hp Hi. unfold lv_advance; simpl.
  rewrite u32_id by lia. destruct (Z.eqb_spec (l_ii l + 1) (p cfg)); lia.
Qed.

Lemma lv_advance_shape l :
  0 < p cfg < 2 ^ 32 -> level_shape cfg l -> level_shape cfg (lv_advance cfg l).
Proof.
  intros Hp [? ? ? ?]. split; try done. by apply lv_advance_ii.
Qed.

Lemma lv_step_shape w k l :
  0 < p cfg < 2 ^ 32 -> level_shape cfg l -> level_shape cfg (lv_step cfg w k l).
Proof.
  intros Hp Hl. unfold lv_step, lv_correlate.
  by apply lv_advance_shape, lv_loop_shape, lv_head_shape.
Qed.

(** An [add] at level [j] does not read or assign the levels below. *)
Lemma add_pure_put_below fuel : forall w j k la s,
  k < j ->
  add_pure cfg fuel w j (put_level k la s) =
  (put_level k la (add_pure cfg fuel w j s).1, (add_pure cfg fuel w j s).2).
Proof.
  induction fuel as [|fuel IH]; intros w j k la s Hkj; simpl; [done|].
  case_match; [done|].
  rewrite get_put_ne by lia.
  destruct (get_level j s) as [l|]; [|done]. simpl.
  rewrite bump_put, put_put_ne by lia.
  case_match; simpl; [|done].
  by rewrite IH by lia.
Qed.

Lemma add_pure_below fuel : forall w j s i,
  i < j -> get_level i (add_pure cfg fuel w j s).1 = get_level i s.
Proof.
  induction fuel as [|fuel IH]; intros w j s i Hij; simpl; [done|].
  case_match; [done|].
  destruct (get_level j s) as [l|] eqn:El; [|done]. simpl.
  case_match; simpl.
  - rewrite IH by lia. by rewrite get_put_ne, get_level_bump by lia.
  - by rewrite get_put_ne, get_level_bump by lia.
Qed.

Lemma wf_bump w k s :
  wf cfg s -> 0 <= k < numcorrelators cfg -> wf cfg (bump w k s).
Proof.
  intros [] Hk. unfold bump.
  repeat case_match; split; simpl; try done; lia.
Qed.

Lemma add_pure_wf fuel : forall w k s,
  0 < p cfg < 2 ^ 32 ->
  wf cfg s -> 0 <= k <= numcorrelators cfg -> wf cfg (add_pure cfg fuel w k s).1.
Proof.
  induction fuel as [|fuel IH]; intros w k s Hp Hwf Hk; simpl; [done|].
  destruct (Z.eqb_spec k (numcorrelators cfg)); [done|].
  destruct (get_level k s) as [l|] eqn:El; [|done]. simpl.
  assert (wf cfg (put_level k (lv_step cfg w k l) (bump w k s))) as Hwf1.
  { apply wf_put_level; [apply wf_bump; [done|lia]|].
    apply lv_step_shape; [done|]. by eapply wf_levels. }
  case_match; simpl; [|done].
  apply IH; [done..|lia].
Qed.

Theorem add_runs fuel : forall w k s,
  cfg_ok cfg -> wf cfg s -> 0 <= k <= numcorrelators cfg ->
  numcorrelators cfg - k < Z.of_nat fuel ->
  runs (add cfg fuel w k) s tt
       (add_pure cfg fuel w k s).1 (add_pure cfg fuel w k s).2.
Proof.
  induction fuel as [|fuel IH]; intros w k s Hcfg Hwf Hk Hfuel; [lia|].
  pose proof Hcfg as (Hnc & Hp & Hm & Hd & Hlen & Hcap).
  simpl. destruct (Z.eqb_spec k (numcorrelators cfg)) as [->|Hne].
  { apply runs_ret. }
  destruct (wf_get_level cfg s k Hwf ltac:(lia)) as (l & Hl & Hshape).
  rewrite Hl. simpl.
  assert (0 <= d_min cfg <= p cfg) as Hdm.
  { rewrite Hd. split; [apply Z.div_pos; lia|].
    apply Z.div_le_upper_bound; nia. }
  set (sA := put_level k (lv_insert w l) (bump w k s)).
  assert (get_level k sA = Some (lv_insert w l)) as HlA.
  { unfold sA. eapply get_put_eq. by rewrite get_level_bump. }
  assert (wf cfg sA) as HwfA.
  { apply wf_put_level; [apply wf_bump; [done|lia]|by apply lv_insert_shape]. }
  pose proof (insert_runs cfg w k s l Hl Hshape) as Hins. fold sA in Hins.
  unfold lv_head.
  destruct (lv_full cfg (lv_insert w l)) eqn:Efull.
  - (* the accumulator is full: the average goes to the next level *)
    rewrite add_pure_put_below by lia. simpl.
    set (r := add_pure cfg fuel (lv_carry cfg (lv_insert w l)) (k + 1) (bump w k s)).
    pose proof (IH (lv_carry cfg (lv_insert w l)) (k + 1) sA Hcfg HwfA
                  ltac:(lia) ltac:(lia)) as Hrec.
    unfold sA in Hrec. rewrite add_pure_put_below in Hrec by lia.
    fold r in Hrec. simpl in Hrec.
    assert (get_level k r.1 = Some l) as Hlr.
    { unfold r. by rewrite add_pure_below, get_level_bump by lia. }
    eapply runs_conv; [|reflexivity|..].
    + eapply runs_bind; [apply Hins|].
      eapply runs_bind.
      { eapply runs_load. apply get_level_Some in HlA. apply HlA. }
      simpl. unfold lv_full in Efull. simpl in Efull. rewrite Efull.
      eapply runs_bind.
      { eapply runs_bind.
        { eapply runs_load. apply get_level_Some in HlA. apply HlA. }
        eapply runs_bind.
        { rewrite (u32_id (k + 1)) by lia. apply Hrec. }
        apply reset_runs. glv. }
      eapply runs_bind.
      { apply correlate_runs; [glv| |lia|done].
        by apply lv_reset_shape, lv_insert_shape. }
      apply advance_runs. glv.
    + rewrite !put_put. unfold lv_step, lv_head. by rewrite Efull.
    + simpl. rewrite !app_nil_r. done.
  - (* no cascade *)
    simpl. eapply runs_conv; [|reflexivity|..].
    + eapply runs_bind; [apply Hins|].
      eapply runs_bind.
      { eapply runs_load. apply get_level_Some in HlA. apply HlA. }
      simpl. unfold lv_full in Efull. simpl in Efull. rewrite Efull.
      eapply runs_bind; [apply runs_ret|].
      eapply runs_bind.
      { apply correlate_runs; [done|by apply lv_insert_shape|lia|done]. }
      apply advance_runs. glv.
    + unfold sA. rewrite !put_put. unfold lv_step, lv_head. by rewrite Efull.
    + simpl. rewrite !app_nil_r. done.
Qed.

End Refinement.

(** ** [initialize] *)

(** [fillz n x l]: [l] with its first [n] cells assigned [x]. *)
Definition fillz {A} (n : Z) (x : A) (l : list A) : list A :=
  replicate (Z.to_nat n) x ++ drop (Z.to_nat n) l.

Section Fill.
Context {A : Type}.
Implicit Types (l : list A) (x : A) (n : Z).

Lemma fillz_0 x l : fillz 0 x l = l.
Proof. done. Qed.

Lemma fillz_all n x l : alen l = n -> fillz n x l = replicate (Z.to_nat n) x.
Proof.
  unfold fillz, alen. intros <-. rewrite Nat2Z.id, drop_all. apply app_nil_r.
Qed.

Lemma alen_fillz n x l : 0 <= n <= alen l -> alen (fillz n x l) = alen l.
Proof.
  unfold fillz, alen. intros Hn.
  rewrite length_app, length_replicate, length_drop. lia.
Qed.

Lemma aget_fillz_ge n x l i : 0 <= n <= i -> aget (fillz n x l) i = aget l i.
Proof.
  unfold fillz, aget. intros Hn. destruct (Z.leb_spec 0 i); [|done].
  rewrite lookup_app_r; rewrite length_replicate; [|lia].
  rewrite lookup_drop. f_equal. lia.
Qed.

Lemma aset_fillz n x l :
  0 <= n < alen l -> aset (fillz n x l) n x = fillz (n + 1) x l.
Proof.
  unfold fillz, aset, alen. intros Hn. destruct (Z.leb_spec 0 n); [|lia].
  rewrite insert_app_r_alt; rewrite length_replicate; [|lia].
  rewrite Nat.sub_diag.
  replace (Z.to_nat (n + 1)) with (Z.to_nat n + 1)%nat by lia.
  rewrite <- drop_drop.
  destruct (drop (Z.to_nat n) l) as [|y l'] eqn:E.
  { apply (f_equal length) in E. rewrite length_drop in E. simpl in E. lia. }
  rewrite Nat.add_1_r, replicate_S_end, <- app_assoc. done.
Qed.

End Fill.

Arguments fillz : simpl never.

Section Initialize.
Context {D : Type} {DD : Double D}.
Implicit Types (s : state D) (l : level D) (k j : Z).
Variable cfg : config.

(** The arrays have the sizes [setsize] gives them. *)
Record shaped (s : state D) : Prop := Shaped {
  sh_shift : alen (shift s) = numcorrelators cfg;
  sh_correlation : alen (correlation s) = numcorrelators cfg;
  sh_ncorrelation : alen (ncorrelation s) = numcorrelators cfg;
  sh_accumulator : alen (accumulator s) = numcorrelators cfg;
  sh_naccumulator : alen (naccumulator s) = numcorrelators cfg;
  sh_insertindex : alen (insertindex s) = numcorrelators cfg;
  sh_rows : forall k l, get_level k s = Some l ->
            alen (l_shift l) = p cfg /\ alen (l_corr l) = p cfg /\
            alen (l_ncorr l) = p cfg;
  sh_t : alen (t s) = length_ cfg;
  sh_f : alen (f s) = length_ cfg
}.

(** The state [initialize] establishes. *)
Definition fresh_level : level D :=
  Level (replicate (Z.to_nat (p cfg)) d_m2e10)
        (replicate (Z.to_nat (p cfg)) (d_of_Z 0))
        (replicate (Z.to_nat (p cfg)) 0)
        (d_of_Z 0) 0 0.

Definition fresh : state D :=
  let n := Z.to_nat (numcorrelators cfg) in
  State (replicate n (l_shift fresh_level))
        (replicate n (l_corr fresh_level))
        (replicate n (l_ncorr fresh_level))
        (replicate n (d_of_Z 0)) (replicate n 0) (replicate n 0)
        0 (d_of_Z 0)
        (replicate (Z.to_nat (length_ cfg)) (d_of_Z 0))
        (replicate (Z.to_nat (length_ cfg)) (d_of_Z 0))
        0.

Lemma allocate_shaped jd jz :
  0 <= numcorrelators cfg -> 0 <= p cfg -> 0 <= length_ cfg ->
  shaped (allocate cfg jd jz).
Proof.
  intros Hn Hp Hl. split; simpl; rewrite ?alen_replicate; try lia.
  intros k l Hk. apply get_level_Some in Hk. simpl in Hk.
  destruct Hk as (H1 & H2 & H3 & _).
  assert (0 <= k < Z.of_nat (Z.to_nat (numcorrelators cfg))) as Hr.
  { apply aget_Some_lt in H1. by rewrite alen_replicate in H1. }
  rewrite aget_replicate in H1 by done.
  rewrite aget_replicate in H2 by done.
  rewrite aget_replicate in H3 by done.
  simplify_eq. rewrite <- H1, <- H2, <- H3, !alen_replicate. lia.
Qed.

Lemma get_level_fresh k :
  0 <= k < numcorrelators cfg -> get_level k fresh = Some fresh_level.
Proof.
  intros Hk. apply get_level_Some. simpl.
  rewrite !aget_replicate by lia. done.
Qed.

Lemma get_level_fresh_inv k l : get_level k fresh = Some l -> l = fresh_level.
Proof.
  intros Hl. pose proof (get_level_range _ _ _ Hl) as Hk.
  simpl in Hk. rewrite alen_replicate in Hk.
  rewrite get_level_fresh in Hl by lia. by simplify_eq.
Qed.

Lemma fresh_wf : cfg_ok cfg -> wf cfg fresh.
Proof.
  intros (Hnc & Hp & Hm & Hd & Hlen & Hcap).
  split; simpl; rewrite ?alen_replicate; try lia.
  intros k l Hl. apply get_level_fresh_inv in Hl. subst l.
  split; simpl; rewrite ?alen_replicate; lia.
Qed.

(** One iteration of the inner loop of [initialize]. *)
Lemma init_cell_runs j i s l :
  get_level j s = Some l ->
  0 <= i < alen (l_shift l) -> 0 <= i < alen (l_corr l) ->
  0 <= i < alen (l_ncorr l) ->
  runs (bind (store2 f_shift j i d_m2e10) (fun _ =>
        bind (store2 f_correlation j i (d_of_Z 0)) (fun _ =>
              store2 f_ncorrelation j i 0))) s tt
       (put_level j (Level (aset (l_shift l) i d_m2e10)
                           (aset (l_corr l) i (d_of_Z 0))
                           (aset (l_ncorr l) i 0)
                           (l_acc l) (l_nacc l) (l_ii l)) s) [].
Proof.
  intros Hl B1 B2 B3.
  apply get_level_Some in Hl. destruct Hl as (H1 & H2 & H3 & H4 & H5 & H6).
  eapply runs_eq; [mstep; mstep; mlast| |reflexivity].
  unfold put_level; simpl.
  rewrite ?(aset_id (accumulator s)), ?(aset_id (naccumulator s)),
    ?(aset_id (insertindex s)) by done.
  reflexivity.
Qed.

Definition init_row (i : Z) (l : level D) : level D :=
  Level (fillz i d_m2e10 (l_shift l)) (fillz i (d_of_Z 0) (l_corr l))
        (fillz i 0 (l_ncorr l)) (l_acc l) (l_nacc l) (l_ii l).

Lemma init_row_runs j n : forall i s l,
  get_level j s = Some l ->
  alen (l_shift l) = p cfg -> alen (l_corr l) = p cfg ->
  alen (l_ncorr l) = p cfg ->
  0 <= i -> i + Z.of_nat n <= p cfg ->
  runs (for_range n i (fun i _ =>
          bind (store2 f_shift j i d_m2e10) (fun _ =>
          bind (store2 f_correlation j i (d_of_Z 0)) (fun _ =>
                store2 f_ncorrelation j i 0))) tt)
       (put_level j (init_row i l) s) tt
       (put_level j (init_row (i + Z.of_nat n) l) s) [].
Proof.
  induction n as [|n IH]; intros i s l Hl L1 L2 L3 Hi Hn; simpl.
  - rewrite Z.add_0_r. apply runs_ret.
  - eapply runs_eq; [eapply runs_bind|..].
    + apply (init_cell_runs j i _ (init_row i l)); [glv|simpl..];
        rewrite alen_fillz; lia.
    + simpl. rewrite put_put. rewrite 3 aset_fillz by lia.
      apply (IH (i + 1) s l); [done..|lia|lia].
    + by replace (i + Z.of_nat (S n)) with (i + 1 + Z.of_nat n) by lia.
    + reflexivity.
Qed.

(** The state after the first [j] iterations of the outer loop. *)
Definition init_levels (j : Z) (s : state D) : state D :=
  State (fillz j (l_shift fresh_level) (shift s))
        (fillz j (l_corr fresh_level) (correlation s))
        (fillz j (l_ncorr fresh_level) (ncorrelation s))
        (fillz j (d_of_Z 0) (accumulator s))
        (fillz j 0 (naccumulator s))
        (fillz j 0 (insertindex s))
        (kmax s) (accval s) (t s) (f s) (npcorr s).

Lemma get_level_init_levels j s :
  0 <= j -> get_level j (init_levels j s) = get_level j s.
Proof.
  intros Hj. unfold get_level, init_levels; simpl.
  by rewrite !aget_fillz_ge by lia.
Qed.

Lemma init_levels_runs n : forall j s,
  shaped s -> 0 <= p cfg -> 0 <= j ->
  j + Z.of_nat n <= numcorrelators cfg ->
  runs (for_range n j (fun j _ =>
          bind (for_range (Z.to_nat (p cfg)) 0 (fun i _ =>
                  bind (store2 f_shift j i d_m2e10) (fun _ =>
                  bind (store2 f_correlation j i (d_of_Z 0)) (fun _ =>
                        store2 f_ncorrelation j i 0))) tt) (fun _ =>
          bind (store f_accumulator j (d_of_Z 0)) (fun _ =>
          bind (store f_naccumulator j 0) (fun _ =>
                store f_insertindex j 0)))) tt)
       (init_levels j s) tt (init_levels (j + Z.of_nat n) s) [].
Proof.
  induction n as [|n IH]; intros j s Hs Hp Hj Hn; simpl.
  - rewrite Z.add_0_r. apply runs_ret.
  - destruct Hs as [S1 S2 S3 S4 S5 S6 Srows St Sf].
    assert (is_Some (get_level j s)) as [l Hl].
    { apply get_level_is_Some. lia. }
    destruct (Srows j l Hl) as (L1 & L2 & L3).
    assert (get_level j (init_levels j s) = Some l) as Hl'.
    { by rewrite get_level_init_levels. }
    pose proof (init_row_runs j (Z.to_nat (p cfg)) 0 _ l Hl' L1 L2 L3
                  ltac:(lia) ltac:(lia)) as Hrow.
    unfold init_row at 1 in Hrow. rewrite !fillz_0 in Hrow.
    replace (Level (l_shift l) (l_corr l) (l_ncorr l) (l_acc l) (l_nacc l)
               (l_ii l)) with l in Hrow by (by destruct l).
    rewrite put_get_id in Hrow by done.
    eapply runs_eq; [eapply runs_bind|..].
    + eapply runs_bind; [apply Hrow|].
      mstep; [rewrite alen_fillz; lia|].
      mstep; [rewrite alen_fillz; lia|].
      mlast. rewrite alen_fillz; lia.
    + simpl.
      match goal with |- runs _ ?s0 _ _ _ =>
        replace s0 with (init_levels (j + 1) s) end.
      { apply IH; [by split|lia..]. }
      unfold init_levels, init_row; simpl.
      rewrite !Z.add_0_l, !aset_aset.
      rewrite (fillz_all _ _ (l_shift l)), (fillz_all _ _ (l_corr l)),
        (fillz_all _ _ (l_ncorr l)) by lia.
      rewrite !Z2Nat.id by lia.
      unfold put_level, set_insertindex, set_naccumulator, set_accumulator.
      simpl. rewrite 6 aset_fillz by lia. reflexivity.
    + by replace (j + Z.of_nat (S n)) with (j + 1 + Z.of_nat n) by lia.
    + reflexivity.
Qed.

Lemma init_out_runs n : forall i s,
  0 <= i -> i + Z.of_nat n <= alen (t s) -> alen (f s) = alen (t s) ->
  runs (for_range n i (fun i _ =>
          bind (store f_t i (d_of_Z 0)) (fun _ => store f_f i (d_of_Z 0))) tt)
       (set_f (fillz i (d_of_Z 0) (f s)) (set_t (fillz i (d_of_Z 0) (t s)) s))
       tt
       (set_f (fillz (i + Z.of_nat n) (d_of_Z 0) (f s))
          (set_t (fillz (i + Z.of_nat n) (d_of_Z 0) (t s)) s)) [].
Proof.
  induction n as [|n IH]; intros i s Hi Hn Hf; simpl.
  - rewrite Z.add_0_r. apply runs_ret.
  - eapply runs_eq; [eapply runs_bind|..].
    + mstep; [rewrite alen_fillz; lia|]. mlast. rewrite alen_fillz; lia.
    + simpl. rewrite !aset_fillz by lia.
      apply (IH (i + 1) s); lia.
    + by replace (i + Z.of_nat (S n)) with (i + 1 + Z.of_nat n) by lia.
    + reflexivity.
Qed.

Theorem initialize_runs s :
  shaped s -> 0 <= numcorrelators cfg -> 0 <= p cfg ->
  runs (initialize cfg) s tt fresh [].
Proof.
  intros Hs Hnc Hp. pose proof Hs as [S1 S2 S3 S4 S5 S6 Srows St Sf].
  unfold initialize.
  pose proof (init_levels_runs (Z.to_nat (numcorrelators cfg)) 0 s Hs Hp
                ltac:(lia) ltac:(lia)) as H1.
  replace (init_levels 0 s) with s in H1 by (by destruct s).
  pose proof (init_out_runs (Z.to_nat (length_ cfg)) 0
                (init_levels (0 + Z.of_nat (Z.to_nat (numcorrelators cfg))) s)
                ltac:(lia) ltac:(simpl; pose proof (alen_nonneg (t s)); lia)
                ltac:(simpl; lia)) as H2.
  rewrite !fillz_0 in H2.
  eapply runs_eq.
  - eapply runs_bind; [apply H1|].
    eapply runs_bind.
    { match type of H2 with runs _ ?s0 _ _ _ =>
        replace s0 with
          (init_levels (0 + Z.of_nat (Z.to_nat (numcorrelators cfg))) s)
          in H2 by reflexivity end.
      apply H2. }
    mstep. mstep. mlast.
  - unfold fresh, init_levels; simpl.
    pose proof (alen_nonneg (t s)).
    rewrite !fillz_all by lia.
    rewrite Z.add_0_l, !Z2Nat.id by lia. reflexivity.
  - reflexivity.
Qed.

End Initialize.

(** ** [evaluate] *)

Section Evaluate.
Context {D : Type} {DD : Double D}.
Implicit Types (s : state D) (k i : Z) (pts : list (D * D)).
Variable cfg : config.

(** *** The output as the specification words it *)

(** The mean-square correction. *)
Definition eval_aux (norm : bool) s : D :=
  if norm then
    let n := default 0 (aget2 (ncorrelation s) 0 0) in
    d_mul (d_div (accval s) (d_of_Z n)) (d_div (accval s) (d_of_Z n))
  else d_of_Z 0.

(** The lag of bin [i] of level [k]: [i] at level 0, [i * m^k] above. *)
Definition lag (k i : Z) : D :=
  if k =? 0 then d_of_Z i else d_mul (d_of_Z i) (d_pow (d_of_Z (m cfg)) k).

(** The pair of bin [i] of level [k], if its count is positive. *)
Definition point_with (lagf : Z -> D) (aux : D) s (k i : Z) : option (D * D) :=
  match aget2 (ncorrelation s) k i, aget2 (correlation s) k i with
  | Some n, Some c =>
      if 0 <? n then Some (lagf i, d_sub (d_div c (d_of_Z n)) aux) else None
  | _, _ => None
  end.

Definition point (aux : D) s (k i : Z) : option (D * D) :=
  point_with (lag k) aux s k i.

(** One pair per lag index [i] in [[lo, p)] with a positive count. *)
Definition level_points (aux : D) s (k lo : Z) : list (D * D) :=
  omap (point aux s k) (seqZ lo (p cfg - lo)).

(** Level 0 over [[0, p)], then the levels [k] in [[1, kmax)] over
    [[d_min, p)]. *)
Definition eval_points (norm : bool) s : list (D * D) :=
  level_points (eval_aux norm s) s 0 0 ++
  mjoin ((fun k => level_points (eval_aux norm s) s k (d_min cfg))
           <$> seqZ 1 (kmax s - 1)).

(** [t] and [f] after the pairs [pts] have been written from index 0. *)
Definition with_out s pts : state D :=
  set_f (pts.*2 ++ drop (length pts) (f s))
    (set_t (pts.*1 ++ drop (length pts) (t s)) s).

(** *** [evaluate] writes these pairs *)

Lemma seqZ_S_cons i n : seqZ i (Z.of_nat (S n)) = i :: seqZ (i + 1) (Z.of_nat n).
Proof. rewrite seqZ_cons by lia. f_equal. f_equal; lia. Qed.

Lemma omap_cons_eq {A B} (g : A -> option B) x (l : list A) :
  omap g (x :: l) =
  match g x with Some y => y :: omap g l | None => omap g l end.
Proof. done. Qed.

Lemma mjoin_cons_eq {A} (x : list A) (l : list (list A)) :
  mjoin (x :: l) = x ++ mjoin l.
Proof. done. Qed.

Lemma seqZ_to_nat i n : seqZ i (Z.of_nat (Z.to_nat n)) = seqZ i n.
Proof. unfold seqZ. by rewrite Nat2Z.id. Qed.

Lemma aset_out {A} (pre l : list A) (n : nat) x :
  length pre = n -> (n < length l)%nat ->
  aset (pre ++ drop n l) (Z.of_nat n) x = (pre ++ [x]) ++ drop (S n) l.
Proof.
  intros <- Hlt. unfold aset.
  destruct (Z.leb_spec 0 (Z.of_nat (length pre))); [|lia].
  rewrite Nat2Z.id, insert_app_r_alt, Nat.sub_diag by lia.
  replace (S (length pre)) with (length pre + 1)%nat by lia.
  rewrite <- drop_drop.
  destruct (drop (length pre) l) as [|y l'] eqn:E.
  { apply (f_equal length) in E. rewrite length_drop in E. simpl in E. lia. }
  by rewrite <- app_assoc.
Qed.

Lemma alen_out {A} (pre l : list A) (n : nat) :
  length pre = n -> (n <= length l)%nat -> alen (pre ++ drop n l) = alen l.
Proof. intros <- H. unfold alen. rewrite length_app, length_drop. lia. Qed.

Lemma with_out_nil s : with_out s [] = s.
Proof. by destruct s. Qed.

Lemma with_out_snoc s pts x y :
  (length pts < length (t s))%nat -> (length pts < length (f s))%nat ->
  set_f (aset (f (with_out s pts)) (Z.of_nat (length pts)) y)
    (set_t (aset (t (with_out s pts)) (Z.of_nat (length pts)) x)
       (with_out s pts)) = with_out s (pts ++ [(x, y)]).
Proof.
  intros Ht Hf. unfold with_out; simpl.
  rewrite !aset_out by (by rewrite ?length_fmap).
  rewrite !fmap_app, length_app. simpl.
  by rewrite Nat.add_1_r.
Qed.

Lemma emit_point_runs k i lagv aux pts s nrow crow n c :
  aget (ncorrelation s) k = Some nrow -> aget nrow i = Some n ->
  aget (correlation s) k = Some crow -> aget crow i = Some c ->
  (length pts < length (t s))%nat -> (length pts < length (f s))%nat ->
  alen (t s) < 2 ^ 32 ->
  let o := if 0 <? n then [(lagv, d_sub (d_div c (d_of_Z n)) aux)] else [] in
  runs (emit_point k i lagv aux (Z.of_nat (length pts))) (with_out s pts)
       (Z.of_nat (length (pts ++ o))) (with_out s (pts ++ o)) [].
Proof.
  intros Hn1 Hn2 Hc1 Hc2 Ht Hf Hcap o. subst o. unfold emit_point.
  destruct (0 <? n) eqn:En.
  - eapply runs_conv.
    + eapply runs_bind; [by eapply runs_load2|]. simpl. rewrite En.
      eapply runs_bind.
      { apply runs_store. simpl.
        rewrite alen_out by (rewrite ?length_fmap; lia). unfold alen. lia. }
      eapply runs_bind; [by eapply runs_load2|].
      eapply runs_bind; [|apply runs_ret].
      apply runs_store. simpl.
      rewrite alen_out by (rewrite ?length_fmap; lia). unfold alen. lia.
    + rewrite length_app. simpl. unfold alen in Hcap. rewrite u32_id; lia.
    + simpl. rewrite <- with_out_snoc by done. reflexivity.
    + reflexivity.
  - eapply runs_conv.
    + eapply runs_bind; [by eapply runs_load2|]. simpl. rewrite En.
      apply runs_ret.
    + by rewrite app_nil_r.
    + by rewrite app_nil_r.
    + reflexivity.
Qed.

Lemma points_loop_runs (lagf : Z -> D) aux k s nrow crow n : forall i pts,
  aget (ncorrelation s) k = Some nrow -> aget (correlation s) k = Some crow ->
  alen nrow = p cfg -> alen crow = p cfg ->
  0 <= i -> i + Z.of_nat n <= p cfg ->
  (length pts + n <= length (t s))%nat -> length (f s) = length (t s) ->
  alen (t s) < 2 ^ 32 ->
  let pts' := pts ++ omap (point_with lagf aux s k) (seqZ i (Z.of_nat n)) in
  (length pts' <= length pts + n)%nat /\
  runs (for_range n i (fun i im => emit_point k i (lagf i) aux im)
          (Z.of_nat (length pts)))
       (with_out s pts) (Z.of_nat (length pts')) (with_out s pts') [].
Proof.
  induction n as [|n IH]; intros i pts Hn Hc Ln Lc Hi Hin Hlen Hf Hcap.
  - simpl. rewrite app_nil_r. split; [lia|apply runs_ret].
  - cbv zeta. rewrite seqZ_S_cons, omap_cons_eq. cbn [for_range].
    destruct (aget_lt_Some nrow i ltac:(lia)) as [nv Hnv].
    destruct (aget_lt_Some crow i ltac:(lia)) as [cv Hcv].
    pose proof (emit_point_runs k i (lagf i) aux pts s nrow crow nv cv
                  Hn Hnv Hc Hcv ltac:(lia) ltac:(lia) Hcap) as Hstep.
    cbv zeta in Hstep.
    assert (point_with lagf aux s k i =
            if 0 <? nv then Some (lagf i, d_sub (d_div cv (d_of_Z nv)) aux)
            else None) as ->.
    { unfold point_with, aget2. by rewrite Hn, Hc, Hnv, Hcv. }
    destruct (0 <? nv).
    + destruct (IH (i + 1) (pts ++ [(lagf i, d_sub (d_div cv (d_of_Z nv)) aux)])
                  Hn Hc Ln Lc ltac:(lia) ltac:(lia)) as [Hle Hrun];
        [rewrite length_app; simpl; lia|done..|].
      cbv zeta in Hle, Hrun. rewrite <- app_assoc in Hle, Hrun.
      rewrite !length_app in Hle. simpl in Hle.
      split; [rewrite length_app; simpl; lia|].
      eapply runs_bind in Hrun; [|apply Hstep]. apply Hrun.
    + destruct (IH (i + 1) pts Hn Hc Ln Lc ltac:(lia) ltac:(lia))
        as [Hle Hrun]; [lia|done..|].
      cbv zeta in Hle, Hrun. split; [lia|].
      rewrite app_nil_r in Hstep.
      eapply runs_bind in Hrun; [|apply Hstep]. apply Hrun.
Qed.

Lemma omap_ext_eq {A B} (g h : A -> option B) (l : list A) :
  (forall x, g x = h x) -> omap g l = omap h l.
Proof.
  intros Hgh. induction l as [|x l IH]; [done|].
  by rewrite !omap_cons_eq, Hgh, IH.
Qed.

Lemma point_above aux s k i :
  k <> 0 ->
  point aux s k i =
  point_with (fun i => d_mul (d_of_Z i) (d_pow (d_of_Z (m cfg)) k)) aux s k i.
Proof.
  intros Hk. unfold point, point_with, lag.
  by destruct (Z.eqb_spec k 0).
Qed.

Lemma point_zero aux s i : point aux s 0 i = point_with d_of_Z aux s 0 i.
Proof. done. Qed.

Lemma wf_rows s k :
  wf cfg s -> 0 <= k < numcorrelators cfg ->
  exists nrow crow,
    aget (ncorrelation s) k = Some nrow /\ aget (correlation s) k = Some crow /\
    alen nrow = p cfg /\ alen crow = p cfg.
Proof.
  intros Hwf Hk. destruct (wf_get_level cfg s k Hwf Hk) as (l & Hl & [? ? ? ?]).
  apply get_level_Some in Hl. destruct Hl as (_ & H2 & H3 & _).
  eauto 10.
Qed.

Lemma levels_loop_runs aux s n : forall k pts,
  wf cfg s -> 0 <= d_min cfg <= p cfg -> p cfg < 2 ^ 31 ->
  1 <= k -> k + Z.of_nat n <= numcorrelators cfg ->
  (length pts + n * Z.to_nat (p cfg - d_min cfg) <= length (t s))%nat ->
  length (f s) = length (t s) -> alen (t s) < 2 ^ 32 ->
  let pts' :=
    pts ++ mjoin ((fun k => level_points aux s k (d_min cfg))
                    <$> seqZ k (Z.of_nat n)) in
  (length pts' <= length pts + n * Z.to_nat (p cfg - d_min cfg))%nat /\
  runs (for_range n k (fun k im =>
          for_range (Z.to_nat (p cfg - d_min cfg)) (s32 (d_min cfg))
            (fun i im =>
               emit_point k i (d_mul (d_of_Z i) (d_pow (d_of_Z (m cfg)) k))
                 aux im) im)
          (Z.of_nat (length pts)))
       (with_out s pts) (Z.of_nat (length pts')) (with_out s pts') [].
Proof.
  induction n as [|n IH]; intros k pts Hwf Hd Hp Hk Hkn Hlen Hf Hcap.
  - simpl. rewrite app_nil_r. split; [lia|apply runs_ret].
  - cbv zeta. rewrite seqZ_S_cons, fmap_cons, mjoin_cons_eq. cbn [for_range].
    destruct (wf_rows s k Hwf ltac:(lia)) as (nrow & crow & Hn & Hc & Ln & Lc).
    destruct (points_loop_runs
                (fun i => d_mul (d_of_Z i) (d_pow (d_of_Z (m cfg)) k))
                aux k s nrow crow (Z.to_nat (p cfg - d_min cfg))
                (d_min cfg) pts Hn Hc Ln Lc ltac:(lia) ltac:(lia))
      as [Hle1 Hrun1]; [nia|done..|].
    cbv zeta in Hle1, Hrun1. rewrite seqZ_to_nat in Hle1, Hrun1.
    assert (omap (point_with
                    (fun i => d_mul (d_of_Z i) (d_pow (d_of_Z (m cfg)) k))
                    aux s k) (seqZ (d_min cfg) (p cfg - d_min cfg))
            = level_points aux s k (d_min cfg)) as E.
    { apply omap_ext_eq. intros i. symmetry. apply point_above. lia. }
    rewrite E in Hle1, Hrun1.
    destruct (IH (k + 1) (pts ++ level_points aux s k (d_min cfg)) Hwf Hd Hp
                ltac:(lia) ltac:(lia)) as [Hle2 Hrun2]; [nia|done..|].
    cbv zeta in Hle2, Hrun2. rewrite <- app_assoc in Hle2, Hrun2.
    split; [nia|].
    eapply runs_conv;
      [eapply runs_bind; [rewrite s32_id by lia; apply Hrun1|apply Hrun2]
      |reflexivity..].
Qed.

(** The state [evaluate] returns. *)
Definition evaluated (norm : bool) s : state D :=
  set_npcorr (Z.of_nat (length (eval_points norm s)))
    (with_out s (eval_points norm s)).

Theorem evaluate_runs norm s :
  cfg_ok cfg -> wf cfg s ->
  runs (evaluate cfg norm) s tt (evaluated norm s) [] /\
  (length (eval_points norm s) <= length (t s))%nat.
Proof.
  intros Hcfg Hwf.
  pose proof Hcfg as (Hnc & Hp & Hm & Hd & Hlen & Hcap).
  assert (0 <= d_min cfg <= p cfg) as Hdm.
  { rewrite Hd. split; [apply Z.div_pos; lia|].
    apply Z.div_le_upper_bound; nia. }
  pose proof (wf_t _ _ Hwf) as Ht. pose proof (wf_f _ _ Hwf) as Hf.
  pose proof (wf_kmax _ _ Hwf) as Hk.
  unfold alen in Ht, Hf.
  destruct (wf_rows s 0 Hwf ltac:(lia)) as (nrow & crow & Hn & Hc & Ln & Lc).
  destruct (aget_lt_Some nrow 0 ltac:(lia)) as [n00 Hn00].
  set (aux := eval_aux norm s).
  (* the first correlator *)
  destruct (points_loop_runs d_of_Z aux 0 s nrow crow (Z.to_nat (p cfg)) 0 []
              Hn Hc Ln Lc ltac:(lia) ltac:(lia)) as [Hle1 Hrun1];
    [simpl; nia|lia|unfold alen; lia|].
  cbv zeta in Hle1, Hrun1. rewrite app_nil_l in Hle1, Hrun1.
  change (length (@nil (D * D))) with 0%nat in Hle1, Hrun1.
  change (Z.of_nat 0) with 0 in Hrun1.
  rewrite seqZ_to_nat, with_out_nil in Hrun1. rewrite seqZ_to_nat in Hle1.
  replace (seqZ 0 (p cfg)) with (seqZ 0 (p cfg - 0)) in Hle1, Hrun1
    by (f_equal; lia).
  change (omap (point_with d_of_Z aux s 0) (seqZ 0 (p cfg - 0)))
    with (level_points aux s 0 0) in Hle1, Hrun1.
  (* the subsequent correlators *)
  assert (length (level_points aux s 0 0) +
          Z.to_nat (kmax s - 1) * Z.to_nat (p cfg - d_min cfg)
          <= length (t s))%nat as Hfit.
  { assert (Z.of_nat (Z.to_nat (kmax s - 1)) <= numcorrelators cfg - 1) by lia.
    assert (Z.of_nat (Z.to_nat (p cfg - d_min cfg)) <= p cfg) by lia.
    assert (Z.of_nat (length (level_points aux s 0 0)) <= p cfg) by lia.
    set (K := Z.to_nat (kmax s - 1)) in *.
    set (X := Z.to_nat (p cfg - d_min cfg)) in *.
    apply Nat2Z.inj_le. rewrite Nat2Z.inj_add, Nat2Z.inj_mul, Ht, Hlen.
    nia. }
  destruct (levels_loop_runs aux s (Z.to_nat (kmax s - 1)) 1
              (level_points aux s 0 0) Hwf Hdm ltac:(lia) ltac:(lia) ltac:(lia))
    as [Hle2 Hrun2]; [done|lia|unfold alen; lia|].
  cbv zeta in Hle2, Hrun2. rewrite seqZ_to_nat in Hle2, Hrun2.
  fold aux in Hle2, Hrun2.
  change (level_points aux s 0 0 ++
          mjoin ((fun k => level_points aux s k (d_min cfg))
                   <$> seqZ 1 (kmax s - 1)))
    with (eval_points norm s) in Hle2, Hrun2.
  split; [|lia].
  unfold evaluate, evaluated.
  eapply runs_conv; [|reflexivity|reflexivity|].
  - eapply runs_bind.
    { instantiate (1 := []). instantiate (1 := s). instantiate (1 := aux).
      unfold aux, eval_aux, aget2. rewrite Hn, Hn00. simpl.
      destruct norm; [|apply runs_ret].
      eapply runs_conv; [mstep; mstep; mlast|reflexivity..]. }
    eapply runs_bind; [apply Hrun1|].
    eapply runs_bind; [apply runs_rd|]. simpl.
    eapply runs_bind; [apply Hrun2|].
    apply runs_wr.
  - reflexivity.
Qed.

End Evaluate.

(** ** Calls and runs of the engine *)

Section Engine.
Context {D : Type} {DD : Double D}.
Implicit Types (s : state D) (l : level D) (k j : Z) (tr : list (event D)).
Variable cfg : config.

(** A call [add(w, k)] as a caller makes it.  The fuel is the number of
    levels from [k] to the depth, plus one for the call that is dropped
    there: the recursion never needs more, as is proved below. *)
Definition call_add (w : D) (k : Z) : M D unit :=
  add cfg (S (Z.to_nat (numcorrelators cfg - k))) w k.

(** The operations a caller has after [initialize]. *)
Inductive op : Type :=
| OpAdd (w : D) (k : Z)
| OpEvaluate (norm : bool).

Definition exec_op (o : op) : M D unit :=
  match o with
  | OpAdd w k => call_add w k
  | OpEvaluate norm => evaluate cfg norm
  end.

Fixpoint exec_ops (os : list op) : M D unit :=
  match os with
  | [] => ret tt
  | o :: os' => bind (exec_op o) (fun _ => exec_ops os')
  end.

(** [s] with the events [tr] is reached from a freshly initialised
    engine by a sequence of calls. *)
Definition reachable s tr : Prop :=
  exists s0 os,
    shaped cfg s0 /\
    runs (bind (initialize cfg) (fun _ => exec_ops os)) s0 tt s tr.

(** Feeding samples at level 0. *)
Definition feed (ws : list D) : M D unit := exec_ops ((fun w => OpAdd w 0) <$> ws).

(** The invariants of the data model. *)
Definition ranges_ok s : Prop :=
  forall k, 0 <= k < numcorrelators cfg ->
    exists ii n,
      aget (insertindex s) k = Some ii /\ aget (naccumulator s) k = Some n /\
      0 <= ii < p cfg /\ 0 <= n < m cfg.

End Engine.

Arguments op D : clear implicits.

(** ** Levels outside the hierarchy *)

Section Depth.
Context {D : Type} {DD : Double D}.
Implicit Types (s : state D) (l : level D) (k j : Z) (tr : list (event D)).
Variable cfg : config.

Lemma bind_Fault {A B} (c : M D A) (h : A -> M D B) s :
  c s = Fault -> bind c h s = Fault.
Proof. unfold bind. by intros ->. Qed.

(** At [k == numcorrelators] the sample is dropped. *)
Lemma add_at_depth_noop fuel w s :
  add cfg (S fuel) w (numcorrelators cfg) s = Done (tt, s, []).
Proof. simpl. by rewrite Z.eqb_refl. Qed.

Lemma insert_out_of_range w k s :
  ~ (0 <= k < alen (insertindex s)) -> insert w k s = Fault.
Proof.
  intros Hk. unfold insert, bind, rd, wr, ret, load. simpl.
  destruct (kmax s <? k); simpl; by rewrite aget_None.
Qed.

Lemma add_out_of_range fuel w k s :
  wf cfg s -> k < 0 \/ numcorrelators cfg < k ->
  add cfg (S fuel) w k s = Fault.
Proof.
  intros Hwf Hk. simpl.
  destruct (Z.eqb_spec k (numcorrelators cfg)) as [->|Hne].
  { destruct Hk as [Hk|Hk]; [|lia].
    pose proof (wf_kmax _ _ Hwf). lia. }
  apply bind_Fault, insert_out_of_range.
  rewrite (wf_insertindex _ _ Hwf). lia.
Qed.

End Depth.

(** ** Events by level *)

Section Events.
Context {D : Type} {DD : Double D}.
Implicit Types (s : state D) (l : level D) (k j : Z) (tr : list (event D)).
Variable cfg : config.

Definition ev_level (e : event D) : Z :=
  match e with
  | EvInsert k _ _ => k
  | EvProduct k _ _ _ => k
  end.

(** The events of level [j]. *)
Definition at_level (j : Z) tr : list (event D) :=
  filter (fun e => ev_level e = j) tr.

(** The events of one call at the level it is called at. *)
Definition lv_events (w : D) (k : Z) (l : level D) : list (event D) :=
  EvInsert k (l_ii l) w :: lv_products cfg k (lv_head cfg w l).

Lemma at_level_app j tr1 tr2 :
  at_level j (tr1 ++ tr2) = at_level j tr1 ++ at_level j tr2.
Proof. apply filter_app. Qed.

Lemma at_level_all j tr :
  Forall (fun e => ev_level e = j) tr -> at_level j tr = tr.
Proof.
  induction 1 as [|e tr He _ IH]; [done|].
  unfold at_level. rewrite filter_cons_True by done. f_equal. apply IH.
Qed.

Lemma at_level_none j tr :
  Forall (fun e => ev_level e <> j) tr -> at_level j tr = [].
Proof.
  induction 1 as [|e tr He _ IH]; [done|].
  unfold at_level. rewrite filter_cons_False by done. apply IH.
Qed.

Lemma ev_loop_level n i k l :
  Forall (fun e => ev_level e = k) (ev_loop cfg n i k l).
Proof.
  revert i. induction n as [|n IH]; intros i; simpl; [done|].
  apply Forall_app. split; [|apply IH].
  case_match; repeat constructor.
Qed.

Lemma lv_events_level w k l : Forall (fun e => ev_level e = k) (lv_events w k l).
Proof. constructor; [done|]. apply ev_loop_level. Qed.

(** A call at level [k] records events of the levels from [k] on. *)
Lemma add_pure_events_from fuel : forall w k s,
  Forall (fun e => k <= ev_level e) (add_pure cfg fuel w k s).2.
Proof.
  induction fuel as [|fuel IH]; intros w k s; simpl; [done|].
  case_match; [done|].
  destruct (get_level k s) as [l|]; [|done]. simpl.
  constructor; [simpl; lia|].
  apply Forall_app. split.
  - case_match; [|done].
    eapply Forall_impl; [apply IH|]. simpl. intros; lia.
  - eapply Forall_impl; [apply ev_loop_level|]. simpl. intros; lia.
Qed.

(** The step of a call: every level from [k] on that the cascade reaches
    takes [lv_step] and records [lv_events]; the others are left alone.
    [Q] is what the inserted values satisfy, [P] what the levels satisfy
    before and [P'] after. *)
Lemma add_pure_levels
    (P P' : Z -> level D -> list (event D) -> Prop) (Q : D -> Prop) :
  p cfg < 2 ^ 32 ->
  (forall k l evs, P k l evs -> P' k l evs) ->
  (forall w k l evs,
     Q w -> level_shape cfg l -> P k l evs ->
     P' k (lv_step cfg w k l) (evs ++ lv_events w k l)) ->
  (forall w k l evs,
     Q w -> level_shape cfg l -> P k l evs ->
     lv_full cfg (lv_insert w l) = true -> Q (lv_carry cfg (lv_insert w l))) ->
  forall fuel w k s tr,
    wf cfg s -> Q w ->
    (forall j l, k <= j -> get_level j s = Some l -> P j l (at_level j tr)) ->
    forall j l, k <= j ->
      get_level j (add_pure cfg fuel w k s).1 = Some l ->
      P' j l (at_level j (tr ++ (add_pure cfg fuel w k s).2)).
Proof.
  intros Hp Hweak Hstep Hcarry.
  induction fuel as [|fuel IH]; intros w k s tr Hwf HQ HP j l Hkj Hl.
  { simpl in *. rewrite app_nil_r. by apply Hweak, HP. }
  simpl in Hl |- *.
  destruct (Z.eqb_spec k (numcorrelators cfg)) as [Hk|Hk].
  { simpl in *. rewrite app_nil_r. by apply Hweak, HP. }
  destruct (get_level k s) as [l0|] eqn:El0.
  2:{ simpl in *. rewrite app_nil_r. by apply Hweak, HP. }
  pose proof (wf_levels _ _ Hwf _ _ El0) as Hshape.
  pose proof (get_level_range _ _ _ El0) as Hrange.
  rewrite (wf_shift _ _ Hwf) in Hrange.
  set (s1 := put_level k (lv_step cfg w k l0) (bump w k s)) in *.
  assert (get_level k s1 = Some (lv_step cfg w k l0)) as Hk1.
  { unfold s1. eapply get_put_eq. by rewrite get_level_bump. }
  simpl in Hl |- *.
  rewrite at_level_app.
  change (EvInsert k (l_ii l0) w :: ?r ++ lv_products cfg k (lv_head cfg w l0))
    with ([EvInsert k (l_ii l0) w] ++ r ++ lv_products cfg k (lv_head cfg w l0)).
  rewrite !at_level_app.
  destruct (lv_full cfg (lv_insert w l0)) eqn:Efull; simpl in Hl |- *.
  - set (r := add_pure cfg fuel (lv_carry cfg (lv_insert w l0)) (k + 1) s1) in *.
    destruct (decide (j = k)) as [->|Hne].
    + (* the level of the call *)
      unfold r in Hl. rewrite add_pure_below in Hl by lia.
      rewrite Hk1 in Hl. simplify_eq.
      rewrite (at_level_none k r.2).
      2:{ eapply Forall_impl; [apply add_pure_events_from|]. simpl. intros; lia. }
      rewrite app_nil_l, <- at_level_app.
      rewrite (at_level_all k ([_] ++ _)) by apply lv_events_level.
      apply Hstep; [done..|]. apply HP; [lia|done].
    + (* a deeper level *)
      rewrite (at_level_none j [_]) by (repeat constructor; simpl; lia).
      rewrite (at_level_none j (lv_products _ _ _)).
      2:{ eapply Forall_impl; [apply ev_loop_level|]. simpl. intros; lia. }
      rewrite app_nil_l, app_nil_r, <- at_level_app.
      apply (IH (lv_carry cfg (lv_insert w l0)) (k + 1) s1 tr); [..|lia|done].
      * unfold s1. apply wf_put_level; [apply wf_bump; [done|lia]|].
        apply lv_step_shape; [|done]. destruct Hshape. lia.
      * eapply Hcarry; [done..| |done]. apply (HP k); [lia|done].
      * intros j' l' Hj' Hl'. unfold s1 in Hl'.
        rewrite get_put_ne, get_level_bump in Hl' by lia. apply HP; [lia|done].
  - destruct (decide (j = k)) as [->|Hne].
    + rewrite Hk1 in Hl. simplify_eq.
      rewrite <- at_level_app.
      rewrite (at_level_all k ([_] ++ _)) by apply lv_events_level.
      apply Hstep; [done..|]. apply HP; [lia|done].
    + rewrite (at_level_none j [_]) by (repeat constructor; simpl; lia).
      rewrite (at_level_none j (lv_products _ _ _)).
      2:{ eapply Forall_impl; [apply ev_loop_level|]. simpl. intros; lia. }
      rewrite !app_nil_r. apply Hweak, HP; [lia|].
      unfold s1 in Hl. by rewrite get_put_ne, get_level_bump in Hl by lia.
Qed.

End Events.

(** ** Calls on a well-formed engine *)

Section Calls.
Context {D : Type} {DD : Double D}.
Implicit Types (s : state D) (l : level D) (k j : Z) (tr : list (event D)).
Variable cfg : config.

Lemma add_pure_levels_all
    (P P' : Z -> level D -> list (event D) -> Prop) (Q : D -> Prop) :
  p cfg < 2 ^ 32 ->
  (forall k l evs, P k l evs -> P' k l evs) ->
  (forall w k l evs,
     Q w -> level_shape cfg l -> P k l evs ->
     P' k (lv_step cfg w k l) (evs ++ lv_events cfg w k l)) ->
  (forall w k l evs,
     Q w -> level_shape cfg l -> P k l evs ->
     lv_full cfg (lv_insert w l) = true -> Q (lv_carry cfg (lv_insert w l))) ->
  forall fuel w k s tr,
    wf cfg s -> Q w ->
    (forall j l, get_level j s = Some l -> P j l (at_level j tr)) ->
    forall j l,
      get_level j (add_pure cfg fuel w k s).1 = Some l ->
      P' j l (at_level j (tr ++ (add_pure cfg fuel w k s).2)).
Proof.
  intros Hp Hweak Hstep Hcarry fuel w k s tr Hwf HQ HP j l Hl.
  destruct (Z.le_gt_cases k j) as [Hkj|Hkj].
  - eapply (add_pure_levels cfg P P' Q); eauto.
  - rewrite add_pure_below in Hl by lia.
    rewrite at_level_app, (at_level_none j (add_pure _ _ _ _ _).2), app_nil_r.
    + by apply Hweak, HP.
    + eapply Forall_impl; [apply add_pure_events_from|]. simpl. intros; lia.
Qed.

Lemma add_pure_accval fuel : forall w k s,
  k <> 0 -> 0 <= k -> accval (add_pure cfg fuel w k s).1 = accval s.
Proof.
  induction fuel as [|fuel IH]; intros w k s Hk0 Hk; simpl; [done|].
  case_match; [done|].
  destruct (get_level k s) as [l|]; [|done]. simpl.
  assert (accval (put_level k (lv_step cfg w k l) (bump w k s)) = accval s) as E.
  { unfold bump. simpl. destruct (Z.eqb_spec k 0); [done|]. by case_match. }
  case_match; simpl; [|done].
  rewrite IH by lia. done.
Qed.

Lemma add_pure_fuel f1 : forall f2 w k s,
  0 <= k <= numcorrelators cfg ->
  numcorrelators cfg - k < Z.of_nat f1 -> numcorrelators cfg - k < Z.of_nat f2 ->
  add_pure cfg f1 w k s = add_pure cfg f2 w k s.
Proof.
  induction f1 as [|f1 IH]; intros [|f2] w k s Hk H1 H2; try lia. simpl.
  destruct (Z.eqb_spec k (numcorrelators cfg)); [done|].
  destruct (get_level k s) as [l|]; [|done]. simpl.
  case_match; [|done].
  by rewrite (IH f2) by lia.
Qed.

(** The levels of the insertions a call makes. *)
Definition insert_levels tr : list Z :=
  omap (fun e => match e with EvInsert k _ _ => Some k | _ => None end) tr.

Lemma insert_levels_app tr1 tr2 :
  insert_levels (tr1 ++ tr2) = insert_levels tr1 ++ insert_levels tr2.
Proof. apply omap_app. Qed.

Lemma insert_levels_products n i k l : insert_levels (ev_loop cfg n i k l) = [].
Proof.
  revert i. induction n as [|n IH]; intros i; simpl; [done|].
  rewrite insert_levels_app, IH. by case_match.
Qed.

Lemma add_pure_insert_levels fuel : forall w k s,
  wf cfg s -> 0 <= k <= numcorrelators cfg -> p cfg < 2 ^ 32 ->
  exists r, 0 <= r <= numcorrelators cfg - k /\
            insert_levels (add_pure cfg fuel w k s).2 = seqZ k r.
Proof.
  induction fuel as [|fuel IH]; intros w k s Hwf Hk Hp; simpl.
  { exists 0. split; [lia|done]. }
  destruct (Z.eqb_spec k (numcorrelators cfg)).
  { exists 0. split; [lia|done]. }
  destruct (get_level k s) as [l|] eqn:El.
  2:{ exists 0. split; [lia|done]. }
  simpl.
  change (EvInsert k (l_ii l) w :: ?r ++ lv_products cfg k (lv_head cfg w l))
    with ([EvInsert k (l_ii l) w] ++ r ++ lv_products cfg k (lv_head cfg w l)).
  rewrite !insert_levels_app. unfold lv_products.
  rewrite insert_levels_products, app_nil_r.
  case_match.
  - destruct (IH (lv_carry cfg (lv_insert w l)) (k + 1)
                (put_level k (lv_step cfg w k l) (bump w k s)))
      as (r & Hr & Er); [|lia|done|].
    { apply wf_put_level; [apply wf_bump; [done|lia]|].
      apply lv_step_shape; [|by eapply wf_levels].
      pose proof (ls_ii _ _ (wf_levels _ _ Hwf _ _ El)). lia. }
    exists (r + 1). split; [lia|]. rewrite Er.
    rewrite (seqZ_cons k) by lia. simpl.
    do 2 f_equal; lia.
  - exists 1. split; [lia|]. done.
Qed.

Lemma call_add_runs w k s :
  cfg_ok cfg -> wf cfg s -> 0 <= k <= numcorrelators cfg ->
  runs (call_add cfg w k) s tt
       (add_pure cfg (S (Z.to_nat (numcorrelators cfg - k))) w k s).1
       (add_pure cfg (S (Z.to_nat (numcorrelators cfg - k))) w k s).2.
Proof. intros Hcfg Hwf Hk. apply add_runs; [done..|lia]. Qed.

(** A call that returns was at a level of the hierarchy, or at its depth. *)
Lemma call_add_inv w k s s' tr :
  cfg_ok cfg -> wf cfg s -> runs (call_add cfg w k) s tt s' tr ->
  0 <= k <= numcorrelators cfg /\
  s' = (add_pure cfg (S (Z.to_nat (numcorrelators cfg - k))) w k s).1 /\
  tr = (add_pure cfg (S (Z.to_nat (numcorrelators cfg - k))) w k s).2.
Proof.
  intros Hcfg Hwf Hrun.
  destruct (decide (0 <= k <= numcorrelators cfg)) as [Hk|Hk].
  - split; [done|].
    pose proof (call_add_runs w k s Hcfg Hwf Hk) as Hrun'.
    by destruct (runs_det _ _ _ _ _ _ _ _ Hrun Hrun') as (_ & -> & ->).
  - unfold runs, call_add in Hrun.
    rewrite add_out_of_range in Hrun by (done || lia). done.
Qed.

Lemma evaluated_wf norm s : cfg_ok cfg -> wf cfg s -> wf cfg (evaluated cfg norm s).
Proof.
  intros Hcfg Hwf.
  destruct (evaluate_runs cfg norm s Hcfg Hwf) as [_ Hlen].
  pose proof (wf_t _ _ Hwf) as Ht. pose proof (wf_f _ _ Hwf) as Hf.
  destruct Hwf. split; simpl; try done.
  - rewrite alen_out; [done|by rewrite length_fmap|done].
  - rewrite alen_out; [done|by rewrite length_fmap|].
    unfold alen in Ht, Hf. lia.
Qed.

(** An invariant of the state and the events recorded, kept by the calls
    at levels of the hierarchy and by [evaluate], holds of every run. *)
Lemma exec_ops_invariant (I : state D -> list (event D) -> Prop) :
  cfg_ok cfg ->
  (forall s tr w k,
     wf cfg s -> I s tr -> 0 <= k <= numcorrelators cfg ->
     I (add_pure cfg (S (Z.to_nat (numcorrelators cfg - k))) w k s).1
       (tr ++ (add_pure cfg (S (Z.to_nat (numcorrelators cfg - k))) w k s).2)) ->
  (forall s tr norm, wf cfg s -> I s tr -> I (evaluated cfg norm s) tr) ->
  forall os s tr0 s' tr,
    wf cfg s -> I s tr0 -> runs (exec_ops cfg os) s tt s' tr ->
    wf cfg s' /\ I s' (tr0 ++ tr).
Proof.
  intros Hcfg Hadd Heval.
  induction os as [|o os IH]; intros s tr0 s' tr Hwf HI Hrun.
  { unfold runs in Hrun. simpl in Hrun. unfold ret in Hrun. simplify_eq.
    by rewrite app_nil_r. }
  unfold runs in Hrun. simpl in Hrun. unfold bind in Hrun.
  destruct (exec_op cfg o s) as [[[[] s1] e1]| |] eqn:E1; [|done..].
  destruct (exec_ops cfg os s1) as [[[[] s2] e2]| |] eqn:E2; [|done..].
  simplify_eq. rewrite app_assoc.
  destruct o as [w k|norm]; simpl in E1.
  - destruct (call_add_inv w k s s1 e1 Hcfg Hwf E1) as (Hk & -> & ->).
    eapply IH; [..|apply E2].
    + apply add_pure_wf; [destruct Hcfg as (_ & ? & _); lia|done..].
    + by apply Hadd.
  - destruct (evaluate_runs cfg norm s Hcfg Hwf) as [Hev _].
    destruct (runs_det _ _ _ _ _ _ _ _ E1 Hev) as (_ & -> & ->).
    rewrite app_nil_r.
    eapply IH; [..|apply E2].
    + by apply evaluated_wf.
    + by apply Heval.
Qed.

Lemma reachable_invariant (I : state D -> list (event D) -> Prop) :
  cfg_ok cfg ->
  I (fresh cfg) [] ->
  (forall s tr w k,
     wf cfg s -> I s tr -> 0 <= k <= numcorrelators cfg ->
     I (add_pure cfg (S (Z.to_nat (numcorrelators cfg - k))) w k s).1
       (tr ++ (add_pure cfg (S (Z.to_nat (numcorrelators cfg - k))) w k s).2)) ->
  (forall s tr norm, wf cfg s -> I s tr -> I (evaluated cfg norm s) tr) ->
  forall s tr, reachable cfg s tr -> wf cfg s /\ I s tr.
Proof.
  intros Hcfg Hinit Hadd Heval s tr (s0 & os & Hs0 & Hrun).
  pose proof Hcfg as (Hnc & Hp & _).
  pose proof (initialize_runs cfg s0 Hs0 ltac:(lia) ltac:(lia)) as Hini.
  unfold runs, bind in Hrun. rewrite Hini in Hrun.
  destruct (exec_ops cfg os (fresh cfg)) as [[[[] s2] e2]| |] eqn:E2; [|done..].
  simplify_eq. simpl.
  apply (exec_ops_invariant I Hcfg Hadd Heval os (fresh cfg) [] s tr);
    [by apply fresh_wf|done..].
Qed.

End Calls.

(** ** What a step leaves of a level *)

Section StepFrame.
Context {D : Type} {DD : Double D}.
Implicit Types (s : state D) (l : level D) (k j : Z) (tr : list (event D)).
Variable cfg : config.

Lemma lv_head_frame w l :
  l_shift (lv_head cfg w l) = aset (l_shift l) (l_ii l) w /\
  l_corr (lv_head cfg w l) = l_corr l /\
  l_ncorr (lv_head cfg w l) = l_ncorr l /\
  l_ii (lv_head cfg w l) = l_ii l.
Proof. unfold lv_head. by case_match. Qed.

Lemma lv_step_frame w k l :
  l_shift (lv_step cfg w k l) = aset (l_shift l) (l_ii l) w /\
  l_acc (lv_step cfg w k l) = l_acc (lv_head cfg w l) /\
  l_nacc (lv_step cfg w k l) = l_nacc (lv_head cfg w l) /\
  l_ii (lv_step cfg w k l) = l_ii (lv_advance cfg l).
Proof.
  unfold lv_step, lv_correlate. simpl.
  destruct (lv_loop_frame cfg (Z.to_nat (p cfg - lv_lo cfg k)) (lv_lo cfg k)
              (lv_head cfg w l)) as (-> & -> & -> & ->).
  destruct (lv_head_frame w l) as (-> & _ & _ & ->). done.
Qed.

Lemma lv_head_nacc w l :
  0 <= l_nacc l < m cfg -> m cfg < 2 ^ 32 ->
  0 <= l_nacc (lv_head cfg w l) < m cfg.
Proof.
  intros Hn Hm. unfold lv_head, lv_full. simpl.
  rewrite u32_id by lia.
  destruct (Z.eqb_spec (l_nacc l + 1) (m cfg)); simpl; [lia|].
  rewrite u32_id by lia. lia.
Qed.

End StepFrame.

(** * Properties of [add] and [evaluate] *)

Section Claims.
Context {D : Type} {DD : Double D}.
Implicit Types (s : state D) (l : level D) (k j : Z) (tr : list (event D)).
Variable cfg : config.

(** C3, the part the code does: a sample presented at level
    [numcorrelators] is dropped; the call returns and nothing is
    assigned, in every state. *)
Lemma add_at_depth_is_noop fuel w s :
  add cfg (S fuel) w (numcorrelators cfg) s = Done (tt, s, []).
Proof. apply add_at_depth_noop. Qed.

(** C3, the part the code misses: for a level [k > numcorrelators] the
    guard [k == numcorrelators] does not fire and [add] goes on to
    [insertindex[k]], outside the array: the call does not return
    normally.  (Stated for a well-formed engine and any fuel.) *)
Theorem add_beyond_depth_faults fuel w k s :
  wf cfg s -> numcorrelators cfg < k ->
  add cfg (S fuel) w k s = Fault.
Proof. intros Hwf Hk. apply add_out_of_range; [done|lia]. Qed.

(** C10: a call [add(w, k)] at a level [1 <= k < numcorrelators] returns,
    and in the state it returns [accval] and the whole state of every
    level [j < k] are as before. *)
Theorem add_frame_below fuel w k s :
  cfg_ok cfg -> wf cfg s -> 1 <= k < numcorrelators cfg ->
  numcorrelators cfg - k < Z.of_nat fuel ->
  exists s' tr,
    add cfg fuel w k s = Done (tt, s', tr) /\
    accval s' = accval s /\
    forall j, j < k ->
      get_level j s' = get_level j s /\
      aget (shift s') j = aget (shift s) j /\
      aget (correlation s') j = aget (correlation s) j /\
      aget (ncorrelation s') j = aget (ncorrelation s) j /\
      aget (accumulator s') j = aget (accumulator s) j /\
      aget (naccumulator s') j = aget (naccumulator s) j /\
      aget (insertindex s') j = aget (insertindex s) j.
Proof.
  intros Hcfg Hwf Hk Hfuel.
  pose proof Hcfg as (Hnc & Hp & _).
  pose proof (add_runs cfg fuel w k s Hcfg Hwf ltac:(lia) Hfuel) as Hrun.
  eexists _, _. split; [apply Hrun|].
  split; [apply add_pure_accval; lia|].
  intros j Hj.
  pose proof (add_pure_below cfg fuel w k s j Hj) as Hlev.
  split; [done|].
  pose proof (add_pure_wf cfg fuel w k s ltac:(lia) Hwf ltac:(lia)) as Hwf'.
  set (s' := (add_pure cfg fuel w k s).1) in *.
  destruct (decide (0 <= j < numcorrelators cfg)) as [Hin|Hout].
  - destruct (wf_get_level cfg s j Hwf Hin) as (l & Hl & _).
    rewrite Hl in Hlev.
    apply get_level_Some in Hl, Hlev.
    destruct Hl as (-> & -> & -> & -> & -> & ->). tauto.
  - destruct Hwf, Hwf'. rewrite !aget_None by lia. done.
Qed.

(** C8: in every state reached from [initialize] by calls of [add] and
    [evaluate] that return, [0 <= insertindex[k] < p] and
    [0 <= naccumulator[k] < m] for every level [k]. *)
Theorem invariants_preserved s tr :
  cfg_ok cfg -> reachable cfg s tr -> ranges_ok cfg s.
Proof.
  intros Hcfg Hreach.
  pose proof Hcfg as (Hnc & Hp & Hm & _).
  destruct (reachable_invariant cfg
              (fun s _ => forall j l, get_level j s = Some l ->
                                      0 <= l_nacc l < m cfg)
              Hcfg) with (s := s) (tr := tr) as [Hwf Hnacc]; [..|done|].
  - intros j l Hl. apply get_level_fresh_inv in Hl. subst l. simpl. lia.
  - intros s1 tr1 w k Hwf1 HI Hk j l Hl.
    eapply (add_pure_levels_all cfg
              (fun _ l _ => 0 <= l_nacc l < m cfg)
              (fun _ l _ => 0 <= l_nacc l < m cfg)
              (fun _ => True)) with (tr := []); [lia|done| |done|done|done| |done].
    + intros w' k' l' _ _ _ Hn.
      destruct (lv_step_frame cfg w' k' l') as (_ & _ & -> & _).
      apply lv_head_nacc; [done|lia].
    + intros j' l' Hl'. by eapply HI.
  - intros s1 tr1 norm Hwf1 HI j l Hl. by eapply HI.
  - intros k Hk. destruct (wf_get_level cfg s k Hwf Hk) as (l & Hl & Hshape).
    pose proof (Hnacc k l Hl) as Hn. pose proof (ls_ii _ _ Hshape) as Hi.
    apply get_level_Some in Hl. destruct Hl as (_ & _ & _ & _ & H5 & H6).
    eauto 10.
Qed.

Lemma eval_points_evaluated norm norm' s :
  eval_points cfg norm (evaluated cfg norm' s) = eval_points cfg norm s.
Proof. reflexivity. Qed.

(** The cells of [t] and [f] that [evaluate] leaves below [npcorr]. *)
Lemma evaluated_out norm s :
  npcorr (evaluated cfg norm s) = Z.of_nat (length (eval_points cfg norm s)) /\
  take (length (eval_points cfg norm s)) (t (evaluated cfg norm s)) =
    (eval_points cfg norm s).*1 /\
  take (length (eval_points cfg norm s)) (f (evaluated cfg norm s)) =
    (eval_points cfg norm s).*2.
Proof.
  unfold evaluated; simpl. set (pts := eval_points cfg norm s).
  split; [done|]. split.
  - by rewrite take_app_length' by (by rewrite length_fmap).
  - by rewrite take_app_length' by (by rewrite length_fmap).
Qed.

Lemma evaluated_idem norm s :
  (length (eval_points cfg norm s) <= length (t s))%nat ->
  (length (eval_points cfg norm s) <= length (f s))%nat ->
  evaluated cfg norm (evaluated cfg norm s) = evaluated cfg norm s.
Proof.
  intros Ht Hf. unfold evaluated at 1. rewrite eval_points_evaluated.
  unfold evaluated, with_out, set_npcorr, set_f, set_t. simpl.
  set (pts := eval_points cfg norm s) in *.
  rewrite !drop_app_length' by (by rewrite length_fmap). reflexivity.
Qed.

(** C7: [evaluate] returns, and assigns [t], [f] and [npcorr] only;
    called again, with the same argument and no [add] in between, it
    returns the very same state: the same [t], [f] and [npcorr]. *)
Theorem evaluate_pure_and_idempotent norm s :
  cfg_ok cfg -> wf cfg s ->
  exists s',
    evaluate cfg norm s = Done (tt, s', []) /\
    (shift s' = shift s /\ correlation s' = correlation s /\
     ncorrelation s' = ncorrelation s /\ accumulator s' = accumulator s /\
     naccumulator s' = naccumulator s /\ insertindex s' = insertindex s /\
     kmax s' = kmax s /\ accval s' = accval s) /\
    evaluate cfg norm s' = Done (tt, s', []).
Proof.
  intros Hcfg Hwf.
  destruct (evaluate_runs cfg norm s Hcfg Hwf) as [Hrun Hlen].
  exists (evaluated cfg norm s). split; [apply Hrun|]. split; [done|].
  destruct (evaluate_runs cfg norm (evaluated cfg norm s) Hcfg
              (evaluated_wf cfg norm s Hcfg Hwf)) as [Hrun2 _].
  rewrite evaluated_idem in Hrun2; [apply Hrun2|done|].
  pose proof (wf_t _ _ Hwf) as Ht. pose proof (wf_f _ _ Hwf) as Hf.
  unfold alen in Ht, Hf. lia.
Qed.

(** C1: [evaluate(norm)] returns, and what it wrote is [eval_points]:
    for level 0 one pair per lag index [i] in [[0, p)] with
    [ncorrelation[0][i] > 0], of lag [i] and value
    [correlation[0][i] / ncorrelation[0][i] - aux]; then for each level
    [k] in [[1, kmax)] one pair per [i] in [[d_min, p)] with
    [ncorrelation[k][i] > 0], of lag [i * m^k] and value
    [correlation[k][i] / ncorrelation[k][i] - aux].  [npcorr] is the
    number of pairs, the lags are the first [npcorr] cells of [t] and the
    values the first [npcorr] cells of [f]. *)
Theorem evaluate_output norm s :
  cfg_ok cfg -> wf cfg s ->
  exists s',
    evaluate cfg norm s = Done (tt, s', []) /\
    npcorr s' = Z.of_nat (length (eval_points cfg norm s)) /\
    take (length (eval_points cfg norm s)) (t s') = (eval_points cfg norm s).*1 /\
    take (length (eval_points cfg norm s)) (f s') = (eval_points cfg norm s).*2.
Proof.
  intros Hcfg Hwf.
  destruct (evaluate_runs cfg norm s Hcfg Hwf) as [Hrun Hlen].
  exists (evaluated cfg norm s). split; [apply Hrun|]. apply evaluated_out.
Qed.

End Claims.

(** ** Lag coverage *)

Section Coverage.
Context {D : Type} {DD : Double D}.
Implicit Types (s : state D) (k i : Z).
Variable cfg : config.

(** Every bin of level [k] from [lo] on has a positive count. *)
Definition populated s (k lo : Z) : bool :=
  forallb (fun i => match aget2 (ncorrelation s) k i with
                    | Some n => 0 <? n
                    | None => false
                    end)
          (seqZ lo (p cfg - lo)).

(** Enough samples have been fed: every bin [evaluate] visits has a
    positive count. *)
Definition all_populated s : bool :=
  populated s 0 0 &&
  forallb (fun k => populated s k (d_min cfg)) (seqZ 1 (kmax s - 1)).

Lemma wf_aget2_correlation s k i :
  wf cfg s -> 0 <= k < numcorrelators cfg -> 0 <= i < p cfg ->
  is_Some (aget2 (correlation s) k i).
Proof.
  intros Hwf Hk Hi.
  destruct (wf_rows cfg s k Hwf Hk) as (nrow & crow & _ & Hc & _ & Lc).
  unfold aget2. rewrite Hc. apply aget_lt_Some. lia.
Qed.

Lemma level_points_lags aux s k lo :
  wf cfg s -> 0 <= k < numcorrelators cfg -> 0 <= lo ->
  populated s k lo = true ->
  (level_points cfg aux s k lo).*1 = lag cfg k <$> seqZ lo (p cfg - lo).
Proof.
  intros Hwf Hk Hlo Hpop. unfold level_points, populated in *.
  rewrite forallb_forall in Hpop.
  assert (forall i, i ∈ seqZ lo (p cfg - lo) -> 0 <= i < p cfg) as Hrange.
  { intros i Hi. apply elem_of_seqZ in Hi. lia. }
  induction (seqZ lo (p cfg - lo)) as [|i l IH]; [done|].
  rewrite omap_cons_eq, fmap_cons.
  pose proof (Hpop i ltac:(by left)) as Hi.
  destruct (wf_aget2_correlation s k i Hwf Hk) as [c Hc].
  { apply Hrange. by left. }
  unfold point, point_with at 1.
  destruct (aget2 (ncorrelation s) k i) as [n|]; [|done].
  rewrite Hc, Hi. rewrite fmap_cons. simpl. f_equal.
  apply IH.
  - intros x Hx. apply Hpop. by right.
  - intros x Hx. apply Hrange. by right.
Qed.

(** With every visited bin populated, the lags [evaluate] emits are
    those of level 0 over [[0, p)], then those of the levels
    [1 <= k < kmax] over [[d_min, p)]. *)
Lemma eval_points_lags norm s :
  wf cfg s -> 0 < numcorrelators cfg -> 0 <= d_min cfg ->
  all_populated s = true ->
  (eval_points cfg norm s).*1 =
  (lag cfg 0 <$> seqZ 0 (p cfg)) ++
  mjoin ((fun k => lag cfg k <$> seqZ (d_min cfg) (p cfg - d_min cfg))
           <$> seqZ 1 (kmax s - 1)).
Proof.
  intros Hwf Hnc Hd Hpop. unfold all_populated in Hpop.
  apply andb_true_iff in Hpop. destruct Hpop as [H0 Hk].
  rewrite forallb_forall in Hk.
  unfold eval_points. rewrite fmap_app.
  rewrite level_points_lags by (done || lia).
  rewrite Z.sub_0_r. f_equal.
  pose proof (wf_kmax _ _ Hwf) as Hkmax.
  assert (forall k, k ∈ seqZ 1 (kmax s - 1) -> 0 <= k < numcorrelators cfg)
    as Hrange.
  { intros k Hin. apply elem_of_seqZ in Hin. lia. }
  induction (seqZ 1 (kmax s - 1)) as [|k l IH]; [done|].
  rewrite !fmap_cons, !mjoin_cons_eq, fmap_app. f_equal.
  - apply level_points_lags; [done| |done|].
    + apply Hrange. by left.
    + apply Hk. by left.
  - apply IH.
    + intros x Hx. apply Hk. by right.
    + intros x Hx. apply Hrange. by right.
Qed.

End Coverage.

Section CoverageClaim.
Context {D : Type} {DD : Double D}.
Implicit Types (s : state D) (k i : Z).
Variable cfg : config.

Lemma fmap_ext_in {A B} (g h : A -> B) (l : list A) :
  (forall x, x ∈ l -> g x = h x) -> g <$> l = h <$> l.
Proof.
  induction l as [|x l IH]; intros Hgh; [done|].
  rewrite !fmap_cons. f_equal.
  - apply Hgh. by left.
  - apply IH. intros y Hy. apply Hgh. by right.
Qed.

(** C2, as the code has it: with [p = 16] and [m = 2], once every bin
    [evaluate] visits has a positive count, the lags written to [t] are
    [0..15] for level 0, followed, for each level [k] with
    [1 <= k < kmax], by [8..15] scaled by [2^k].  A level is emitted once a
    deeper level has been reached: level 1 ([16, 18, ..., 30]) when
    [kmax >= 2], level 2 ([32, 36, ..., 60]) when [kmax >= 3]; the deepest
    level reached emits nothing. *)
Theorem lag_coverage norm s :
  cfg_ok cfg -> p cfg = 16 -> m cfg = 2 ->
  wf cfg s -> all_populated cfg s = true ->
  exists s',
    evaluate cfg norm s = Done (tt, s', []) /\
    take (Z.to_nat (npcorr s')) (t s') =
    (d_of_Z <$> seqZ 0 16) ++
    mjoin ((fun k => (fun i => d_mul (d_of_Z i) (d_pow (d_of_Z 2) k))
                       <$> seqZ 8 8)
             <$> seqZ 1 (kmax s - 1)).
Proof.
  intros Hcfg Hp Hm Hwf Hpop.
  pose proof Hcfg as (Hnc & _ & _ & Hd & _).
  assert (d_min cfg = 8) as Hd8 by (by rewrite Hd, Hp, Hm).
  destruct (evaluate_runs cfg norm s Hcfg Hwf) as [Hrun _].
  destruct (evaluated_out cfg norm s) as (Hn & Ht & _).
  exists (evaluated cfg norm s). split; [apply Hrun|].
  rewrite Hn, Nat2Z.id, Ht.
  rewrite eval_points_lags by (done || lia).
  rewrite Hd8, Hp. apply (f_equal2 app); [done|]. apply (f_equal mjoin).
  apply fmap_ext_in. intros k Hk. apply elem_of_seqZ in Hk.
  apply fmap_ext_in. intros i _. unfold lag.
  destruct (Z.eqb_spec k 0); [lia|]. by rewrite Hm.
Qed.

End CoverageClaim.

(** ** The cascade

    What each level receives, read off the events: level [k + 1]
    receives the averages of the consecutive groups of [m] values that
    level [k] receives. *)

Section Cascade.
Context {D : Type} {DD : Double D}.
Implicit Types (s : state D) (l : level D) (k j : Z) (tr : list (event D)).
Variable cfg : config.

(** The values inserted at level [k], in order. *)
Definition insertions (k : Z) tr : list D :=
  omap (fun e => match e with
                 | EvInsert k' _ w => if k' =? k then Some w else None
                 | EvProduct _ _ _ _ => None
                 end) tr.

Arguments insertions : simpl never.

(** Decimation as a function of the accumulator [(a, n)] and the values
    received. *)
Definition dec_step (st : D * Z) (w : D) : D * Z :=
  if u32 (st.2 + 1) =? m cfg then (d_of_Z 0, 0)
  else (d_add st.1 w, u32 (st.2 + 1)).

Definition dec_out (st : D * Z) (w : D) : list D :=
  if u32 (st.2 + 1) =? m cfg then [d_div (d_add st.1 w) (d_of_Z (m cfg))]
  else [].

Fixpoint decimate (st : D * Z) (ws : list D) : list D :=
  match ws with
  | [] => []
  | w :: ws' => dec_out st w ++ decimate (dec_step st w) ws'
  end.

Definition residue (st : D * Z) (ws : list D) : D * Z := foldl dec_step st ws.

Definition dec0 : D * Z := (d_of_Z 0, 0).

Lemma decimate_app st ws1 ws2 :
  decimate st (ws1 ++ ws2) = decimate st ws1 ++ decimate (residue st ws1) ws2.
Proof.
  revert st. induction ws1 as [|w ws1 IH]; intros st; simpl; [done|].
  by rewrite IH, app_assoc.
Qed.

Lemma residue_app st ws1 ws2 :
  residue st (ws1 ++ ws2) = residue (residue st ws1) ws2.
Proof. apply foldl_app. Qed.

Lemma insertions_app k tr1 tr2 :
  insertions k (tr1 ++ tr2) = insertions k tr1 ++ insertions k tr2.
Proof. apply omap_app. Qed.

Lemma insertions_products n i k' k l : insertions k (ev_loop cfg n i k' l) = [].
Proof.
  revert i. induction n as [|n IH]; intros i; simpl; [done|].
  rewrite insertions_app, IH. by case_match.
Qed.

Lemma insertions_at_level k tr : insertions k (at_level k tr) = insertions k tr.
Proof.
  induction tr as [|e tr IH]; [done|].
  unfold at_level in *. destruct (decide (ev_level e = k)) as [He|He].
  - rewrite filter_cons_True by done.
    unfold insertions in *. rewrite !omap_cons_eq, IH. done.
  - rewrite filter_cons_False by done. rewrite IH.
    unfold insertions. rewrite omap_cons_eq.
    destruct e as [k' ? ?|]; simpl in *; [|done].
    by destruct (Z.eqb_spec k' k).
Qed.

Lemma insertions_other k tr :
  Forall (fun e => ev_level e <> k) tr -> insertions k tr = [].
Proof.
  induction 1 as [|e tr He _ IH]; [done|].
  unfold insertions in *. rewrite omap_cons_eq, IH.
  destruct e as [k' ? ?|]; simpl in *; [|done].
  by destruct (Z.eqb_spec k' k).
Qed.

Lemma insertions_lv_events w k l : insertions k (lv_events cfg w k l) = [w].
Proof.
  unfold lv_events, insertions. rewrite omap_cons_eq, Z.eqb_refl.
  f_equal. apply insertions_products.
Qed.

(** The accumulator of a level after [lv_head] is [dec_step] of it. *)
Lemma lv_head_dec w l :
  (l_acc (lv_head cfg w l), l_nacc (lv_head cfg w l)) =
  dec_step (l_acc l, l_nacc l) w.
Proof. unfold lv_head, lv_full, dec_step. simpl. by case_match. Qed.

Lemma lv_carry_dec w l :
  (if lv_full cfg (lv_insert w l) then [lv_carry cfg (lv_insert w l)] else []) =
  dec_out (l_acc l, l_nacc l) w.
Proof. unfold lv_full, lv_carry, dec_out. simpl. by case_match. Qed.

(** The insertions of one call: the value itself at the level of the
    call, nothing below, and at each level above what the level under
    it carries. *)
Lemma add_pure_insertions fuel : forall w k s,
  wf cfg s -> 0 <= k < numcorrelators cfg ->
  numcorrelators cfg - k < Z.of_nat fuel -> p cfg < 2 ^ 32 ->
  insertions k (add_pure cfg fuel w k s).2 = [w] /\
  forall j l, k <= j -> j + 1 < numcorrelators cfg ->
    get_level j s = Some l ->
    insertions (j + 1) (add_pure cfg fuel w k s).2 =
    decimate (l_acc l, l_nacc l) (insertions j (add_pure cfg fuel w k s).2).
Proof.
  induction fuel as [|fuel IH]; intros w k s Hwf Hk Hfuel Hp; [lia|].
  simpl. destruct (Z.eqb_spec k (numcorrelators cfg)); [lia|].
  destruct (wf_get_level cfg s k Hwf Hk) as (l0 & El0 & Hshape).
  rewrite El0. simpl.
  set (s1 := put_level k (lv_step cfg w k l0) (bump w k s)).
  assert (wf cfg s1) as Hwf1.
  { apply wf_put_level; [apply wf_bump; [done|lia]|].
    apply lv_step_shape; [|done]. destruct Hshape. lia. }
  change (EvInsert k (l_ii l0) w :: ?r ++ lv_products cfg k (lv_head cfg w l0))
    with ([EvInsert k (l_ii l0) w] ++ r ++ lv_products cfg k (lv_head cfg w l0)).
  assert (forall j, insertions j (lv_products cfg k (lv_head cfg w l0)) = [])
    as Hprod by (intros; apply insertions_products).
  assert (forall j, j <> k -> insertions j [EvInsert k (l_ii l0) w] = [])
    as Hins.
  { intros j Hj. unfold insertions. rewrite omap_cons_eq.
    by destruct (Z.eqb_spec k j). }
  assert (insertions k [EvInsert k (l_ii l0) w] = [w]) as Hins'.
  { unfold insertions. by rewrite omap_cons_eq, Z.eqb_refl. }
  pose proof (lv_carry_dec w l0) as Hdec.
  destruct (lv_full cfg (lv_insert w l0)) eqn:Efull.
  - (* cascade *)
    set (r := add_pure cfg fuel (lv_carry cfg (lv_insert w l0)) (k + 1) s1) in *.
    assert (insertions k r.2 = []) as Hrk.
    { apply insertions_other. eapply Forall_impl;
        [apply add_pure_events_from|]. simpl. intros; lia. }
    split.
    { rewrite !insertions_app, Hins', Hprod, Hrk. done. }
    intros j l Hj Hj1 Hl.
    rewrite !insertions_app, !Hprod, !app_nil_r.
    destruct (IH (lv_carry cfg (lv_insert w l0)) (k + 1) s1 Hwf1
                ltac:(lia) ltac:(lia) Hp) as [Hfirst Hrest].
    fold r in Hfirst, Hrest.
    destruct (decide (j = k)) as [->|Hne].
    + rewrite Hins by lia. rewrite Hins', Hrk, app_nil_l, app_nil_r, Hfirst.
      rewrite El0 in Hl. simplify_eq. simpl. by rewrite <- Hdec, app_nil_r.
    + rewrite !Hins by lia. simpl.
      apply Hrest; [lia..|]. unfold s1.
      by rewrite get_put_ne, get_level_bump by lia.
  - (* no cascade *)
    assert (forall j, insertions j (@nil (event D)) = []) as Hnil by done.
    cbn -[insertions decimate app]. split.
    { rewrite !insertions_app, Hins', Hprod, Hnil. done. }
    intros j l Hj Hj1 Hl.
    rewrite !insertions_app, !Hprod, !Hnil, !app_nil_r.
    destruct (decide (j = k)) as [->|Hne].
    + rewrite Hins by lia. rewrite Hins'.
      rewrite El0 in Hl. simplify_eq. simpl. by rewrite <- Hdec.
    + rewrite !Hins by lia. done.
Qed.

(** The invariant of the cascade, for an engine fed at level 0. *)
Definition level_cascade (k : Z) (l : level D) (evs : list (event D)) : Prop :=
  (l_acc l, l_nacc l) = residue dec0 (insertions k evs) /\
  l_ii l = Z.of_nat (length (insertions k evs)) mod p cfg.

Definition cascade_ok s tr : Prop :=
  (forall k l, get_level k s = Some l -> level_cascade k l tr) /\
  (forall k, 0 <= k -> k + 1 < numcorrelators cfg ->
     insertions (k + 1) tr = decimate dec0 (insertions k tr)).

Lemma lv_advance_mod l n :
  1 <= p cfg < 2 ^ 32 -> l_ii l = Z.of_nat n mod p cfg ->
  l_ii (lv_advance cfg l) = Z.of_nat (n + 1) mod p cfg.
Proof.
  intros Hp Hi. unfold lv_advance; simpl.
  pose proof (Z.mod_pos_bound (Z.of_nat n) (p cfg) ltac:(lia)) as Hb.
  rewrite u32_id by lia.
  replace (Z.of_nat (n + 1)) with (Z.of_nat n + 1) by lia.
  rewrite <- Zplus_mod_idemp_l, <- Hi.
  destruct (Z.eqb_spec (l_ii l + 1) (p cfg)) as [E|E].
  - rewrite E. symmetry. apply Z_mod_same_full.
  - symmetry. apply Z.mod_small. lia.
Qed.

Lemma level_cascade_step w k l evs :
  1 <= p cfg < 2 ^ 32 ->
  level_cascade k l (at_level k evs) ->
  level_cascade k (lv_step cfg w k l) (at_level k evs ++ lv_events cfg w k l).
Proof.
  intros Hp [Hres Hii]. unfold level_cascade.
  rewrite insertions_app, insertions_lv_events.
  destruct (lv_step_frame cfg w k l) as (_ & -> & -> & ->).
  split.
  - rewrite lv_head_dec, Hres. unfold residue. by rewrite foldl_app.
  - rewrite length_app. simpl. by apply lv_advance_mod.
Qed.

Lemma cascade_ok_add w s tr :
  cfg_ok cfg -> wf cfg s -> cascade_ok s tr ->
  cascade_ok (add_pure cfg (S (Z.to_nat (numcorrelators cfg - 0))) w 0 s).1
    (tr ++ (add_pure cfg (S (Z.to_nat (numcorrelators cfg - 0))) w 0 s).2).
Proof.
  intros Hcfg Hwf [Hlev Hcross].
  pose proof Hcfg as (Hnc & Hp & Hm & _).
  set (F := S (Z.to_nat (numcorrelators cfg - 0))).
  split.
  - intros k l Hl.
    pose proof (add_pure_levels_all cfg
                  (fun k l evs => level_cascade k l evs)
                  (fun k l evs => level_cascade k l evs)
                  (fun _ => True) ltac:(lia)) as Hall.
    unfold level_cascade in *.
    rewrite <- insertions_at_level.
    eapply (Hall ltac:(done)); [..|apply Hl]; clear Hall.
    + intros w' k' l' evs _ _ [Hres Hii].
      rewrite insertions_app, insertions_lv_events.
      destruct (lv_step_frame cfg w' k' l') as (_ & -> & -> & ->).
      split.
      * rewrite lv_head_dec, Hres. unfold residue. by rewrite foldl_app.
      * rewrite length_app. simpl. apply lv_advance_mod; [lia|done].
    + done.
    + done.
    + done.
    + intros j l' Hl'. rewrite insertions_at_level. by apply Hlev.
  - intros k Hk Hk1.
    destruct (add_pure_insertions F w 0 s Hwf ltac:(lia) ltac:(unfold F; lia)
                ltac:(lia)) as [_ Hnew].
    destruct (wf_get_level cfg s k Hwf ltac:(lia)) as (l & Hl & _).
    rewrite !insertions_app, decimate_app, Hcross by lia.
    f_equal. rewrite (Hnew k l) by (done || lia).
    destruct (Hlev k l Hl) as [Hres _]. by rewrite Hres.
Qed.

Lemma cascade_ok_fresh : cascade_ok (fresh cfg) [].
Proof.
  split; [|done]. intros k l Hl. apply get_level_fresh_inv in Hl. by subst l.
Qed.

(** Feeding [ws] at level 0 returns; level 0 has received [ws] and the
    cascade invariant holds. *)
Lemma feed_runs ws : forall s tr0,
  cfg_ok cfg -> wf cfg s -> cascade_ok s tr0 ->
  exists s' tr,
    runs (feed cfg ws) s tt s' tr /\ wf cfg s' /\
    cascade_ok s' (tr0 ++ tr) /\ insertions 0 tr = ws.
Proof.
  induction ws as [|w ws IH]; intros s tr0 Hcfg Hwf Hok.
  { exists s, []. rewrite app_nil_r.
    split; [apply runs_ret|]. split; [done|]. split; done. }
  pose proof Hcfg as (Hnc & Hp & Hm & _).
  pose proof (call_add_runs cfg w 0 s Hcfg Hwf ltac:(lia)) as Hrun.
  set (r := add_pure cfg (S (Z.to_nat (numcorrelators cfg - 0))) w 0 s) in *.
  destruct (IH r.1 (tr0 ++ r.2) Hcfg) as (s' & tr & Hrun' & Hwf' & Hok' & Hins).
  { apply add_pure_wf; [lia|done|lia]. }
  { by apply cascade_ok_add. }
  exists s', (r.2 ++ tr). split; [|split; [done|split]].
  - unfold feed. simpl. eapply runs_bind; [apply Hrun|apply Hrun'].
  - by rewrite app_assoc.
  - rewrite insertions_app, Hins. unfold r.
    destruct (add_pure_insertions (S (Z.to_nat (numcorrelators cfg - 0))) w 0 s
                Hwf ltac:(lia) ltac:(lia) ltac:(lia)) as [-> _]. done.
Qed.

End Cascade.

Section CascadeClaim.
Context {D : Type} {DD : Double D}.
Implicit Types (s : state D) (l : level D) (k j : Z) (tr : list (event D)).
Variable cfg : config.

Lemma decimate_exact ws : forall a n,
  1 <= m cfg < 2 ^ 32 -> 0 <= n -> n + Z.of_nat (length ws) = m cfg ->
  ws <> [] ->
  decimate cfg (a, n) ws = [d_div (foldl d_add a ws) (d_of_Z (m cfg))] /\
  residue cfg (a, n) ws = dec0.
Proof.
  induction ws as [|w ws IH]; intros a n Hm Hn Hlen Hne; [done|].
  simpl in Hlen. unfold residue. simpl. unfold dec_out, dec_step. simpl.
  rewrite u32_id by lia.
  destruct ws as [|w' ws].
  - simpl in *. destruct (Z.eqb_spec (n + 1) (m cfg)); [|lia]. done.
  - destruct (Z.eqb_spec (n + 1) (m cfg)); [simpl in Hlen; lia|].
    apply (IH (d_add a w) (n + 1)); [done|lia| |done].
    simpl in *. lia.
Qed.

Lemma decimate_length ws : forall a n,
  1 <= m cfg < 2 ^ 32 -> 0 <= n < m cfg ->
  Z.of_nat (length (decimate cfg (a, n) ws)) = (n + Z.of_nat (length ws)) / m cfg.
Proof.
  induction ws as [|w ws IH]; intros a n Hm Hn.
  { simpl. rewrite Z.add_0_r, Z.div_small by lia. done. }
  cbn [decimate length]. unfold dec_out, dec_step. cbn [fst snd].
  rewrite u32_id by lia. rewrite length_app, Nat2Z.inj_add.
  destruct (Z.eqb_spec (n + 1) (m cfg)) as [E|E].
  - rewrite IH by lia. cbn [length].
    replace (n + Z.of_nat (S (length ws)))
      with (Z.of_nat (length ws) + 1 * m cfg) by lia.
    rewrite Z.add_0_l, Z.div_add by lia. lia.
  - rewrite IH by lia. cbn [length].
    replace (n + Z.of_nat (S (length ws)))
      with (n + 1 + Z.of_nat (length ws)) by lia.
    lia.
Qed.

(** C4, as the code has it.  On a freshly initialised engine with at
    least two levels: after exactly [m] samples fed at level 0, level 1
    has received exactly one insertion, of the sum of the samples (as
    [accumulator[0]] adds them up from 0) divided by [m]; [naccumulator[0]]
    is 0 and [insertindex[1]] has advanced by one, with its wrap at [p].
    With at least three levels, after [m * m] samples level 2 has
    received exactly one insertion. *)
Theorem cascade_timing s0 :
  cfg_ok cfg -> 2 <= numcorrelators cfg -> shaped cfg s0 ->
  (forall ws, Z.of_nat (length ws) = m cfg ->
     exists s tr,
       bind (initialize cfg) (fun _ => feed cfg ws) s0 = Done (tt, s, tr) /\
       insertions 1 tr = [d_div (foldl d_add (d_of_Z 0) ws) (d_of_Z (m cfg))] /\
       aget (naccumulator s) 0 = Some 0 /\
       aget (insertindex s) 1 = Some (1 mod p cfg)) /\
  (3 <= numcorrelators cfg ->
   forall ws, Z.of_nat (length ws) = m cfg * m cfg ->
     exists s tr,
       bind (initialize cfg) (fun _ => feed cfg ws) s0 = Done (tt, s, tr) /\
       length (insertions 2 tr) = 1%nat).
Proof.
  intros Hcfg Hnc Hs0.
  pose proof Hcfg as (Hnc' & Hp & Hm & _).
  pose proof (initialize_runs cfg s0 Hs0 ltac:(lia) ltac:(lia)) as Hini.
  assert (forall ws, exists s tr,
            bind (initialize cfg) (fun _ => feed cfg ws) s0 = Done (tt, s, tr) /\
            wf cfg s /\ cascade_ok cfg s tr /\ insertions 0 tr = ws) as Hfeed.
  { intros ws.
    destruct (feed_runs cfg ws (fresh cfg) [] Hcfg (fresh_wf cfg Hcfg)
                (cascade_ok_fresh cfg)) as (s & tr & Hrun & Hwf & Hok & Hins).
    exists s, tr. split; [|done].
    apply (runs_bind _ _ _ _ _ _ _ _ _ Hini Hrun). }
  split.
  - intros ws Hlen.
    destruct (Hfeed ws) as (s & tr & Hrun & Hwf & [Hlev Hcross] & Hins).
    exists s, tr. split; [done|].
    assert (ws <> []) as Hne by (intros ->; simpl in Hlen; lia).
    destruct (decimate_exact ws (d_of_Z 0) 0 Hm ltac:(lia) ltac:(lia) Hne)
      as [Hdec Hres].
    assert (insertions 1 tr = [d_div (foldl d_add (d_of_Z 0) ws)
                                 (d_of_Z (m cfg))]) as H1.
    { pose proof (Hcross 0 ltac:(lia) ltac:(lia)) as H01.
      change (0 + 1) with 1 in H01. by rewrite H01, Hins. }
    split; [done|].
    destruct (wf_get_level cfg s 0 Hwf ltac:(lia)) as (l0 & Hl0 & _).
    destruct (wf_get_level cfg s 1 Hwf ltac:(lia)) as (l1 & Hl1 & _).
    destruct (Hlev 0 l0 Hl0) as [Hr0 _]. destruct (Hlev 1 l1 Hl1) as [_ Hi1].
    rewrite Hins in Hr0. unfold dec0 in Hr0 at 1. rewrite Hres in Hr0.
    rewrite H1 in Hi1. simpl in Hi1.
    apply get_level_Some in Hl0, Hl1.
    destruct Hl0 as (_ & _ & _ & _ & -> & _).
    destruct Hl1 as (_ & _ & _ & _ & _ & ->).
    unfold dec0 in Hr0. injection Hr0 as _ ->. by rewrite Hi1.
  - intros Hnc3 ws Hlen.
    destruct (Hfeed ws) as (s & tr & Hrun & Hwf & [Hlev Hcross] & Hins).
    exists s, tr. split; [done|].
    pose proof (Hcross 0 ltac:(lia) ltac:(lia)) as H01.
    pose proof (Hcross 1 ltac:(lia) ltac:(lia)) as H12.
    change (0 + 1) with 1 in H01. change (1 + 1) with 2 in H12.
    apply Nat2Z.inj. rewrite H12, H01.
    unfold dec0. rewrite !decimate_length by lia.
    rewrite Hins, Hlen, !Z.add_0_l, Z.div_mul by lia.
    rewrite Z.div_same by lia. done.
Qed.

End CascadeClaim.

(** ** A call of [add] and its cascade *)

Section CascadeCompletes.
Context {D : Type} {DD : Double D}.
Implicit Types (s : state D) (l : level D) (k j : Z) (tr : list (event D)).
Variable cfg : config.

(** After a call every level is as before, without events, or has
    taken one step, with the events of that step. *)
Lemma add_pure_steps fuel w k s j l' :
  cfg_ok cfg -> wf cfg s ->
  get_level j (add_pure cfg fuel w k s).1 = Some l' ->
  exists l, get_level j s = Some l /\
    ((at_level j (add_pure cfg fuel w k s).2 = [] /\ l' = l) \/
     exists x, at_level j (add_pure cfg fuel w k s).2 = lv_events cfg x j l /\
               l' = lv_step cfg x j l).
Proof.
  intros Hcfg Hwf Hl'. pose proof Hcfg as (_ & Hp & _).
  eapply (add_pure_levels_all cfg
            (fun j l evs => get_level j s = Some l /\ evs = [])
            (fun j l' evs' =>
               exists l, get_level j s = Some l /\
                 ((evs' = [] /\ l' = l) \/
                  exists x, evs' = lv_events cfg x j l /\ l' = lv_step cfg x j l))
            (fun _ => True) ltac:(lia)) with (tr := []) (fuel := fuel) (w := w)
            (k := k) (s := s); [| | |done|done| |apply Hl'].
  - intros j' l evs [Hl ->]. exists l. split; [done|]. by left.
  - intros x j' l evs _ _ [Hl ->]. exists l. split; [done|]. right. by exists x.
  - done.
  - intros j' l Hl. done.
Qed.

Lemma insert_levels_nil tr k : insert_levels tr = [] -> insertions k tr = [].
Proof.
  unfold insert_levels, insertions. induction tr as [|e tr IH]; [done|].
  rewrite !omap_cons_eq. destruct e as [k' i w|]; [done|]. exact IH.
Qed.

(** C9: on a well-formed engine a call [add(w, k)] never runs out of
    fuel once the fuel exceeds [numcorrelators - k]: the recursion is at
    most that deep.  At a level up to the depth it returns, in a
    well-formed state, and the insertions it made are at the levels
    [k, k+1, ..., k+r-1] in this order, with [k + r <= numcorrelators]:
    the level strictly increases and is bounded by [numcorrelators].
    Below the depth the value [w] itself is inserted at level [k]
    ([r >= 1]), and when the call returns the whole cascade has been
    carried out: a level [j >= k] that received a value [x] holds it in
    the slot [insertindex[j]] pointed to, its [insertindex] has advanced,
    and either its count has reached [m], its accumulator and count are
    back to 0 and level [j + 1] has received the average
    [(accumulator[j] + x) / m], or the count and the accumulator have
    grown and level [j + 1] has received nothing; a level that received
    no value is as before. *)
Theorem add_terminates fuel w k s :
  cfg_ok cfg -> wf cfg s -> 0 <= k ->
  numcorrelators cfg - k < Z.of_nat fuel -> fuel <> 0%nat ->
  add cfg fuel w k s <> OutOfFuel /\
  (k <= numcorrelators cfg ->
   exists s' tr r,
     add cfg fuel w k s = Done (tt, s', tr) /\ wf cfg s' /\
     0 <= r <= numcorrelators cfg - k /\ insert_levels tr = seqZ k r /\
     (k < numcorrelators cfg -> 1 <= r /\ insertions k tr = [w]) /\
     (forall j l, k <= j < numcorrelators cfg -> get_level j s = Some l ->
        match insertions j tr with
        | [] =>
            get_level j s' = Some l /\
            (j + 1 < numcorrelators cfg -> insertions (j + 1) tr = [])
        | x :: rest =>
            rest = [] /\
            aget2 (shift s') j (l_ii l) = Some x /\
            aget (accumulator s') j =
              Some (if u32 (l_nacc l + 1) =? m cfg then d_of_Z 0
                    else d_add (l_acc l) x) /\
            aget (naccumulator s') j =
              Some (if u32 (l_nacc l + 1) =? m cfg then 0
                    else u32 (l_nacc l + 1)) /\
            aget (insertindex s') j =
              Some (if u32 (l_ii l + 1) =? p cfg then 0
                    else u32 (l_ii l + 1)) /\
            (j + 1 < numcorrelators cfg ->
             insertions (j + 1) tr =
               if u32 (l_nacc l + 1) =? m cfg
               then [d_div (d_add (l_acc l) x) (d_of_Z (m cfg))] else [])
        end)).
Proof.
  intros Hcfg Hwf Hk Hfuel Hne.
  pose proof Hcfg as (Hnc & Hp & _).
  destruct (Z.le_gt_cases k (numcorrelators cfg)) as [Hle|Hgt].
  2:{ destruct fuel as [|fuel]; [done|].
      rewrite add_out_of_range by (done || lia). split; [done|lia]. }
  pose proof (add_runs cfg fuel w k s Hcfg Hwf ltac:(lia) Hfuel) as Hrun.
  unfold runs in Hrun. split; [by rewrite Hrun|]. intros _.
  destruct (add_pure_insert_levels cfg fuel w k s Hwf ltac:(lia) ltac:(lia))
    as (r & Hr & Er).
  pose proof (add_pure_wf cfg fuel w k s ltac:(lia) Hwf ltac:(lia)) as Hwf'.
  set (s' := (add_pure cfg fuel w k s).1) in *.
  set (tr := (add_pure cfg fuel w k s).2) in *.
  exists s', tr, r. split; [apply Hrun|]. split; [done|].
  split; [done|]. split; [done|].
  assert (k < numcorrelators cfg ->
          insertions k tr = [w] /\
          forall j l, k <= j -> j + 1 < numcorrelators cfg ->
            get_level j s = Some l ->
            insertions (j + 1) tr =
            decimate cfg (l_acc l, l_nacc l) (insertions j tr)) as Hins.
  { intros Hlt. apply add_pure_insertions; [done|lia|done|lia]. }
  split.
  - intros Hlt. destruct (Hins Hlt) as [Hw _]. split; [|done].
    destruct (Z.le_gt_cases 1 r) as [|Hr0]; [done|].
    assert (seqZ k r = []) as Hnil.
    { unfold seqZ. by replace (Z.to_nat r) with 0%nat by lia. }
    rewrite Hnil in Er. apply (insert_levels_nil _ k) in Er. congruence.
  - intros j l Hj Hl.
    destruct (Hins ltac:(lia)) as [_ Hcarry].
    destruct (wf_get_level cfg s' j Hwf' ltac:(lia)) as (l' & Hl' & _).
    pose proof (wf_levels _ _ Hwf _ _ Hl) as [Ls Lc Ln Li].
    destruct (add_pure_steps fuel w k s j l' Hcfg Hwf Hl')
      as (l0 & Hl0 & [[Hev ->]|(x & Hev & ->)]);
      rewrite Hl in Hl0; simplify_eq; fold tr in Hev.
    + assert (insertions j tr = []) as Hnone.
      { by rewrite <- insertions_at_level, Hev. }
      rewrite Hnone. split; [done|]. intros Hj1.
      by rewrite (Hcarry j l0 ltac:(lia) Hj1 Hl), Hnone.
    + assert (insertions j tr = [x]) as Hone.
      { by rewrite <- insertions_at_level, Hev, insertions_lv_events. }
      rewrite Hone. split; [done|].
      apply get_level_Some in Hl'.
      destruct Hl' as (Hs' & _ & _ & Ha' & Hn' & Hi').
      destruct (lv_step_frame cfg x j l0) as (Es & Ea & En & Ei).
      rewrite Ea in Ha'. rewrite En in Hn'. rewrite Ei in Hi'.
      split; [|split; [|split; [|split]]].
      * unfold aget2. rewrite Hs', Es. by rewrite aget_aset_eq by lia.
      * rewrite Ha'. unfold lv_head, lv_full, lv_insert, lv_reset. simpl.
        by destruct (u32 (l_nacc l0 + 1) =? m cfg).
      * rewrite Hn'. unfold lv_head, lv_full, lv_insert, lv_reset. simpl.
        by destruct (u32 (l_nacc l0 + 1) =? m cfg).
      * by rewrite Hi'.
      * intros Hj1. rewrite (Hcarry j l0 ltac:(lia) Hj1 Hl), Hone.
        cbn [decimate]. unfold dec_out. cbn [fst snd].
        rewrite app_nil_r. done.
Qed.

End CascadeCompletes.

(** ** The correlation loops, bin by bin *)

Section Bins.
Context {D : Type} {DD : Double D}.
Implicit Types (s : state D) (l : level D) (k j : Z) (tr : list (event D)).
Variable cfg : config.

(** Bin [j] is visited by a loop over [[lo, lo + n)] and the sample at
    its lag passes the validity test. *)
Definition hit (lo : Z) (n : nat) (l : level D) (j : Z) : bool :=
  (lo <=? j) && (j <? lo + Z.of_nat n) &&
  valid (d_at (l_shift l) (slot cfg (l_ii l) j)).

Lemma z_at_aset (a : list Z) i j x :
  0 <= i < alen a -> z_at (aset a i x) j = if j =? i then x else z_at a j.
Proof.
  intros Hi. unfold z_at. destruct (Z.eqb_spec j i) as [->|Hne].
  - by rewrite aget_aset_eq.
  - by rewrite aget_aset_ne.
Qed.

Lemma d_at_aset (a : list D) i j x :
  0 <= i < alen a -> d_at (aset a i x) j = if j =? i then x else d_at a j.
Proof.
  intros Hi. unfold d_at. destruct (Z.eqb_spec j i) as [->|Hne].
  - by rewrite aget_aset_eq.
  - by rewrite aget_aset_ne.
Qed.

Lemma lv_accumulate_alen j l :
  alen (l_ncorr (lv_accumulate cfg j l)) = alen (l_ncorr l) /\
  alen (l_corr (lv_accumulate cfg j l)) = alen (l_corr l).
Proof. unfold lv_accumulate. case_match; simpl; by rewrite ?alen_aset. Qed.

Lemma hit_accumulate lo n i l j :
  hit lo n (lv_accumulate cfg i l) j = hit lo n l j.
Proof.
  unfold hit. destruct (lv_accumulate_frame cfg i l) as (-> & -> & _). done.
Qed.

Lemma hit_0 lo l j : hit lo 0 l j = false.
Proof.
  unfold hit.
  destruct (Z.leb_spec lo j), (Z.ltb_spec j (lo + Z.of_nat 0)); simpl; lia.
Qed.

Lemma hit_S lo n l j :
  hit lo (S n) l j =
  if j =? lo then valid (d_at (l_shift l) (slot cfg (l_ii l) lo))
  else hit (lo + 1) n l j.
Proof.
  unfold hit. destruct (Z.eqb_spec j lo) as [->|Hne].
  - destruct (Z.leb_spec lo lo), (Z.ltb_spec lo (lo + Z.of_nat (S n)));
      simpl; lia || done.
  - destruct (Z.leb_spec lo j), (Z.ltb_spec j (lo + Z.of_nat (S n))),
      (Z.leb_spec (lo + 1) j), (Z.ltb_spec j (lo + 1 + Z.of_nat n));
      simpl; lia || done.
Qed.

Lemma lv_loop_ncorr n : forall lo l j,
  0 <= lo -> lo + Z.of_nat n <= alen (l_ncorr l) ->
  z_at (l_ncorr (lv_loop cfg n lo l)) j =
  if hit lo n l j then u64 (z_at (l_ncorr l) j + 1) else z_at (l_ncorr l) j.
Proof.
  induction n as [|n IH]; intros lo l j Hlo Hn.
  { by rewrite hit_0. }
  cbn [lv_loop].
  destruct (lv_accumulate_alen lo l) as [Hlen _].
  rewrite IH by (rewrite ?Hlen; lia). rewrite hit_accumulate, hit_S.
  unfold lv_accumulate.
  destruct (Z.eqb_spec j lo) as [->|Hne].
  - assert (hit (lo + 1) n l lo = false) as ->.
    { unfold hit. destruct (Z.leb_spec (lo + 1) lo); [lia|done]. }
    destruct (valid (d_at (l_shift l) (slot cfg (l_ii l) lo))); [|done].
    simpl. rewrite z_at_aset by lia. by rewrite Z.eqb_refl.
  - destruct (valid (d_at (l_shift l) (slot cfg (l_ii l) lo))); [|done].
    simpl. rewrite z_at_aset by lia. by destruct (Z.eqb_spec j lo).
Qed.

Lemma lv_loop_corr n : forall lo l j,
  0 <= lo -> lo + Z.of_nat n <= alen (l_corr l) ->
  d_at (l_corr (lv_loop cfg n lo l)) j =
  if hit lo n l j
  then d_add (d_at (l_corr l) j)
             (d_mul (d_at (l_shift l) (l_ii l))
                    (d_at (l_shift l) (slot cfg (l_ii l) j)))
  else d_at (l_corr l) j.
Proof.
  induction n as [|n IH]; intros lo l j Hlo Hn.
  { by rewrite hit_0. }
  cbn [lv_loop].
  destruct (lv_accumulate_alen lo l) as [_ Hlen].
  rewrite IH by (rewrite ?Hlen; lia). rewrite hit_accumulate, hit_S.
  destruct (lv_accumulate_frame cfg lo l) as (-> & -> & _).
  unfold lv_accumulate.
  destruct (Z.eqb_spec j lo) as [->|Hne].
  - assert (hit (lo + 1) n l lo = false) as ->.
    { unfold hit. destruct (Z.leb_spec (lo + 1) lo); [lia|done]. }
    destruct (valid (d_at (l_shift l) (slot cfg (l_ii l) lo))); [|done].
    simpl. rewrite d_at_aset by lia. by rewrite Z.eqb_refl.
  - destruct (valid (d_at (l_shift l) (slot cfg (l_ii l) lo))); [|done].
    simpl. rewrite d_at_aset by lia. by destruct (Z.eqb_spec j lo).
Qed.

Lemma lv_loop_alen n : forall lo l,
  alen (l_ncorr (lv_loop cfg n lo l)) = alen (l_ncorr l) /\
  alen (l_corr (lv_loop cfg n lo l)) = alen (l_corr l).
Proof.
  induction n as [|n IH]; intros lo l; [done|]. cbn [lv_loop].
  destruct (IH (lo + 1) (lv_accumulate cfg lo l)) as [-> ->].
  apply lv_accumulate_alen.
Qed.

End Bins.

(** ** Counting product terms *)

Section Counts.
Context {D : Type} {DD : Double D}.
Implicit Types (s : state D) (l : level D) (k j : Z) (tr pre : list (event D)).
Variable cfg : config.

Definition is_insert_at (k i : Z) (e : event D) : bool :=
  match e with
  | EvInsert k' i' _ => (k' =? k) && (i' =? i)
  | EvProduct _ _ _ _ => false
  end.

(** Slot [i] of level [k] has been written by a call of [add]: it holds
    real data, no longer the value [initialize] gave it. *)
Definition written (k i : Z) tr : bool := existsb (is_insert_at k i) tr.

(** The product terms accumulated into [correlation[k][j]]. *)
Fixpoint products (k j : Z) tr : Z :=
  match tr with
  | [] => 0
  | e :: tr' =>
      (match e with
       | EvProduct k' j' _ _ => if (k' =? k) && (j' =? j) then 1 else 0
       | EvInsert _ _ _ => 0
       end) + products k j tr'
  end.

(** Those of them in which both factors were real data when the term
    was accumulated; [pre] are the events before [tr]. *)
Fixpoint count_real pre (k j : Z) tr : Z :=
  match tr with
  | [] => 0
  | e :: tr' =>
      (match e with
       | EvProduct k' j' i1 i2 =>
           if (k' =? k) && (j' =? j) && written k i1 pre && written k i2 pre
           then 1 else 0
       | EvInsert _ _ _ => 0
       end) + count_real (pre ++ [e]) k j tr'
  end.

Definition real_products (k j : Z) tr : Z := count_real [] k j tr.

Lemma written_app k i tr1 tr2 :
  written k i (tr1 ++ tr2) = written k i tr1 || written k i tr2.
Proof. apply existsb_app. Qed.

Lemma products_app k j tr1 tr2 :
  products k j (tr1 ++ tr2) = products k j tr1 + products k j tr2.
Proof. induction tr1 as [|e tr1 IH]; simpl; [done|]. rewrite IH. lia. Qed.

Lemma count_real_app k j tr1 : forall pre tr2,
  count_real pre k j (tr1 ++ tr2) =
  count_real pre k j tr1 + count_real (pre ++ tr1) k j tr2.
Proof.
  induction tr1 as [|e tr1 IH]; intros pre tr2; simpl.
  { by rewrite app_nil_r. }
  rewrite IH, <- app_assoc. simpl. lia.
Qed.

Lemma count_real_ext k j tr : forall pre pre',
  (forall i, written k i pre = written k i pre') ->
  count_real pre k j tr = count_real pre' k j tr.
Proof.
  induction tr as [|e tr IH]; intros pre pre' Hw; simpl; [done|].
  rewrite (IH (pre ++ [e]) (pre' ++ [e])).
  - destruct e; [done|]. by rewrite !Hw.
  - intros i. by rewrite !written_app, Hw.
Qed.

Lemma count_real_nonneg k j tr : forall pre, 0 <= count_real pre k j tr.
Proof.
  induction tr as [|e tr IH]; intros pre; simpl; [done|].
  specialize (IH (pre ++ [e])). destruct e; [lia|]. case_match; lia.
Qed.

Lemma written_products n lo k' k i l : written k i (ev_loop cfg n lo k' l) = false.
Proof.
  revert lo. induction n as [|n IH]; intros lo; simpl; [done|].
  rewrite written_app, IH. by case_match.
Qed.

Lemma products_ev_loop n : forall lo k l j,
  products k j (ev_loop cfg n lo k l) = if hit cfg lo n l j then 1 else 0.
Proof.
  induction n as [|n IH]; intros lo k l j.
  { by rewrite hit_0. }
  cbn [ev_loop]. rewrite products_app, IH, hit_S.
  destruct (Z.eqb_spec j lo) as [->|Hne].
  - assert (hit cfg (lo + 1) n l lo = false) as ->.
    { unfold hit. destruct (Z.leb_spec (lo + 1) lo); [lia|done]. }
    destruct (valid _); simpl; [|done]. by rewrite !Z.eqb_refl.
  - destruct (valid _); simpl; [|done].
    rewrite Z.eqb_refl. simpl. destruct (Z.eqb_spec lo j); [lia|]. done.
Qed.

Lemma count_real_ev_loop n : forall lo k l j pre,
  count_real pre k j (ev_loop cfg n lo k l) =
  if hit cfg lo n l j && written k (l_ii l) pre &&
     written k (slot cfg (l_ii l) j) pre
  then 1 else 0.
Proof.
  induction n as [|n IH]; intros lo k l j pre.
  { by rewrite hit_0. }
  cbn [ev_loop]. rewrite count_real_app, IH, hit_S.
  rewrite !written_app.
  destruct (Z.eqb_spec j lo) as [->|Hne].
  - assert (hit cfg (lo + 1) n l lo = false) as ->.
    { unfold hit. destruct (Z.leb_spec (lo + 1) lo); [lia|done]. }
    destruct (valid _); simpl; [|done]. rewrite !Z.eqb_refl. simpl. lia.
  - destruct (valid _); simpl.
    + rewrite Z.eqb_refl. simpl. destruct (Z.eqb_spec lo j); [lia|]. simpl.
      by rewrite !orb_false_r.
    + by rewrite !orb_false_r.
Qed.

Lemma written_at_level k i tr : written k i (at_level k tr) = written k i tr.
Proof.
  induction tr as [|e tr IH]; [done|].
  unfold at_level in *. destruct (decide (ev_level e = k)) as [He|He].
  - rewrite filter_cons_True by done. simpl. by rewrite IH.
  - rewrite filter_cons_False by done. rewrite IH. simpl.
    destruct e as [k' i' ?|]; simpl in *; [|done].
    by destruct (Z.eqb_spec k' k).
Qed.

Lemma products_at_level k j tr : products k j (at_level k tr) = products k j tr.
Proof.
  induction tr as [|e tr IH]; [done|].
  unfold at_level in *. destruct (decide (ev_level e = k)) as [He|He].
  - rewrite filter_cons_True by done. simpl. by rewrite IH.
  - rewrite filter_cons_False by done. rewrite IH. simpl.
    destruct e as [|k' j' ? ?]; simpl in *; [done|].
    by destruct (Z.eqb_spec k' k).
Qed.

Lemma count_real_at_level k j tr : forall pre,
  count_real pre k j (at_level k tr) = count_real pre k j tr.
Proof.
  induction tr as [|e tr IH]; intros pre; [done|].
  unfold at_level in *. destruct (decide (ev_level e = k)) as [He|He].
  - rewrite filter_cons_True by done. simpl. by rewrite IH.
  - rewrite filter_cons_False by done. rewrite IH. simpl.
    rewrite (count_real_ext k j tr (pre ++ [e]) pre).
    + destruct e as [|k' j' ? ?]; simpl in *; [done|].
      by destruct (Z.eqb_spec k' k).
    + intros i. rewrite written_app. simpl.
      destruct e as [k' i' ?|]; simpl in *; [|by rewrite !orb_false_r].
      destruct (Z.eqb_spec k' k); [done|]. by rewrite !orb_false_r.
Qed.

(** What the events of a level say of its buffer and counts. *)
Record level_counts (k : Z) (l : level D) (evs : list (event D)) : Prop := {
  lc_unwritten : forall i, 0 <= i < p cfg -> written k i evs = false ->
                 aget (l_shift l) i = Some d_m2e10;
  lc_count : forall j, 0 <= j < p cfg ->
             z_at (l_ncorr l) j = u64 (count_real [] k j evs);
  lc_real : forall j, count_real [] k j evs = products k j evs
}.

Lemma u64_succ z : u64 (u64 z + 1) = u64 (z + 1).
Proof. unfold u64. by rewrite Zplus_mod_idemp_l. Qed.

Lemma level_counts_step w k l evs :
  valid d_m2e10 = false ->
  1 <= p cfg -> 0 <= d_min cfg <= p cfg ->
  level_shape cfg l -> level_counts k l evs ->
  level_counts k (lv_step cfg w k l) (evs ++ lv_events cfg w k l).
Proof.
  intros Hsent Hp Hd [Ls Lc Ln Li] [Hun Hcnt Hreal].
  destruct (lv_head_frame cfg w l) as (Hhs & Hhc & Hhn & Hhi).
  set (h := lv_head cfg w l) in *.
  set (lo := lv_lo cfg k).
  set (n := Z.to_nat (p cfg - lo)).
  assert (0 <= lo <= p cfg) as Hlo.
  { unfold lo, lv_lo. case_match; lia. }
  assert (forall j, hit cfg lo n h j = true -> 0 <= j < p cfg) as Hrange.
  { intros j Hj. unfold hit in Hj.
    apply andb_true_iff in Hj. destruct Hj as [Hr _].
    apply andb_true_iff in Hr. destruct Hr as [H1 H2]. lia. }
  (* a sample that passes the validity test was written *)
  assert (forall j, hit cfg lo n h j = true ->
                    written k (slot cfg (l_ii l) j)
                      (evs ++ [EvInsert k (l_ii l) w]) = true) as Hreal_slot.
  { intros j Hj. rewrite written_app. simpl. rewrite Z.eqb_refl. simpl.
    destruct (Z.eqb_spec (l_ii l) (slot cfg (l_ii l) j)) as [E|E].
    { by rewrite orb_true_r. }
    rewrite orb_false_r.
    destruct (written k (slot cfg (l_ii l) j) evs) eqn:Ew; [done|].
    pose proof (slot_range cfg (l_ii l) j ltac:(lia)) as Hs.
    pose proof (Hun _ Hs Ew) as Hsen.
    unfold hit in Hj. apply andb_true_iff in Hj. destruct Hj as [_ Hv].
    rewrite Hhs, Hhi in Hv. unfold d_at in Hv.
    rewrite aget_aset_ne, Hsen in Hv by done. simpl in Hv. congruence. }
  assert (forall j, count_real evs k j (lv_events cfg w k l) =
                    if hit cfg lo n h j then 1 else 0) as Hnew.
  { intros j. unfold lv_events. cbn [count_real].
    unfold lv_products. fold lo n h. rewrite count_real_ev_loop, Hhi.
    destruct (hit cfg lo n h j) eqn:Hj; [|done]. simpl.
    rewrite (Hreal_slot j Hj), written_app. simpl.
    by rewrite !Z.eqb_refl, orb_true_r. }
  assert (forall j, products k j (lv_events cfg w k l) =
                    if hit cfg lo n h j then 1 else 0) as Hnewp.
  { intros j. unfold lv_events. cbn [products].
    unfold lv_products. fold lo n h. by rewrite products_ev_loop. }
  split.
  - intros i Hi Hw.
    destruct (lv_step_frame cfg w k l) as (-> & _).
    rewrite written_app in Hw. apply orb_false_iff in Hw.
    destruct Hw as [Hw1 Hw2]. unfold lv_events in Hw2. simpl in Hw2.
    apply orb_false_iff in Hw2. destruct Hw2 as [Hw2 _].
    rewrite Z.eqb_refl in Hw2. simpl in Hw2.
    rewrite aget_aset_ne by lia. by apply Hun.
  - intros j Hj. unfold real_products.
    rewrite count_real_app, app_nil_l, Hnew.
    unfold lv_step, lv_advance, lv_correlate. simpl. fold lo n h.
    rewrite lv_loop_ncorr by (rewrite ?Hhn; lia).
    rewrite Hhn, Hcnt by done.
    destruct (hit cfg lo n h j); [apply u64_succ|by rewrite Z.add_0_r].
  - intros j. rewrite count_real_app, products_app, app_nil_l, Hnew, Hnewp.
    by rewrite Hreal.
Qed.

Definition level_counts_all s tr : Prop :=
  forall k l, get_level k s = Some l -> level_counts k l (at_level k tr).

Lemma level_counts_fresh : 0 <= p cfg -> level_counts_all (fresh cfg) [].
Proof.
  intros Hp k' l Hl. apply get_level_fresh_inv in Hl. subst l.
  split; [|intros j' Hj'|done].
  - intros i Hi _. simpl. apply aget_replicate. lia.
  - unfold z_at. simpl. by rewrite aget_replicate by lia.
Qed.

Lemma level_counts_add fuel w k s tr :
  cfg_ok cfg -> valid d_m2e10 = false -> wf cfg s ->
  level_counts_all s tr ->
  level_counts_all (add_pure cfg fuel w k s).1 (tr ++ (add_pure cfg fuel w k s).2).
Proof.
  intros Hcfg Hsent Hwf HI j l Hl.
  pose proof Hcfg as (Hnc & Hp & Hm & Hd & _).
  assert (0 <= d_min cfg <= p cfg) as Hdm.
  { rewrite Hd. split; [apply Z.div_pos; lia|].
    apply Z.div_le_upper_bound; nia. }
  eapply (add_pure_levels_all cfg level_counts level_counts
            (fun _ => True)); [lia|done| |done|done|done|apply HI|apply Hl].
  intros w' k'' l' evs _ Hshape Hlc.
  apply level_counts_step; [done|lia|done..].
Qed.

(** *** The terms themselves *)

(** The value last written into slot [i] of [shift[k]], if any. *)
Fixpoint last_written (k i : Z) tr : option D :=
  match tr with
  | [] => None
  | e :: tr' =>
      match last_written k i tr' with
      | Some w => Some w
      | None =>
          match e with
          | EvInsert k' i' w => if (k' =? k) && (i' =? i) then Some w else None
          | EvProduct _ _ _ _ => None
          end
      end
  end.

(** What the slot holds: that value, or the [-2E10] of [initialize]. *)
Definition held (k i : Z) tr : D := default d_m2e10 (last_written k i tr).

(** The product terms accumulated into [correlation[k][j]], each as the
    pair of its factors [shift[k][ind1]] and [shift[k][ind2]] at the time;
    [pre] are the events before [tr]. *)
Fixpoint product_terms pre (k j : Z) tr : list (D * D) :=
  match tr with
  | [] => []
  | e :: tr' =>
      (match e with
       | EvProduct k' j' i1 i2 =>
           if (k' =? k) && (j' =? j) then [(held k i1 pre, held k i2 pre)]
           else []
       | EvInsert _ _ _ => []
       end) ++ product_terms (pre ++ [e]) k j tr'
  end.

(** Their products added up from 0, in order. *)
Definition sum_terms (ts : list (D * D)) : D :=
  foldl (fun acc ab => d_add acc (d_mul ab.1 ab.2)) (d_of_Z 0) ts.

Lemma last_written_app k i tr1 tr2 :
  last_written k i (tr1 ++ tr2) =
  match last_written k i tr2 with
  | Some w => Some w
  | None => last_written k i tr1
  end.
Proof.
  induction tr1 as [|e tr1 IH]; simpl.
  { by destruct (last_written k i tr2). }
  rewrite IH. by destruct (last_written k i tr2).
Qed.

Lemma last_written_products n lo k' k i l :
  last_written k i (ev_loop cfg n lo k' l) = None.
Proof.
  revert lo. induction n as [|n IH]; intros lo; simpl; [done|].
  rewrite last_written_app, IH. by case_match.
Qed.

Lemma last_written_insertions k i tr x :
  last_written k i tr = Some x -> x ∈ insertions k tr.
Proof.
  unfold insertions. induction tr as [|e tr IH]; [done|].
  cbn [last_written]. rewrite omap_cons_eq.
  destruct (last_written k i tr) as [y|].
  - intros [= ->]. specialize (IH eq_refl).
    destruct e as [k' i' w|]; [|done].
    destruct (k' =? k); [by right|done].
  - destruct e as [k' i' w|]; [|done].
    destruct (Z.eqb_spec k' k); [|done]. simpl.
    destruct (i' =? i); [|done]. intros [= ->]. by left.
Qed.

Lemma last_written_at_level k i tr :
  last_written k i (at_level k tr) = last_written k i tr.
Proof.
  induction tr as [|e tr IH]; [done|].
  unfold at_level in *. destruct (decide (ev_level e = k)) as [He|He].
  - rewrite filter_cons_True by done. simpl. by rewrite IH.
  - rewrite filter_cons_False by done. rewrite IH. simpl.
    destruct (last_written k i tr); [done|].
    destruct e as [k' i' ?|]; simpl in *; [|done].
    by destruct (Z.eqb_spec k' k).
Qed.

Lemma product_terms_app k j tr1 : forall pre tr2,
  product_terms pre k j (tr1 ++ tr2) =
  product_terms pre k j tr1 ++ product_terms (pre ++ tr1) k j tr2.
Proof.
  induction tr1 as [|e tr1 IH]; intros pre tr2; simpl.
  { by rewrite app_nil_r. }
  by rewrite IH, <- !app_assoc.
Qed.

Lemma product_terms_ext k j tr : forall pre pre',
  (forall i, last_written k i pre = last_written k i pre') ->
  product_terms pre k j tr = product_terms pre' k j tr.
Proof.
  induction tr as [|e tr IH]; intros pre pre' Hw; simpl; [done|].
  rewrite (IH (pre ++ [e]) (pre' ++ [e])).
  - destruct e; [done|]. unfold held. by rewrite !Hw.
  - intros i. by rewrite !last_written_app, Hw.
Qed.

Lemma product_terms_ev_loop n : forall lo k l j pre,
  product_terms pre k j (ev_loop cfg n lo k l) =
  if hit cfg lo n l j
  then [(held k (l_ii l) pre, held k (slot cfg (l_ii l) j) pre)] else [].
Proof.
  induction n as [|n IH]; intros lo k l j pre.
  { by rewrite hit_0. }
  cbn [ev_loop]. rewrite product_terms_app, IH, hit_S.
  assert (forall i, held k i
            (pre ++ (if valid (d_at (l_shift l) (slot cfg (l_ii l) lo))
                     then [EvProduct k lo (l_ii l) (slot cfg (l_ii l) lo)]
                     else [])) = held k i pre) as Hheld.
  { intros i. unfold held. rewrite last_written_app.
    by destruct (valid (d_at (l_shift l) (slot cfg (l_ii l) lo))). }
  rewrite !Hheld.
  destruct (Z.eqb_spec j lo) as [->|Hne].
  - assert (hit cfg (lo + 1) n l lo = false) as ->.
    { unfold hit. destruct (Z.leb_spec (lo + 1) lo); [lia|done]. }
    rewrite app_nil_r.
    destruct (valid _); simpl; [|done]. by rewrite !Z.eqb_refl.
  - destruct (valid _); simpl; [|done].
    rewrite Z.eqb_refl. simpl. destruct (Z.eqb_spec lo j); [lia|]. done.
Qed.

Lemma product_terms_at_level k j tr : forall pre,
  product_terms pre k j (at_level k tr) = product_terms pre k j tr.
Proof.
  induction tr as [|e tr IH]; intros pre; [done|].
  unfold at_level in *. destruct (decide (ev_level e = k)) as [He|He].
  - rewrite filter_cons_True by done. simpl. by rewrite IH.
  - rewrite filter_cons_False by done. rewrite IH. simpl.
    rewrite (product_terms_ext k j tr (pre ++ [e]) pre).
    + destruct e as [|k' j' ? ?]; simpl in *; [done|].
      by destruct (Z.eqb_spec k' k).
    + intros i. rewrite last_written_app. simpl.
      destruct e as [k' i' ?|]; simpl in *; [|done].
      by destruct (Z.eqb_spec k' k).
Qed.

Lemma length_product_terms k j tr : forall pre,
  Z.of_nat (length (product_terms pre k j tr)) = products k j tr.
Proof.
  induction tr as [|e tr IH]; intros pre; simpl; [done|].
  rewrite length_app, Nat2Z.inj_add, IH.
  destruct e; [done|]. by case_match.
Qed.

(** What the events of a level say of its buffer and sums. *)
Record level_terms (k : Z) (l : level D) (evs : list (event D)) : Prop := {
  lt_shift : forall i, 0 <= i < p cfg ->
             aget (l_shift l) i = Some (held k i evs);
  lt_corr : forall j, 0 <= j < p cfg ->
            d_at (l_corr l) j = sum_terms (product_terms [] k j evs);
  lt_real : forall j,
            Forall (fun ab => ab.1 ∈ insertions k evs /\ ab.2 ∈ insertions k evs)
                   (product_terms [] k j evs)
}.

Lemma level_terms_step w k l evs :
  valid d_m2e10 = false ->
  1 <= p cfg -> 0 <= d_min cfg <= p cfg ->
  level_shape cfg l -> level_terms k l evs ->
  level_terms k (lv_step cfg w k l) (evs ++ lv_events cfg w k l).
Proof.
  intros Hsent Hp Hd [Ls Lc Ln Li] [Hsh Hcorr Hreal].
  destruct (lv_head_frame cfg w l) as (Hhs & Hhc & Hhn & Hhi).
  set (h := lv_head cfg w l) in *.
  set (lo := lv_lo cfg k).
  set (n := Z.to_nat (p cfg - lo)).
  set (pre := evs ++ [EvInsert k (l_ii l) w]).
  assert (0 <= lo <= p cfg) as Hlo.
  { unfold lo, lv_lo. case_match; lia. }
  assert (forall i, last_written k i pre =
                    if i =? l_ii l then Some w else last_written k i evs)
    as Hlast.
  { intros i. unfold pre. rewrite last_written_app. simpl.
    rewrite Z.eqb_refl. simpl. rewrite (Z.eqb_sym (l_ii l) i).
    by destruct (i =? l_ii l). }
  assert (forall i, last_written k i (evs ++ lv_events cfg w k l) =
                    last_written k i pre) as Hall.
  { intros i. unfold lv_events, lv_products, pre.
    change (EvInsert k (l_ii l) w :: ?x) with ([EvInsert k (l_ii l) w] ++ x).
    rewrite app_assoc, (last_written_app k i (evs ++ _)).
    by rewrite last_written_products. }
  assert (forall i, 0 <= i < p cfg ->
            aget (l_shift h) i = Some (held k i pre)) as Hsh'.
  { intros i Hi. rewrite Hhs. unfold held. rewrite Hlast.
    destruct (Z.eqb_spec i (l_ii l)) as [->|Hne].
    - by rewrite aget_aset_eq by lia.
    - rewrite aget_aset_ne by done. by apply Hsh. }
  assert (forall j,
            product_terms [] k j (evs ++ lv_events cfg w k l) =
            product_terms [] k j evs ++
            if hit cfg lo n h j
            then [(held k (l_ii l) pre, held k (slot cfg (l_ii l) j) pre)]
            else []) as Hterms.
  { intros j. rewrite product_terms_app, app_nil_l. f_equal.
    unfold lv_events. cbn [product_terms]. rewrite app_nil_l.
    unfold lv_products. fold lo n h pre.
    by rewrite product_terms_ev_loop, Hhi. }
  assert (insertions k (evs ++ lv_events cfg w k l) = insertions k pre)
    as Hins.
  { unfold pre. rewrite !insertions_app, insertions_lv_events.
    unfold insertions. by rewrite omap_cons_eq, Z.eqb_refl. }
  split.
  - intros i Hi. destruct (lv_step_frame cfg w k l) as (-> & _).
    rewrite <- Hhs, (Hsh' i Hi). unfold held. by rewrite Hall.
  - intros j Hj. rewrite Hterms.
    unfold lv_step, lv_advance, lv_correlate. simpl. fold lo n h.
    rewrite lv_loop_corr by (rewrite ?Hhc; lia).
    rewrite Hhc, (Hcorr j Hj), Hhi.
    destruct (hit cfg lo n h j); [|by rewrite app_nil_r].
    unfold sum_terms. rewrite foldl_app. simpl.
    pose proof (slot_range cfg (l_ii l) j ltac:(lia)) as Hs.
    unfold d_at. by rewrite (Hsh' _ Li), (Hsh' _ Hs).
  - intros j. rewrite Hterms, Hins. apply Forall_app. split.
    + eapply Forall_impl; [apply Hreal|]. simpl. intros ab [H1 H2].
      unfold pre. rewrite insertions_app.
      split; apply elem_of_app; by left.
    + destruct (hit cfg lo n h j) eqn:Ehit; [|constructor].
      constructor; [|constructor]. simpl.
      assert (forall i, 0 <= i < p cfg ->
                valid (d_at (l_shift h) i) = true ->
                held k i pre ∈ insertions k pre) as Hin.
      { intros i Hi Hv. unfold d_at in Hv. rewrite (Hsh' i Hi) in Hv.
        simpl in Hv. unfold held in *.
        destruct (last_written k i pre) as [x|] eqn:Ex; [|simpl in Hv; congruence].
        simpl. by eapply last_written_insertions. }
      pose proof (slot_range cfg (l_ii l) j ltac:(lia)) as Hs.
      unfold hit in Ehit. apply andb_true_iff in Ehit.
      destruct Ehit as [_ Hv]. rewrite Hhi in Hv.
      split; [|by apply Hin].
      unfold held. rewrite Hlast, Z.eqb_refl. simpl.
      unfold pre. rewrite insertions_app. apply elem_of_app. right.
      unfold insertions. rewrite omap_cons_eq, Z.eqb_refl. by left.
Qed.

Definition level_terms_all s tr : Prop :=
  forall k l, get_level k s = Some l -> level_terms k l (at_level k tr).

Lemma level_terms_fresh : 0 <= p cfg -> level_terms_all (fresh cfg) [].
Proof.
  intros Hp k' l Hl. apply get_level_fresh_inv in Hl. subst l.
  split.
  - intros i Hi. simpl. apply aget_replicate. lia.
  - intros j Hj. unfold d_at. simpl. by rewrite aget_replicate by lia.
  - intros j. constructor.
Qed.

Lemma level_terms_add fuel w k s tr :
  cfg_ok cfg -> valid d_m2e10 = false -> wf cfg s ->
  level_terms_all s tr ->
  level_terms_all (add_pure cfg fuel w k s).1 (tr ++ (add_pure cfg fuel w k s).2).
Proof.
  intros Hcfg Hsent Hwf HI j l Hl.
  pose proof Hcfg as (Hnc & Hp & Hm & Hd & _).
  assert (0 <= d_min cfg <= p cfg) as Hdm.
  { rewrite Hd. split; [apply Z.div_pos; lia|].
    apply Z.div_le_upper_bound; nia. }
  eapply (add_pure_levels_all cfg level_terms level_terms
            (fun _ => True)); [lia|done| |done|done|done|apply HI|apply Hl].
  intros w' k'' l' evs _ Hshape Hlc.
  apply level_terms_step; [done|lia|done..].
Qed.

End Counts.

Section CountsClaim.
Context {D : Type} {DD : Double D}.
Implicit Types (s : state D) (l : level D) (k j : Z) (tr pre : list (event D)).
Variable cfg : config.

(** C6: in every state reached from [initialize], [correlation[k][j]]
    is the sum of the product terms accumulated into it, and
    [ncorrelation[k][j]] is, as a 64-bit counter, the number of these
    terms in which both factors were real data written into the buffer;
    that is all of the terms accumulated there: both factors of every
    term are values inserted at the level, since a slot that was never
    written holds [-2E10] and fails the validity test.  Below [2^64]
    terms the counter is that number itself. *)
Theorem ncorrelation_counts_real_products s tr k j n :
  cfg_ok cfg -> d_gt d_m2e10 d_m1e10 = false ->
  reachable cfg s tr -> aget2 (ncorrelation s) k j = Some n ->
  aget2 (correlation s) k j = Some (sum_terms (product_terms [] k j tr)) /\
  Z.of_nat (length (product_terms [] k j tr)) = products k j tr /\
  Forall (fun ab => ab.1 ∈ insertions k tr /\ ab.2 ∈ insertions k tr)
         (product_terms [] k j tr) /\
  n = u64 (real_products k j tr) /\
  real_products k j tr = products k j tr /\
  (real_products k j tr < 2 ^ 64 -> n = real_products k j tr).
Proof.
  intros Hcfg Hsent Hreach Hn.
  destruct (reachable_invariant cfg
              (fun s tr => level_counts_all cfg s tr /\ level_terms_all cfg s tr)
              Hcfg)
    with (s := s) (tr := tr) as [Hwf [Hinv Hterms]];
    [split; [apply level_counts_fresh|apply level_terms_fresh];
       destruct Hcfg as (_ & ? & _); lia
    |intros ? ? ? ? ? [? ?] ?;
       split; [by apply level_counts_add|by apply level_terms_add]
    |intros s1 tr1 norm Hwf1 [HI1 HI2];
       split; intros k' l Hl; [by eapply HI1|by eapply HI2]
    |done|].
  unfold aget2 in Hn.
  destruct (aget (ncorrelation s) k) as [row|] eqn:Erow; [|done].
  pose proof (aget_Some_lt _ _ _ Erow) as Hk.
  rewrite (wf_ncorrelation _ _ Hwf) in Hk.
  destruct (wf_get_level cfg s k Hwf Hk) as (l & Hl & Hshape).
  destruct (Hinv k l Hl) as [_ Hcnt Hreal].
  destruct (Hterms k l Hl) as [_ Hcorr Hfac].
  pose proof Hl as Hl'. apply get_level_Some in Hl'.
  destruct Hl' as (_ & Hcrow & Hrow & _). rewrite Erow in Hrow. simplify_eq.
  pose proof (aget_Some_lt _ _ _ Hn) as Hj.
  rewrite (ls_ncorr _ _ Hshape) in Hj.
  specialize (Hcnt j Hj). specialize (Hreal j).
  specialize (Hcorr j Hj). specialize (Hfac j).
  unfold z_at in Hcnt. rewrite Hn in Hcnt. simpl in Hcnt.
  rewrite count_real_at_level in Hcnt, Hreal.
  rewrite products_at_level in Hreal.
  rewrite product_terms_at_level in Hcorr, Hfac.
  rewrite insertions_at_level in Hfac.
  split; [|split; [apply length_product_terms|split; [done|]]].
  { unfold aget2. rewrite Hcrow.
    destruct (aget_lt_Some (l_corr l) j) as [x Hx];
      [rewrite (ls_corr _ _ Hshape); lia|].
    unfold d_at in Hcorr. rewrite Hx in Hcorr. simpl in Hcorr.
    by rewrite Hx, Hcorr. }
  unfold real_products. split; [done|]. split; [done|].
  intros Hlt. rewrite Hcnt. apply u64_id.
  pose proof (count_real_nonneg k j tr []). lia.
Qed.

End CountsClaim.

(** ** A constant signal, in exact arithmetic *)

Section Feeding.
Context {D : Type} {DD : Double D}.
Implicit Types (s : state D) (l : level D) (k j : Z) (tr : list (event D)).
Variable cfg : config.

Lemma products_lv_events w k l j :
  products k j (lv_events cfg w k l) =
  if hit cfg (lv_lo cfg k) (Z.to_nat (p cfg - lv_lo cfg k)) (lv_head cfg w l) j
  then 1 else 0.
Proof.
  unfold lv_events. cbn [products]. unfold lv_products.
  by rewrite products_ev_loop.
Qed.

Lemma products_nonneg k j tr : 0 <= products k j tr.
Proof.
  induction tr as [|e tr IH]; simpl; [done|].
  destruct e; [lia|]. case_match; lia.
Qed.

(** A call at level 0 adds the sample to [accval]. *)
Lemma add_pure_accval_0 fuel w s l :
  get_level 0 s = Some l -> 0 < numcorrelators cfg ->
  accval (add_pure cfg (S fuel) w 0 s).1 = d_add (accval s) w.
Proof.
  intros Hl Hnc. cbn [add_pure].
  destruct (Z.eqb_spec 0 (numcorrelators cfg)); [lia|].
  rewrite Hl. cbn [fst].
  assert (accval (put_level 0 (lv_step cfg w 0 l) (bump w 0 s)) =
          d_add (accval s) w) as E.
  { unfold bump. simpl. by case_match. }
  destruct (lv_full cfg (lv_insert w l)); [|exact E].
  rewrite add_pure_accval by lia. exact E.
Qed.

(** Induction over the samples fed at level 0. *)
Lemma feed_invariant (I : state D -> list (event D) -> Prop) (Qw : D -> Prop) :
  cfg_ok cfg ->
  (forall s tr w,
     wf cfg s -> I s tr -> Qw w ->
     I (add_pure cfg (S (Z.to_nat (numcorrelators cfg - 0))) w 0 s).1
       (tr ++ (add_pure cfg (S (Z.to_nat (numcorrelators cfg - 0))) w 0 s).2)) ->
  forall ws s tr0,
    Forall Qw ws -> wf cfg s -> I s tr0 ->
    exists s' tr,
      runs (feed cfg ws) s tt s' tr /\ wf cfg s' /\ I s' (tr0 ++ tr) /\
      insertions 0 tr = ws.
Proof.
  intros Hcfg Hadd ws.
  pose proof Hcfg as (Hnc & Hp & Hm & _).
  induction ws as [|w ws IH]; intros s tr0 HQ Hwf HI.
  { exists s, []. rewrite app_nil_r.
    split; [apply runs_ret|]. split; [done|]. split; done. }
  apply Forall_cons in HQ. destruct HQ as [Hw HQ].
  pose proof (call_add_runs cfg w 0 s Hcfg Hwf ltac:(lia)) as Hrun.
  pose proof (Hadd s tr0 w Hwf HI Hw) as HI1.
  destruct (add_pure_insertions cfg (S (Z.to_nat (numcorrelators cfg - 0))) w 0 s
              Hwf ltac:(lia) ltac:(lia) ltac:(lia)) as [Hins0 _].
  set (r := add_pure cfg (S (Z.to_nat (numcorrelators cfg - 0))) w 0 s) in *.
  destruct (IH r.1 (tr0 ++ r.2) HQ) as (s' & tr & Hrun' & Hwf' & HI' & Hins);
    [apply add_pure_wf; [lia|done|lia]|done|].
  exists s', (r.2 ++ tr). split; [|split; [done|split]].
  - unfold feed. simpl. eapply runs_bind; [apply Hrun|apply Hrun'].
  - by rewrite app_assoc.
  - by rewrite insertions_app, Hins, Hins0.
Qed.

(** No level receives more values than level 0. *)
Lemma insertions_le s tr k :
  cfg_ok cfg -> cascade_ok cfg s tr -> 0 <= k < numcorrelators cfg ->
  (length (insertions k tr) <= length (insertions 0 tr))%nat.
Proof.
  intros Hcfg [_ Hcross] Hk.
  pose proof Hcfg as (Hnc & Hp & Hm & _).
  assert (forall n : nat, Z.of_nat n < numcorrelators cfg ->
            (length (insertions (Z.of_nat n) tr) <=
             length (insertions 0 tr))%nat) as Hall.
  { induction n as [|n IH]; intros Hn; [done|].
    rewrite Nat2Z.inj_succ, <- Z.add_1_r, Hcross by lia.
    pose proof (decimate_length cfg (insertions (Z.of_nat n) tr) (d_of_Z 0) 0
                  ltac:(lia) ltac:(lia)) as Hlen.
    fold (@dec0 D DD) in Hlen.
    assert (Z.of_nat (length (decimate cfg dec0 (insertions (Z.of_nat n) tr)))
            <= Z.of_nat (length (insertions (Z.of_nat n) tr))) as Hle.
    { rewrite Hlen, Z.add_0_l. apply Z.div_le_upper_bound; nia. }
    specialize (IH ltac:(lia)). lia. }
  specialize (Hall (Z.to_nat k)). rewrite Z2Nat.id in Hall by lia.
  apply Hall. lia.
Qed.

End Feeding.

Section Constant.
Implicit Types (s : state Q) (l : level Q) (k j : Z) (tr : list (event Q)).
Variable cfg : config.
Variable c : Q.

Lemma valid_Qeq (x y : Q) : (x == y)%Q -> valid x = valid y.
Proof.
  intros E. unfold valid. cbn. f_equal.
  destruct (Qle_bool x _) eqn:E1, (Qle_bool y _) eqn:E2; try done.
  - apply Qle_bool_iff in E1. rewrite E in E1. apply Qle_bool_iff in E1.
    congruence.
  - apply Qle_bool_iff in E2. rewrite <- E in E2. apply Qle_bool_iff in E2.
    congruence.
Qed.

Lemma valid_sentinel : valid (d_m2e10 : Q) = false.
Proof. reflexivity. Qed.

(** A level that has received the value [c] only. *)
Record level_const (k : Z) (l : level Q) (evs : list (event Q)) : Prop := {
  lk_shift : forall i x, aget (l_shift l) i = Some x -> valid x = true ->
             (x == c)%Q;
  lk_corr : forall j, 0 <= j < p cfg ->
            (d_at (l_corr l) j == inject_Z (products k j evs) * (c * c))%Q;
  lk_acc : (l_acc l == inject_Z (l_nacc l) * c)%Q;
  lk_nacc : 0 <= l_nacc l < m cfg;
  lk_bound : forall j, products k j evs <= Z.of_nat (length (insertions k evs));
  lk_zero : k = 0 -> valid c = true ->
            products 0 0 evs = Z.of_nat (length (insertions 0 evs));
  lk_none : valid c = false -> forall j, products k j evs = 0
}.

Lemma level_const_fresh k : 1 <= p cfg -> 1 <= m cfg ->
  level_const k (fresh_level cfg) [].
Proof.
  intros Hp Hm. split; simpl; try done.
  - intros i x Hx Hv. pose proof (aget_Some_lt _ _ _ Hx) as Hi.
    rewrite alen_replicate in Hi. rewrite aget_replicate in Hx by done.
    by simplify_eq.
  - intros j Hj. unfold d_at. rewrite aget_replicate by lia. simpl. ring.
  - lia.
Qed.

Lemma level_const_carry w k l evs :
  1 <= m cfg < 2 ^ 32 -> (w == c)%Q -> level_const k l evs ->
  lv_full cfg (lv_insert w l) = true ->
  (lv_carry cfg (lv_insert w l) == c)%Q.
Proof.
  intros Hm Hw [_ _ Hacc Hnacc _ _ _] Hfull.
  unfold lv_full, lv_carry, lv_insert in *. simpl in *.
  rewrite u32_id in Hfull by lia. apply Z.eqb_eq in Hfull.
  rewrite Hacc, Hw, <- Hfull, inject_Z_plus.
  assert (inject_Z (l_nacc l) * c + c ==
          c * (inject_Z (l_nacc l) + inject_Z 1))%Q as -> by ring.
  apply Qdiv_mult_l. rewrite <- inject_Z_plus.
  intros E. unfold Qeq in E. simpl in E. lia.
Qed.

Lemma level_const_step w k l evs :
  cfg_ok cfg -> (w == c)%Q -> level_shape cfg l -> level_const k l evs ->
  level_const k (lv_step cfg w k l) (evs ++ lv_events cfg w k l).
Proof.
  intros Hcfg Hw [Ls Lc Ln Li] [Hsh Hcorr Hacc Hnacc Hbound Hzero Hnone].
  pose proof Hcfg as (Hnc & Hp & Hm & Hd & _).
  assert (0 <= d_min cfg <= p cfg) as Hdm.
  { rewrite Hd. split; [apply Z.div_pos; lia|].
    apply Z.div_le_upper_bound; nia. }
  destruct (lv_head_frame cfg w l) as (Hhs & Hhc & Hhn & Hhi).
  destruct (lv_step_frame cfg w k l) as (Hss & Hsa & Hsn & _).
  set (h := lv_head cfg w l) in *.
  set (lo := lv_lo cfg k).
  set (n := Z.to_nat (p cfg - lo)).
  assert (0 <= lo <= p cfg) as Hlo.
  { unfold lo, lv_lo. case_match; lia. }
  pose proof (products_lv_events cfg w k l) as Hnew. fold lo n h in Hnew.
  (* the buffer after the insertion holds [c] wherever it is valid *)
  assert (forall i x, aget (aset (l_shift l) (l_ii l) w) i = Some x ->
                      valid x = true -> (x == c)%Q) as Hsh'.
  { intros i x Hx Hv. destruct (Z.eq_dec i (l_ii l)) as [->|Hne].
    - rewrite aget_aset_eq in Hx by lia. by simplify_eq.
    - rewrite aget_aset_ne in Hx by done. by eapply Hsh. }
  assert (forall j, hit cfg lo n h j = true ->
                    (d_at (l_shift h) (slot cfg (l_ii h) j) == c)%Q) as Hx.
  { intros j Hj. unfold hit in Hj.
    apply andb_true_iff in Hj. destruct Hj as [_ Hv].
    rewrite Hhs, Hhi in *. unfold d_at in *.
    pose proof (slot_range cfg (l_ii l) j ltac:(lia)) as Hs.
    destruct (aget_lt_Some (aset (l_shift l) (l_ii l) w) (slot cfg (l_ii l) j))
      as [x Ex]; [rewrite alen_aset; lia|].
    rewrite Ex in *. simpl in *. by eapply Hsh'. }
  assert (d_at (l_shift h) (l_ii h) = w) as Hw0.
  { rewrite Hhs, Hhi. unfold d_at. by rewrite aget_aset_eq by lia. }
  split.
  - by rewrite Hss.
  - intros j Hj. rewrite products_app, Hnew.
    unfold lv_step, lv_advance, lv_correlate. simpl. fold lo n h.
    rewrite lv_loop_corr by (rewrite ?Hhc; lia).
    destruct (hit cfg lo n h j) eqn:Ehit.
    + rewrite Hw0, (Hx j Ehit), Hhc, (Hcorr j Hj), Hw, inject_Z_plus.
      cbn [d_add d_mul Double_Q]. ring.
    + rewrite Hhc, (Hcorr j Hj), Z.add_0_r. reflexivity.
  - rewrite Hsa, Hsn. unfold h, lv_head, lv_full, lv_insert, lv_reset. simpl.
    rewrite u32_id by lia.
    destruct (Z.eqb_spec (l_nacc l + 1) (m cfg)); simpl.
    + ring.
    + rewrite Hacc, Hw, inject_Z_plus. ring.
  - rewrite Hsn. unfold h, lv_head, lv_full, lv_insert, lv_reset. simpl.
    rewrite u32_id by lia.
    destruct (Z.eqb_spec (l_nacc l + 1) (m cfg)); simpl; lia.
  - intros j. rewrite products_app, insertions_app, insertions_lv_events,
      length_app, Hnew. simpl. specialize (Hbound j).
    destruct (hit cfg lo n h j); lia.
  - intros -> Hv. rewrite products_app, insertions_app, insertions_lv_events,
      length_app, Hnew, (Hzero eq_refl Hv). simpl.
    assert (hit cfg lo n h 0 = true) as ->; [|lia].
    unfold hit.
    assert (slot cfg (l_ii h) 0 = l_ii h) as ->.
    { unfold slot. rewrite Z.sub_0_r, Hhi. apply Z.mod_small. lia. }
    rewrite Hw0, (valid_Qeq w c Hw), Hv.
    change lo with 0 in *.
    destruct (Z.ltb_spec 0 (0 + Z.of_nat n)); [done|lia].
  - intros Hv j. rewrite products_app, Hnew, (Hnone Hv j).
    destruct (hit cfg lo n h j) eqn:Ehit; [|done].
    pose proof (Hx j Ehit) as Ex. apply valid_Qeq in Ex.
    unfold hit in Ehit. apply andb_true_iff in Ehit. destruct Ehit as [_ Hv'].
    congruence.
Qed.

(** What holds of the engine while it is fed [c]. *)
Definition const_inv s tr : Prop :=
  cascade_ok cfg s tr /\
  level_counts_all cfg s tr /\
  (forall k l, get_level k s = Some l -> level_const k l (at_level k tr)) /\
  (accval s == inject_Z (Z.of_nat (length (insertions 0 tr))) * c)%Q.

Lemma const_inv_fresh : cfg_ok cfg -> const_inv (fresh cfg) [].
Proof.
  intros (Hnc & Hp & Hm & _). split; [apply cascade_ok_fresh|].
  split; [apply level_counts_fresh; lia|]. split.
  - intros k l Hl. apply get_level_fresh_inv in Hl. subst l.
    apply level_const_fresh; lia.
  - simpl. ring.
Qed.

Lemma const_inv_add s tr w :
  cfg_ok cfg -> wf cfg s -> const_inv s tr -> (w == c)%Q ->
  const_inv (add_pure cfg (S (Z.to_nat (numcorrelators cfg - 0))) w 0 s).1
    (tr ++ (add_pure cfg (S (Z.to_nat (numcorrelators cfg - 0))) w 0 s).2).
Proof.
  intros Hcfg Hwf (Hcas & Hcnt & Hlev & Hacc) Hw.
  pose proof Hcfg as (Hnc & Hp & Hm & _).
  split; [by apply cascade_ok_add|].
  split; [by apply level_counts_add|]. split.
  - intros k l Hl.
    eapply (add_pure_levels_all cfg level_const level_const
              (fun w => (w == c)%Q)); [lia|done| | |done|apply Hw|apply Hlev|apply Hl].
    + intros w' k' l' evs Hw' Hshape Hc. by apply level_const_step.
    + intros w' k' l' evs Hw' Hshape Hc Hfull.
      eapply level_const_carry; [lia|done..].
  - destruct (wf_get_level cfg s 0 Hwf ltac:(lia)) as (l & Hl & _).
    rewrite (add_pure_accval_0 cfg _ w s l Hl) by lia.
    destruct (add_pure_insertions cfg (S (Z.to_nat (numcorrelators cfg - 0))) w 0 s
                Hwf ltac:(lia) ltac:(lia) ltac:(lia)) as [Hins0 _].
    rewrite insertions_app, length_app, Hins0, Nat2Z.inj_add, inject_Z_plus.
    cbn [d_add Double_Q length]. rewrite Hacc, Hw.
    change (inject_Z (Z.of_nat 1)) with 1%Q. ring.
Qed.

(** A bin of the engine: its count is the number of its product terms,
    its sum that many times [c * c]. *)
Lemma const_bin s tr k i n x :
  cfg_ok cfg -> wf cfg s -> const_inv s tr ->
  Z.of_nat (length (insertions 0 tr)) < 2 ^ 64 ->
  aget2 (ncorrelation s) k i = Some n ->
  aget2 (correlation s) k i = Some x ->
  n = products k i tr /\ (x == inject_Z n * (c * c))%Q /\
  (0 < n -> valid c = true).
Proof.
  intros Hcfg Hwf (Hcas & Hcnt & Hlev & _) HN Hn Hx.
  unfold aget2 in Hn, Hx.
  destruct (aget (ncorrelation s) k) as [row|] eqn:Erow; [|done].
  destruct (aget (correlation s) k) as [crow|] eqn:Ecrow; [|done].
  pose proof (aget_Some_lt _ _ _ Erow) as Hk.
  rewrite (wf_ncorrelation _ _ Hwf) in Hk.
  destruct (wf_get_level cfg s k Hwf Hk) as (l & Hl & Hshape).
  pose proof Hl as Hl'. apply get_level_Some in Hl'.
  destruct Hl' as (_ & Hcrow & Hrow & _).
  rewrite Erow in Hrow. rewrite Ecrow in Hcrow. simplify_eq.
  pose proof (aget_Some_lt _ _ _ Hn) as Hi.
  rewrite (ls_ncorr _ _ Hshape) in Hi.
  destruct (Hcnt k l Hl) as [_ Hc Hreal].
  destruct (Hlev k l Hl) as [_ Hcorr _ _ Hbound _ Hnone].
  specialize (Hc i Hi). rewrite Hreal in Hc.
  specialize (Hcorr i Hi). specialize (Hbound i).
  rewrite products_at_level in Hc, Hcorr, Hbound.
  rewrite insertions_at_level in Hbound.
  pose proof (insertions_le cfg s tr k Hcfg Hcas Hk) as Hle.
  pose proof (products_nonneg k i tr) as H0.
  rewrite u64_id in Hc by lia.
  unfold z_at in Hc. rewrite Hn in Hc. simpl in Hc.
  unfold d_at in Hcorr. rewrite Hx in Hcorr. simpl in Hcorr.
  split; [done|]. split; [by rewrite Hc|].
  intros Hpos. destruct (valid c) eqn:Hv; [done|].
  specialize (Hnone eq_refl i). rewrite products_at_level in Hnone. lia.
Qed.

(** The count of lag 0 at level 0 is the number of samples. *)
Lemma const_bin_00 s tr :
  cfg_ok cfg -> wf cfg s -> const_inv s tr ->
  Z.of_nat (length (insertions 0 tr)) < 2 ^ 64 -> valid c = true ->
  aget2 (ncorrelation s) 0 0 = Some (Z.of_nat (length (insertions 0 tr))) /\
  is_Some (aget2 (correlation s) 0 0).
Proof.
  intros Hcfg Hwf Hinv HN Hv.
  pose proof Hcfg as (Hnc & Hp & Hm & _).
  destruct (wf_get_level cfg s 0 Hwf ltac:(lia)) as (l & Hl & Hshape).
  pose proof Hl as Hl'. apply get_level_Some in Hl'.
  destruct Hl' as (_ & Hcrow & Hrow & _).
  destruct (aget_lt_Some (l_ncorr l) 0) as [n En];
    [rewrite (ls_ncorr _ _ Hshape); lia|].
  destruct (aget_lt_Some (l_corr l) 0) as [x Ex];
    [rewrite (ls_corr _ _ Hshape); lia|].
  assert (aget2 (ncorrelation s) 0 0 = Some n) as Hn.
  { unfold aget2. by rewrite Hrow. }
  assert (aget2 (correlation s) 0 0 = Some x) as Hx.
  { unfold aget2. by rewrite Hcrow. }
  destruct (const_bin s tr 0 0 n x Hcfg Hwf Hinv HN Hn Hx) as (Hnp & _).
  destruct Hinv as (_ & _ & Hlev & _).
  destruct (Hlev 0 l Hl) as [_ _ _ _ _ Hzero _].
  specialize (Hzero eq_refl Hv).
  rewrite products_at_level, insertions_at_level in Hzero.
  split; [|by rewrite Hx]. rewrite Hn. f_equal. lia.
Qed.

(** The squared mean that [evaluate(true)] subtracts is [c * c]. *)
Lemma const_aux s tr :
  cfg_ok cfg -> wf cfg s -> const_inv s tr ->
  1 <= Z.of_nat (length (insertions 0 tr)) < 2 ^ 64 -> valid c = true ->
  (eval_aux true s == c * c)%Q.
Proof.
  intros Hcfg Hwf Hinv HN Hv. unfold eval_aux.
  destruct (const_bin_00 s tr Hcfg Hwf Hinv ltac:(lia) Hv) as [-> _]. simpl.
  destruct Hinv as (_ & _ & _ & Hacc). rewrite Hacc.
  set (N := inject_Z (Z.of_nat (length (insertions 0 tr)))).
  assert (~ (N == 0)%Q) as HN0.
  { unfold N. intros E. unfold Qeq in E. simpl in E. lia. }
  assert (N * c / N == c)%Q as ->.
  { rewrite Qmult_comm. by apply Qdiv_mult_l. }
  reflexivity.
Qed.

(** Every pair [evaluate] emits has the value [c * c], and 0 when the
    squared mean is subtracted. *)
Lemma const_point s tr (norm : bool) k i pt :
  cfg_ok cfg -> wf cfg s -> const_inv s tr ->
  1 <= Z.of_nat (length (insertions 0 tr)) < 2 ^ 64 ->
  point cfg (eval_aux norm s) s k i = Some pt ->
  (pt.2 == if norm then 0 else c * c)%Q.
Proof.
  intros Hcfg Hwf Hinv HN Hpt.
  unfold point, point_with in Hpt.
  destruct (aget2 (ncorrelation s) k i) as [n|] eqn:En; [|done].
  destruct (aget2 (correlation s) k i) as [x|] eqn:Ex; [|done].
  destruct (Z.ltb_spec 0 n) as [Hpos|]; [|done]. simplify_eq. simpl.
  destruct (const_bin s tr k i n x Hcfg Hwf Hinv ltac:(lia) En Ex)
    as (_ & Hx & Hv).
  specialize (Hv Hpos).
  assert (~ (inject_Z n == 0)%Q) as Hn0.
  { intros E. unfold Qeq in E. simpl in E. lia. }
  assert (x / inject_Z n == c * c)%Q as Hq.
  { rewrite Hx, Qmult_comm. by apply Qdiv_mult_l. }
  rewrite Hq. destruct norm; [|simpl; ring].
  rewrite (const_aux s tr Hcfg Hwf Hinv HN Hv). ring.
Qed.

Lemma const_points s tr (norm : bool) :
  cfg_ok cfg -> wf cfg s -> const_inv s tr ->
  1 <= Z.of_nat (length (insertions 0 tr)) < 2 ^ 64 ->
  Forall (fun pt : Q * Q => (pt.2 == if norm then 0 else c * c)%Q)
         (eval_points cfg norm s).
Proof.
  intros Hcfg Hwf Hinv HN. apply Forall_forall. intros pt Hpt.
  unfold eval_points, level_points in Hpt.
  apply elem_of_app in Hpt. destruct Hpt as [Hpt|Hpt].
  - apply list_elem_of_omap in Hpt. destruct Hpt as (i & _ & Hpt).
    by eapply const_point.
  - apply list_elem_of_join in Hpt. destruct Hpt as (pts & Hpt & Hpts).
    apply list_elem_of_fmap in Hpts. destruct Hpts as (k & -> & _).
    apply list_elem_of_omap in Hpt. destruct Hpt as (i & _ & Hpt).
    by eapply const_point.
Qed.

(** With a valid [c], lag 0 is among the pairs. *)
Lemma const_points_nonempty s tr (norm : bool) :
  cfg_ok cfg -> wf cfg s -> const_inv s tr ->
  1 <= Z.of_nat (length (insertions 0 tr)) < 2 ^ 64 -> valid c = true ->
  (0 < length (eval_points cfg norm s))%nat.
Proof.
  intros Hcfg Hwf Hinv HN Hv.
  pose proof Hcfg as (Hnc & Hp & _).
  destruct (const_bin_00 s tr Hcfg Hwf Hinv ltac:(lia) Hv) as [Hn [x Hx]].
  unfold eval_points, level_points. rewrite length_app.
  replace (p cfg - 0) with (Z.of_nat (S (Z.to_nat (p cfg - 1)))) by lia.
  rewrite seqZ_S_cons, omap_cons_eq.
  unfold point at 1, point_with. rewrite Hn, Hx.
  destruct (Z.ltb_spec 0 (Z.of_nat (length (insertions 0 tr)))); [|lia].
  simpl. lia.
Qed.

End Constant.

Section ConstantClaim.
Variable cfg : config.
Variable c : Q.

(** C5: on a freshly initialized engine fed the constant [c] by
    [add(c, 0)] for [N] samples, with [N] at least [p * m^(numcorrelators-1)]
    and below [2^64], the width of the counters, [evaluate] returns and, in
    exact arithmetic, every one of the [npcorr] values it leaves in [f] is
    [c * c] for [evaluate(false)] and [0] for [evaluate(true)]; when [c]
    passes the validity test, [npcorr] is positive and the correction
    [(accval / ncorrelation[0][0])^2] that [evaluate(true)] subtracts is
    [c * c]. *)
Theorem constant_signal (N : nat) (norm : bool) s0 :
  cfg_ok cfg -> shaped cfg s0 ->
  p cfg * m cfg ^ (numcorrelators cfg - 1) <= Z.of_nat N < 2 ^ 64 ->
  exists s tr s',
    bind (initialize cfg) (fun _ => feed cfg (replicate N c)) s0
      = Done (tt, s, tr) /\
    evaluate cfg norm s = Done (tt, s', []) /\
    Forall (fun x => (x == if norm then 0 else c * c)%Q)
           (take (Z.to_nat (npcorr s')) (f s')) /\
    (d_gt c d_m1e10 = true ->
     0 < npcorr s' /\ (eval_aux true s == c * c)%Q).
Proof.
  intros Hcfg Hs0 HN.
  pose proof Hcfg as (Hnc & Hp & Hm & _).
  assert (1 <= Z.of_nat N) as HN1.
  { assert (0 < m cfg ^ (numcorrelators cfg - 1))
      by (apply Z.pow_pos_nonneg; lia).
    nia. }
  pose proof (initialize_runs cfg s0 Hs0 ltac:(lia) ltac:(lia)) as Hini.
  destruct (feed_invariant cfg (const_inv cfg c) (fun w => (w == c)%Q) Hcfg)
    with (ws := replicate N c) (s := fresh cfg) (tr0 := @nil (event Q))
    as (s & tr & Hrun & Hwf & Hinv & Hins).
  { intros s tr w Hwf Hinv Hw. by apply const_inv_add. }
  { apply Forall_replicate. reflexivity. }
  { by apply fresh_wf. }
  { by apply const_inv_fresh. }
  simpl in Hinv.
  assert (Z.of_nat (length (insertions 0 tr)) = Z.of_nat N) as Hlen.
  { by rewrite Hins, length_replicate. }
  destruct (evaluate_runs cfg norm s Hcfg Hwf) as [Hev _].
  destruct (evaluated_out cfg norm s) as (Hnp & _ & Hf).
  exists s, tr, (evaluated cfg norm s).
  split; [|split; [apply Hev|split]].
  - unfold runs, bind in *. by rewrite Hini, Hrun.
  - rewrite Hnp, Nat2Z.id, Hf. apply Forall_fmap.
    apply (const_points cfg c s tr norm Hcfg Hwf Hinv). lia.
  - intros Hv. split.
    + rewrite Hnp.
      pose proof (const_points_nonempty cfg c s tr norm Hcfg Hwf Hinv
                    ltac:(lia) Hv). lia.
    + apply (const_aux cfg c s tr Hcfg Hwf Hinv); [lia|done].
Qed.

End ConstantClaim.

(** * A concrete engine

    Three levels of four bins with decimation by two, over the
    rationals: the instance the general results are applied to. *)

Definition cfgW : config := Config 3 4 2 2 12.

Lemma cfgW_setsize : setsize 3 4 2 = Some cfgW.
Proof. reflexivity. Qed.

Lemma cfgW_ok : cfg_ok cfgW.
Proof. unfold cfg_ok, cfgW; simpl. repeat split; lia. Qed.

(** A run: allocation (with arbitrary contents), [initialize], then
    eight samples with an evaluation in between. *)
Definition opsW : list (op Q) :=
  [OpAdd 1%Q 0; OpAdd 2%Q 0; OpEvaluate true; OpAdd 3%Q 0; OpAdd 4%Q 0;
   OpAdd 5%Q 0; OpAdd 6%Q 0; OpAdd 7%Q 0; OpAdd 8%Q 0].

Definition runW : outcome (unit * state Q * list (event Q)) :=
  bind (initialize cfgW) (fun _ => exec_ops cfgW opsW) (allocate cfgW 7%Q 9).

Definition sW : state Q :=
  match runW with Done (_, s, _) => s | _ => fresh cfgW end.

Definition trW : list (event Q) :=
  match runW with Done (_, _, tr) => tr | _ => [] end.

Lemma reachableW : reachable cfgW sW trW.
Proof.
  exists (allocate cfgW 7%Q 9), opsW. split.
  - apply allocate_shaped; simpl; lia.
  - vm_compute. reflexivity.
Qed.

Lemma sW_wf : wf cfgW sW.
Proof.
  apply (reachable_invariant cfgW (fun _ _ => True) cfgW_ok) with (tr := trW);
    auto using reachableW.
Qed.

Lemma add_beyond_depth_faults_witness :
  add cfgW 1 (1%Q) 4 (fresh cfgW) = Fault.
Proof.
  apply (add_beyond_depth_faults cfgW 0 1%Q 4 (fresh cfgW)).
  - apply fresh_wf, cfgW_ok.
  - simpl. lia.
Defined.

(** Seven samples: the accumulators of levels 0 and 1 each hold one
    value, so that the eighth sample cascades through all three levels. *)
Definition runW7 : outcome (unit * state Q * list (event Q)) :=
  bind (initialize cfgW) (fun _ => feed cfgW [1; 2; 3; 4; 5; 6; 7]%Q)
       (allocate cfgW 7%Q 9).

Definition sW7 : state Q :=
  match runW7 with Done (_, s, _) => s | _ => fresh cfgW end.

Definition trW7 : list (event Q) :=
  match runW7 with Done (_, _, tr) => tr | _ => [] end.

Lemma reachableW7 : reachable cfgW sW7 trW7.
Proof.
  exists (allocate cfgW 7%Q 9),
         ((fun w => OpAdd w 0) <$> [1; 2; 3; 4; 5; 6; 7]%Q).
  split.
  - apply allocate_shaped; simpl; lia.
  - vm_compute. reflexivity.
Qed.

Lemma sW7_wf : wf cfgW sW7.
Proof.
  apply (reachable_invariant cfgW (fun _ _ => True) cfgW_ok) with (tr := trW7);
    auto using reachableW7.
Qed.

Lemma add_terminates_witness :
  add cfgW 4 8%Q 0 sW7 <> OutOfFuel /\
  (0 <= numcorrelators cfgW ->
   exists s' tr r,
     add cfgW 4 8%Q 0 sW7 = Done (tt, s', tr) /\ wf cfgW s' /\
     0 <= r <= numcorrelators cfgW - 0 /\ insert_levels tr = seqZ 0 r /\
     (0 < numcorrelators cfgW -> 1 <= r /\ insertions 0 tr = [8%Q]) /\
     (forall j l, 0 <= j < numcorrelators cfgW -> get_level j sW7 = Some l ->
        match insertions j tr with
        | [] =>
            get_level j s' = Some l /\
            (j + 1 < numcorrelators cfgW -> insertions (j + 1) tr = [])
        | x :: rest =>
            rest = [] /\
            aget2 (shift s') j (l_ii l) = Some x /\
            aget (accumulator s') j =
              Some (if u32 (l_nacc l + 1) =? m cfgW then d_of_Z 0
                    else d_add (l_acc l) x) /\
            aget (naccumulator s') j =
              Some (if u32 (l_nacc l + 1) =? m cfgW then 0
                    else u32 (l_nacc l + 1)) /\
            aget (insertindex s') j =
              Some (if u32 (l_ii l + 1) =? p cfgW then 0
                    else u32 (l_ii l + 1)) /\
            (j + 1 < numcorrelators cfgW ->
             insertions (j + 1) tr =
               if u32 (l_nacc l + 1) =? m cfgW
               then [d_div (d_add (l_acc l) x) (d_of_Z (m cfgW))] else [])
        end)).
Proof.
  apply (add_terminates cfgW 4 8%Q 0 sW7 cfgW_ok sW7_wf).
  - lia.
  - simpl. lia.
  - discriminate.
Defined.

(** The eighth sample is inserted at level 0, the mean [15/2] of 7 and 8
    at level 1 and the mean [13/2] of [11/2] and [15/2] at level 2; the
    mean carried by level 2 is dropped at the depth.  That takes the four
    nested calls: with fuel for three the model does not return. *)
Example cascade_W7 :
  add cfgW 3 8%Q 0 sW7 = OutOfFuel /\
  exists s' tr,
    add cfgW 4 8%Q 0 sW7 = Done (tt, s', tr) /\
    insert_levels tr = [0; 1; 2] /\
    Qred <$> insertions 1 tr = [15 # 2]%Q /\
    Qred <$> insertions 2 tr = [13 # 2]%Q /\
    aget (naccumulator sW7) 0 = Some 1 /\ aget (naccumulator sW7) 1 = Some 1 /\
    naccumulator s' = [0; 0; 0].
Proof.
  split; [vm_compute; reflexivity|].
  eexists _, _. split; [vm_compute; reflexivity|].
  vm_compute. repeat split; reflexivity.
Qed.

Lemma add_frame_below_witness :
  exists s' tr,
    add cfgW 3 (5#2)%Q 1 sW = Done (tt, s', tr) /\
    accval s' = accval sW /\
    forall j, j < 1 ->
      get_level j s' = get_level j sW /\
      aget (shift s') j = aget (shift sW) j /\
      aget (correlation s') j = aget (correlation sW) j /\
      aget (ncorrelation s') j = aget (ncorrelation sW) j /\
      aget (accumulator s') j = aget (accumulator sW) j /\
      aget (naccumulator s') j = aget (naccumulator sW) j /\
      aget (insertindex s') j = aget (insertindex sW) j.
Proof.
  apply (add_frame_below cfgW 3 (5#2)%Q 1 sW cfgW_ok sW_wf).
  - simpl. lia.
  - simpl. lia.
Defined.

Lemma invariants_preserved_witness : ranges_ok cfgW sW.
Proof. exact (invariants_preserved cfgW sW trW cfgW_ok reachableW). Defined.

Lemma evaluate_pure_and_idempotent_witness :
  exists s',
    evaluate cfgW true sW = Done (tt, s', []) /\
    (shift s' = shift sW /\ correlation s' = correlation sW /\
     ncorrelation s' = ncorrelation sW /\ accumulator s' = accumulator sW /\
     naccumulator s' = naccumulator sW /\ insertindex s' = insertindex sW /\
     kmax s' = kmax sW /\ accval s' = accval sW) /\
    evaluate cfgW true s' = Done (tt, s', []).
Proof. exact (evaluate_pure_and_idempotent cfgW true sW cfgW_ok sW_wf). Defined.

Lemma evaluate_output_witness :
  exists s',
    evaluate cfgW false sW = Done (tt, s', []) /\
    npcorr s' = Z.of_nat (length (eval_points cfgW false sW)) /\
    take (length (eval_points cfgW false sW)) (t s') =
      (eval_points cfgW false sW).*1 /\
    take (length (eval_points cfgW false sW)) (f s') =
      (eval_points cfgW false sW).*2.
Proof. exact (evaluate_output cfgW false sW cfgW_ok sW_wf). Defined.

(** The pairs this engine emits after the run: level 0 has its four lags
    and level 1, reached by the cascade together with level 2, its lags
    2 and 3 scaled by 2. *)
Example eval_points_W :
  (eval_points cfgW false sW).*1 = [0; 1; 2; 3; 4; 6]%Q.
Proof. vm_compute. reflexivity. Qed.

Lemma ncorrelation_counts_real_products_witness :
  aget2 (correlation sW) 0 1 = Some (sum_terms (product_terms [] 0 1 trW)) /\
  Z.of_nat (length (product_terms [] 0 1 trW)) = products 0 1 trW /\
  Forall (fun ab : Q * Q => ab.1 ∈ insertions 0 trW /\ ab.2 ∈ insertions 0 trW)
         (product_terms [] 0 1 trW) /\
  7 = u64 (real_products 0 1 trW) /\
  real_products 0 1 trW = products 0 1 trW /\
  (real_products 0 1 trW < 2 ^ 64 -> 7 = real_products 0 1 trW).
Proof.
  exact (ncorrelation_counts_real_products cfgW sW trW 0 1 7 cfgW_ok eq_refl
           reachableW eq_refl).
Defined.

(** The seven terms of lag 1 at level 0 after the samples 1, ..., 8, and
    their sum [2*1 + 3*2 + ... + 8*7 = 168]. *)
Example product_terms_W :
  product_terms [] 0 1 trW =
    [(2, 1); (3, 2); (4, 3); (5, 4); (6, 5); (7, 6); (8, 7)]%Q /\
  Qred <$> aget2 (correlation sW) 0 1 = Some 168%Q.
Proof. vm_compute. split; reflexivity. Qed.

(** After the eight samples, lag 1 of level 0 has seven terms and lag 3
    of level 1, whose buffer holds four block averages, one. *)
Example products_W :
  products 0 1 trW = 7 /\ aget2 (ncorrelation sW) 1 3 = Some 1 /\
  products 1 3 trW = 1 /\ products 1 1 trW = 0.
Proof. vm_compute. repeat split; reflexivity. Qed.

(** The constant [3/2], sixteen times. *)
Definition runK : outcome (unit * state Q * list (event Q)) :=
  bind (initialize cfgW) (fun _ => feed cfgW (replicate 16 (3 # 2)%Q))
       (allocate cfgW 7%Q 9).

Definition sK : state Q :=
  match runK with Done (_, s, _) => s | _ => fresh cfgW end.

Lemma constant_signal_witness :
  exists s tr s',
    bind (initialize cfgW) (fun _ => feed cfgW (replicate 16 (3 # 2)%Q))
         (allocate cfgW 7%Q 9) = Done (tt, s, tr) /\
    evaluate cfgW true s = Done (tt, s', []) /\
    Forall (fun x => (x == 0)%Q) (take (Z.to_nat (npcorr s')) (f s')) /\
    (d_gt (3 # 2)%Q d_m1e10 = true ->
     0 < npcorr s' /\ (eval_aux true s == (3 # 2) * (3 # 2))%Q).
Proof.
  apply (constant_signal cfgW (3 # 2)%Q 16 true (allocate cfgW 7%Q 9) cfgW_ok).
  - apply allocate_shaped; simpl; lia.
  - simpl. lia.
Defined.

(** The six pairs emitted after this run, and their values. *)
Example eval_points_K :
  (eval_points cfgW false sK).*1 = [0; 1; 2; 3; 4; 6]%Q /\
  Qred <$> (eval_points cfgW false sK).*2 = replicate 6 (9 # 4)%Q /\
  Qred <$> (eval_points cfgW true sK).*2 = replicate 6 0%Q.
Proof. vm_compute. repeat split; reflexivity. Qed.

(** ** Lag coverage on two engines with [p = 16] and [m = 2] *)

(** Four levels, 64 samples: the cascade reaches level 3, and levels 1
    and 2 are emitted. *)
Definition cfgL : config := Config 4 16 2 8 64.

Lemma cfgL_ok : cfg_ok cfgL.
Proof. unfold cfg_ok, cfgL; simpl. repeat split; lia. Qed.

Definition runL : outcome (unit * state Q * list (event Q)) :=
  bind (initialize cfgL) (fun _ => feed cfgL (replicate 64 1%Q))
       (allocate cfgL 0%Q 0).

Definition sL : state Q :=
  match runL with Done (_, s, _) => s | _ => fresh cfgL end.

Definition trL : list (event Q) :=
  match runL with Done (_, _, tr) => tr | _ => [] end.

Lemma reachableL : reachable cfgL sL trL.
Proof.
  exists (allocate cfgL 0%Q 0), ((fun w => OpAdd w 0) <$> replicate 64 1%Q).
  split.
  - apply allocate_shaped; simpl; lia.
  - vm_compute. reflexivity.
Qed.

Lemma sL_wf : wf cfgL sL.
Proof.
  apply (reachable_invariant cfgL (fun _ _ => True) cfgL_ok) with (tr := trL);
    auto using reachableL.
Qed.

Lemma lag_coverage_witness :
  exists s',
    evaluate cfgL false sL = Done (tt, s', []) /\
    take (Z.to_nat (npcorr s')) (t s') =
    (d_of_Z <$> seqZ 0 16) ++
    mjoin ((fun k => (fun i => d_mul (d_of_Z i) (d_pow (d_of_Z 2) k))
                       <$> seqZ 8 8)
             <$> seqZ 1 (kmax sL - 1)).
Proof.
  apply (lag_coverage cfgL false sL cfgL_ok).
  - reflexivity.
  - reflexivity.
  - apply sL_wf.
  - vm_compute. reflexivity.
Defined.

Example lags_L :
  kmax sL = 3 /\
  (eval_points cfgL false sL).*1 =
  inject_Z <$> [0; 1; 2; 3; 4; 5; 6; 7; 8; 9; 10; 11; 12; 13; 14; 15;
                16; 18; 20; 22; 24; 26; 28; 30;
                32; 36; 40; 44; 48; 52; 56; 60].
Proof. split; vm_compute; reflexivity. Qed.

(** Two levels, 64 samples: level 1 has been reached by the cascade (it
    has received 32 insertions and all its bins from 8 on are populated),
    and [evaluate] emits the lags of level 0 only. *)
Definition cfgC : config := Config 2 16 2 8 32.

Definition runC : outcome (unit * state Q * list (event Q)) :=
  bind (initialize cfgC) (fun _ => feed cfgC (replicate 64 1%Q))
       (allocate cfgC 0%Q 0).

Definition sC : state Q :=
  match runC with Done (_, s, _) => s | _ => fresh cfgC end.

Lemma lag_coverage_counterexample :
  p cfgC = 16 /\ m cfgC = 2 /\
  (exists tr, runC = Done (tt, sC, tr) /\ length (insertions 1 tr) = 32%nat) /\
  kmax sC = 1 /\
  aget (insertindex sC) 1 = Some 0 /\
  populated cfgC sC 1 8 = true /\
  exists s',
    evaluate cfgC false sC = Done (tt, s', []) /\
    npcorr s' = 16 /\
    take (Z.to_nat (npcorr s')) (t s') = inject_Z <$> seqZ 0 16 /\
    Forall (fun x => ~ (x == 16)%Q) (take (Z.to_nat (npcorr s')) (t s')).
Proof.
  split; [reflexivity|]. split; [reflexivity|].
  split; [|split; [|split; [|split]]].
  - eexists. split; vm_compute; reflexivity.
  - vm_compute. reflexivity.
  - vm_compute. reflexivity.
  - vm_compute. reflexivity.
  - eexists. split; [vm_compute; reflexivity|].
    split; [reflexivity|]. split; [vm_compute; reflexivity|].
    vm_compute.
    repeat (constructor; [intros H; vm_compute in H; discriminate H|]).
    constructor.
Qed.

(** ** Cascade timing on two engines *)

Lemma cascade_timing_witness :
  (exists s tr,
     bind (initialize cfgW) (fun _ => feed cfgW [3; 5]%Q) (allocate cfgW 7%Q 9)
       = Done (tt, s, tr) /\
     insertions 1 tr = [d_div (foldl d_add (d_of_Z 0) [3; 5]%Q) (d_of_Z (m cfgW))] /\
     aget (naccumulator s) 0 = Some 0 /\
     aget (insertindex s) 1 = Some (1 mod p cfgW)) /\
  (exists s tr,
     bind (initialize cfgW) (fun _ => feed cfgW [1; 2; 3; 4]%Q)
       (allocate cfgW 7%Q 9) = Done (tt, s, tr) /\
     length (insertions 2 tr) = 1%nat).
Proof.
  destruct (cascade_timing cfgW (allocate cfgW 7%Q 9) cfgW_ok) as [H1 H2].
  - simpl. lia.
  - apply allocate_shaped; simpl; lia.
  - split.
    + apply (H1 [3; 5]%Q). reflexivity.
    + apply (H2 ltac:(simpl; lia) [1; 2; 3; 4]%Q). reflexivity.
Defined.

(** Two levels and [m = 2]: after [m * m = 4] samples the average of the
    second level-1 group is presented to level 2, which does not exist,
    and is dropped: no insertion at level 2. *)
Lemma cascade_timing_counterexample :
  2 <= numcorrelators cfgC /\ 1 <= m cfgC /\
  Z.of_nat (length [1; 2; 3; 4]%Q) = m cfgC * m cfgC /\
  exists s tr,
    bind (initialize cfgC) (fun _ => feed cfgC [1; 2; 3; 4]%Q)
      (allocate cfgC 0%Q 0) = Done (tt, s, tr) /\
    length (insertions 1 tr) = 2%nat /\
    insertions 2 tr = [] /\
    get_level 2 s = None.
Proof.
  split; [simpl; lia|]. split; [simpl; lia|]. split; [reflexivity|].
  eexists _, _. split; [vm_compute; reflexivity|].
  split; [|split]; vm_compute; reflexivity.
Qed.

(** * The contents of a level, from the values it has received

    Whatever the calls that led to it, the state of a level is a
    function of the list of values inserted at that level: its buffer
    holds the last [p] of them, and each bin the sum and the number of
    the products of a value with the one [j] places before it. *)

Section History.
Context {D : Type} {DD : Double D}.
Implicit Types (s : state D) (l : level D) (k j : Z) (tr : list (event D)).
Implicit Types (vs : list D).
Variable cfg : config.

(** The value number [t] (from 0) is paired with the one [j] places
    before it: [j] is a lag of the loop of level [k], there is such a
    value, and it passes the validity test. *)
Definition pair_ok (k : Z) vs (t j : Z) : bool :=
  (lv_lo cfg k <=? j) && (j <? p cfg) && (j <=? t) && valid (d_at vs (t - j)).

(** The products of lag [j] among the first [n] values, added up in the
    order of arrival, and their number. *)
Fixpoint corr_sum (k : Z) vs (j : Z) (n : nat) : D :=
  match n with
  | O => d_of_Z 0
  | S n' =>
      if pair_ok k vs (Z.of_nat n') j
      then d_add (corr_sum k vs j n')
                 (d_mul (d_at vs (Z.of_nat n')) (d_at vs (Z.of_nat n' - j)))
      else corr_sum k vs j n'
  end.

Fixpoint pair_count (k : Z) vs (j : Z) (n : nat) : Z :=
  match n with
  | O => 0
  | S n' => pair_count k vs j n' + (if pair_ok k vs (Z.of_nat n') j then 1 else 0)
  end.

Lemma d_at_app_l vs ws i : i < alen vs -> d_at (vs ++ ws) i = d_at vs i.
Proof.
  intros Hi. unfold d_at, aget, alen in *.
  destruct (Z.leb_spec 0 i); [|done]. by rewrite lookup_app_l by lia.
Qed.

Lemma d_at_app_last vs w : d_at (vs ++ [w]) (alen vs) = w.
Proof.
  unfold d_at, aget, alen. destruct (Z.leb_spec 0 (Z.of_nat (length vs))); [|lia].
  by rewrite Nat2Z.id, list_lookup_middle.
Qed.

Lemma alen_app_one vs w : alen (vs ++ [w]) = alen vs + 1.
Proof. unfold alen. rewrite length_app. simpl. lia. Qed.

Lemma pair_ok_app k vs ws t j :
  0 <= j -> t < alen vs -> pair_ok k (vs ++ ws) t j = pair_ok k vs t j.
Proof. intros Hj Ht. unfold pair_ok. by rewrite d_at_app_l by lia. Qed.

Lemma corr_sum_app k vs ws j n :
  0 <= j -> (n <= length vs)%nat -> corr_sum k (vs ++ ws) j n = corr_sum k vs j n.
Proof.
  intros Hj. induction n as [|n IH]; intros Hn; [done|].
  cbn [corr_sum]. unfold alen in *.
  rewrite pair_ok_app, IH, !d_at_app_l by (unfold alen; lia). done.
Qed.

Lemma pair_count_app k vs ws j n :
  0 <= j -> (n <= length vs)%nat ->
  pair_count k (vs ++ ws) j n = pair_count k vs j n.
Proof.
  intros Hj. induction n as [|n IH]; intros Hn; [done|].
  cbn [pair_count]. rewrite pair_ok_app, IH by (unfold alen; lia). done.
Qed.

Lemma pair_count_nonneg k vs j n : 0 <= pair_count k vs j n <= Z.of_nat n.
Proof.
  induction n as [|n IH]; [simpl; lia|]. cbn [pair_count]. case_match; lia.
Qed.

(** The buffer of a level: its insertion point and the value [d] places
    back from the last one, if there is one; the slots never written
    keep what [initialize] put there. *)
Record level_ring (k : Z) l (evs : list (event D)) : Prop := {
  lr_ii : l_ii l = alen (insertions k evs) mod p cfg;
  lr_shift : forall d, 0 <= d < p cfg ->
    aget (l_shift l) ((alen (insertions k evs) - 1 - d) mod p cfg) =
    Some (if d <? alen (insertions k evs)
          then d_at (insertions k evs) (alen (insertions k evs) - 1 - d)
          else d_m2e10)
}.

Record level_sums (k : Z) l (evs : list (event D)) : Prop := {
  lsm_corr : forall j, 0 <= j < p cfg ->
    d_at (l_corr l) j =
    corr_sum k (insertions k evs) j (length (insertions k evs));
  lsm_ncorr : forall j, 0 <= j < p cfg ->
    z_at (l_ncorr l) j =
    u64 (pair_count k (insertions k evs) j (length (insertions k evs)))
}.

Lemma level_ring_fresh k : 1 <= p cfg -> level_ring k (fresh_level cfg) [].
Proof.
  intros Hp.
  split; simpl.
  - by rewrite Z.mod_0_l by lia.
  - intros d Hd. change (alen (@nil D)) with 0. rewrite aget_replicate.
    + destruct (Z.ltb_spec d 0); [lia|done].
    + pose proof (Z.mod_pos_bound (0 - 1 - d) (p cfg)). lia.
Qed.

Lemma level_sums_fresh k : 1 <= p cfg -> level_sums k (fresh_level cfg) [].
Proof.
  intros Hp. split; intros j Hj; simpl.
  - unfold d_at. by rewrite aget_replicate by lia.
  - unfold z_at. by rewrite aget_replicate by lia.
Qed.

Lemma level_ring_step w k l evs :
  1 <= p cfg < 2 ^ 32 -> level_shape cfg l -> level_ring k l evs ->
  level_ring k (lv_step cfg w k l) (evs ++ lv_events cfg w k l).
Proof.
  intros Hp [Ls Lc Ln Li] [Hii Hsh].
  destruct (lv_step_frame cfg w k l) as (Hss & _ & _ & Hsi).
  set (vs := insertions k evs) in *.
  split; rewrite insertions_app, insertions_lv_events; fold vs;
    rewrite alen_app_one.
  - rewrite Hsi. unfold alen in *.
    replace (Z.of_nat (length vs) + 1) with (Z.of_nat (length vs + 1)) by lia.
    by apply lv_advance_mod.
  - intros d Hd. rewrite Hss.
    replace (alen vs + 1 - 1 - d) with (alen vs - d) by lia.
    destruct (Z.eq_dec d 0) as [->|Hd0].
    + rewrite Z.sub_0_r, <- Hii, aget_aset_eq by lia.
      destruct (Z.ltb_spec 0 (alen vs + 1)); [|unfold alen in *; lia].
      by rewrite d_at_app_last.
    + assert ((alen vs - d) mod p cfg <> l_ii l) as Hne.
      { rewrite Hii. intros E.
        assert ((alen vs - (alen vs - d)) mod p cfg = 0) as E0.
        { rewrite Zminus_mod, E, Z.sub_diag. apply Z.mod_0_l. lia. }
        replace (alen vs - (alen vs - d)) with d in E0 by lia.
        rewrite Z.mod_small in E0 by lia. lia. }
      rewrite aget_aset_ne by done.
      specialize (Hsh (d - 1) ltac:(lia)).
      replace (alen vs - 1 - (d - 1)) with (alen vs - d) in Hsh by lia.
      rewrite Hsh. f_equal.
      destruct (Z.ltb_spec (d - 1) (alen vs)), (Z.ltb_spec d (alen vs + 1));
        try lia; [|done].
      by rewrite d_at_app_l by lia.
Qed.

(** The validity test of the loop at lag [j] is the test [pair_ok]. *)
Lemma hit_pair_ok w k l evs j :
  valid d_m2e10 = false -> 1 <= p cfg < 2 ^ 32 -> 0 <= d_min cfg <= p cfg ->
  level_shape cfg l -> level_ring k l evs -> 0 <= j < p cfg ->
  hit cfg (lv_lo cfg k) (Z.to_nat (p cfg - lv_lo cfg k)) (lv_head cfg w l) j =
  pair_ok k (insertions k evs ++ [w]) (alen (insertions k evs)) j /\
  d_at (l_shift (lv_head cfg w l))
       (slot cfg (l_ii (lv_head cfg w l)) j) =
  (if j <=? alen (insertions k evs)
   then d_at (insertions k evs ++ [w]) (alen (insertions k evs) - j)
   else d_m2e10) /\
  d_at (l_shift (lv_head cfg w l)) (l_ii (lv_head cfg w l)) = w.
Proof.
  intros Hsent Hp Hd Hshape Hring Hj.
  pose proof (level_ring_step w k l evs Hp Hshape Hring) as [_ Hsh'].
  rewrite insertions_app, insertions_lv_events in Hsh'.
  destruct Hring as [Hii _]. destruct Hshape as [Ls Lc Ln Li].
  destruct (lv_head_frame cfg w l) as (Hhs & _ & _ & Hhi).
  destruct (lv_step_frame cfg w k l) as (Hss & _).
  set (vs := insertions k evs) in *.
  rewrite alen_app_one in Hsh'.
  assert (0 <= lv_lo cfg k <= p cfg) as Hlo.
  { unfold lv_lo. case_match; lia. }
  assert (slot cfg (l_ii l) j = (alen vs + 1 - 1 - j) mod p cfg) as Hslot.
  { unfold slot. rewrite Hii, Zminus_mod_idemp_l. f_equal. lia. }
  assert (d_at (l_shift (lv_head cfg w l)) (slot cfg (l_ii (lv_head cfg w l)) j) =
          if j <=? alen vs then d_at (vs ++ [w]) (alen vs - j) else d_m2e10)
    as Hval.
  { rewrite Hhs, Hhi, Hslot, <- Hss. unfold d_at at 1.
    rewrite (Hsh' j Hj). simpl.
    replace (alen vs + 1 - 1 - j) with (alen vs - j) by lia.
    destruct (Z.ltb_spec j (alen vs + 1)), (Z.leb_spec j (alen vs)); done || lia. }
  split; [|split; [exact Hval|]].
  - unfold hit, pair_ok. rewrite Hval.
    replace (lv_lo cfg k + Z.of_nat (Z.to_nat (p cfg - lv_lo cfg k)))
      with (p cfg) by lia.
    destruct (Z.leb_spec j (alen vs)); [by rewrite andb_true_r|].
    by rewrite Hsent, !andb_false_r.
  - rewrite Hhs, Hhi. unfold d_at. by rewrite aget_aset_eq by lia.
Qed.

Lemma level_sums_step w k l evs :
  valid d_m2e10 = false -> 1 <= p cfg < 2 ^ 32 -> 0 <= d_min cfg <= p cfg ->
  level_shape cfg l -> level_ring k l evs -> level_sums k l evs ->
  level_sums k (lv_step cfg w k l) (evs ++ lv_events cfg w k l).
Proof.
  intros Hsent Hp Hd Hshape Hring [Hcorr Hncorr].
  destruct (lv_head_frame cfg w l) as (_ & Hhc & Hhn & _).
  assert (0 <= lv_lo cfg k <= p cfg) as Hlo.
  { unfold lv_lo. case_match; lia. }
  set (vs := insertions k evs) in *.
  split; intros j Hj; rewrite insertions_app, insertions_lv_events, length_app;
    fold vs;
    replace (length vs + length [w])%nat with (S (length vs)) by (simpl; lia).
  - destruct (hit_pair_ok w k l evs j Hsent Hp Hd Hshape Hring Hj)
      as (Hhit & Hval & Hw). fold vs in Hhit, Hval.
    unfold lv_step, lv_advance, lv_correlate. simpl.
    rewrite lv_loop_corr
      by (rewrite ?Hhc, ?(ls_corr _ _ Hshape); lia).
    cbn [corr_sum]. fold (alen vs).
    rewrite Hhit, Hw, Hval, Hhc, (Hcorr j Hj).
    rewrite corr_sum_app by lia. rewrite d_at_app_last.
    destruct (pair_ok k (vs ++ [w]) (alen vs) j) eqn:Eok; [|done].
    unfold pair_ok in Eok. rewrite !andb_true_iff in Eok.
    destruct Eok as [[[_ _] Hle] _]. by rewrite Hle.
  - destruct (hit_pair_ok w k l evs j Hsent Hp Hd Hshape Hring Hj)
      as (Hhit & _ & _). fold vs in Hhit.
    unfold lv_step, lv_advance, lv_correlate. simpl.
    rewrite lv_loop_ncorr
      by (rewrite ?Hhn, ?(ls_ncorr _ _ Hshape); lia).
    cbn [pair_count]. fold (alen vs).
    rewrite Hhit, Hhn, (Hncorr j Hj).
    rewrite pair_count_app by lia.
    destruct (pair_ok k (vs ++ [w]) (alen vs) j).
    + apply u64_succ.
    + by rewrite Z.add_0_r.
Qed.

Definition history_ok s tr : Prop :=
  forall k l, get_level k s = Some l ->
    level_ring k l (at_level k tr) /\
    (valid d_m2e10 = false -> level_sums k l (at_level k tr)).

Lemma history_reachable s tr :
  cfg_ok cfg -> reachable cfg s tr -> wf cfg s /\ history_ok s tr.
Proof.
  intros Hcfg Hreach.
  pose proof Hcfg as (Hnc & Hp & Hm & Hd & _).
  assert (0 <= d_min cfg <= p cfg) as Hdm.
  { rewrite Hd. split; [apply Z.div_pos; lia|].
    apply Z.div_le_upper_bound; nia. }
  apply (reachable_invariant cfg history_ok Hcfg); [| | |done].
  - intros k l Hl. apply get_level_fresh_inv in Hl. subst l.
    split; [apply level_ring_fresh; lia|]. intros _.
    apply level_sums_fresh. lia.
  - intros s1 tr1 w k Hwf1 HI Hk j l Hl.
    eapply (add_pure_levels_all cfg
              (fun k l evs => level_ring k l evs /\
                              (valid d_m2e10 = false -> level_sums k l evs))
              (fun k l evs => level_ring k l evs /\
                              (valid d_m2e10 = false -> level_sums k l evs))
              (fun _ => True)); [lia|done| |done|done|done|apply HI|apply Hl].
    intros w' k' l' evs _ Hshape [Hr Hs]. split.
    + apply level_ring_step; [lia|done..].
    + intros Hsent. apply level_sums_step; [done|lia|done..|by apply Hs].
  - intros s1 tr1 norm Hwf1 HI k l Hl. by eapply HI.
Qed.

End History.

Section HistoryResults.
Context {D : Type} {DD : Double D}.
Implicit Types (s : state D) (l : level D) (k j : Z) (tr : list (event D)).
Variable cfg : config.

(** The cells of level [k] in the arrays of the engine. *)
Lemma level_cells s k :
  wf cfg s -> 0 <= k < numcorrelators cfg ->
  exists l,
    get_level k s = Some l /\ level_shape cfg l /\
    aget (insertindex s) k = Some (l_ii l) /\
    aget (accumulator s) k = Some (l_acc l) /\
    aget (naccumulator s) k = Some (l_nacc l) /\
    forall j, 0 <= j < p cfg ->
      aget2 (shift s) k j = aget (l_shift l) j /\
      aget2 (correlation s) k j = Some (d_at (l_corr l) j) /\
      aget2 (ncorrelation s) k j = Some (z_at (l_ncorr l) j).
Proof.
  intros Hwf Hk.
  destruct (wf_get_level cfg s k Hwf Hk) as (l & Hl & Hshape).
  exists l. split; [done|]. split; [done|].
  apply get_level_Some in Hl.
  destruct Hl as (Hs & Hc & Hn & Ha & Hna & Hi).
  split; [done|]. split; [done|]. split; [done|].
  intros j Hj. unfold aget2. rewrite Hs, Hc, Hn.
  destruct Hshape as [Ls Lc Ln _].
  destruct (aget_lt_Some (l_corr l) j) as [x Ex]; [lia|].
  destruct (aget_lt_Some (l_ncorr l) j) as [n En]; [lia|].
  unfold d_at, z_at. by rewrite Ex, En.
Qed.

(** X1: in every state reached from [initialize] by calls of [add] and
    [evaluate], the buffer [shift[k]] is a ring holding the last [p]
    values inserted at level [k]: [insertindex[k]] is their number modulo
    [p], and the slot [d] places behind the last insertion holds the
    value inserted [d] insertions ago; a slot not yet written holds
    [-2E10]. *)
Theorem shift_holds_last_values s tr k d :
  cfg_ok cfg -> reachable cfg s tr ->
  0 <= k < numcorrelators cfg -> 0 <= d < p cfg ->
  aget (insertindex s) k = Some (alen (insertions k tr) mod p cfg) /\
  aget2 (shift s) k ((alen (insertions k tr) - 1 - d) mod p cfg) =
    Some (if d <? alen (insertions k tr)
          then d_at (insertions k tr) (alen (insertions k tr) - 1 - d)
          else d_m2e10).
Proof.
  intros Hcfg Hreach Hk Hd.
  destruct (history_reachable cfg s tr Hcfg Hreach) as [Hwf Hhist].
  destruct (level_cells s k Hwf Hk) as (l & Hl & _ & Hi & _ & _ & Hcells).
  destruct (Hhist k l Hl) as [[Hii Hsh] _].
  rewrite insertions_at_level in Hii, Hsh.
  pose proof Hcfg as (_ & Hp & _).
  split; [by rewrite Hi, Hii|].
  pose proof (Z.mod_pos_bound (alen (insertions k tr) - 1 - d) (p cfg)
                ltac:(lia)) as Hslot.
  destruct (Hcells _ Hslot) as (-> & _). by apply Hsh.
Qed.

(** X2: in every state reached from [initialize] by calls of [add] and
    [evaluate], [correlation[k][j]] is the sum, added up in
    the order of arrival, of the products of each value inserted at level
    [k] with the value inserted [j] insertions before it, over the pairs
    whose earlier value passes the validity test, and [ncorrelation[k][j]]
    the number of these pairs, modulo [2^64]; for a level above 0 the
    lags below [d_min] have no pairs. *)
Theorem bins_are_lagged_sums s tr k j :
  cfg_ok cfg -> d_gt d_m2e10 d_m1e10 = false -> reachable cfg s tr ->
  0 <= k < numcorrelators cfg -> 0 <= j < p cfg ->
  aget2 (correlation s) k j =
    Some (corr_sum cfg k (insertions k tr) j (length (insertions k tr))) /\
  aget2 (ncorrelation s) k j =
    Some (u64 (pair_count cfg k (insertions k tr) j (length (insertions k tr)))).
Proof.
  intros Hcfg Hsent Hreach Hk Hj.
  destruct (history_reachable cfg s tr Hcfg Hreach) as [Hwf Hhist].
  destruct (level_cells s k Hwf Hk) as (l & Hl & _ & _ & _ & _ & Hcells).
  destruct (Hhist k l Hl) as [_ Hsums].
  destruct (Hsums Hsent) as [Hc Hn].
  specialize (Hc j Hj). specialize (Hn j Hj).
  rewrite insertions_at_level in Hc, Hn.
  destruct (Hcells j Hj) as (_ & -> & ->). by rewrite Hc, Hn.
Qed.

(** When every value a level has received passes the validity test, the
    number of pairs at lag [j] is the number of values less [j]. *)
Lemma pair_count_valid k vs j n :
  lv_lo cfg k <= j < p cfg -> 0 <= j -> (n <= length vs)%nat ->
  Forall (fun x => valid x = true) vs ->
  pair_count cfg k vs j n = Z.max 0 (Z.of_nat n - j).
Proof.
  intros Hj Hj0 Hn Hv. induction n as [|n IH]; [simpl; lia|].
  cbn [pair_count]. rewrite IH by lia. unfold pair_ok.
  destruct (Z.leb_spec (lv_lo cfg k) j); [|lia].
  destruct (Z.ltb_spec j (p cfg)); [|lia]. simpl.
  destruct (Z.leb_spec j (Z.of_nat n)); simpl; [|lia].
  assert (valid (d_at vs (Z.of_nat n - j)) = true) as ->; [|lia].
  unfold d_at, aget. destruct (Z.leb_spec 0 (Z.of_nat n - j)); [|lia].
  destruct (lookup_lt_is_Some_2 vs (Z.to_nat (Z.of_nat n - j)) ltac:(lia))
    as [x Hx].
  rewrite Hx. simpl. rewrite Forall_forall in Hv. apply Hv.
  by eapply list_elem_of_lookup_2.
Qed.

(** X3: when every value level [k] has received passes the validity
    test, each lag [j] of its loop has been counted once per value from
    the [j+1]-th on: [ncorrelation[k][j]] is [max 0 (n - j)] modulo
    [2^64], with [n] the number of values received. *)
Theorem counts_of_valid_values s tr k j :
  cfg_ok cfg -> d_gt d_m2e10 d_m1e10 = false -> reachable cfg s tr ->
  0 <= k < numcorrelators cfg -> 0 <= j < p cfg -> lv_lo cfg k <= j ->
  Forall (fun x => d_gt x d_m1e10 = true) (insertions k tr) ->
  aget2 (ncorrelation s) k j =
    Some (u64 (Z.max 0 (alen (insertions k tr) - j))).
Proof.
  intros Hcfg Hsent Hreach Hk Hj Hlo Hv.
  destruct (history_reachable cfg s tr Hcfg Hreach) as [Hwf Hhist].
  destruct (level_cells s k Hwf Hk) as (l & Hl & _ & _ & _ & _ & Hcells).
  destruct (Hhist k l Hl) as [_ Hsums].
  destruct (Hsums Hsent) as [_ Hn]. specialize (Hn j Hj).
  rewrite insertions_at_level in Hn.
  destruct (Hcells j Hj) as (_ & _ & ->). rewrite Hn.
  by rewrite pair_count_valid by (done || lia).
Qed.

(** The bins below the first lag of a loop are never touched. *)
Definition level_unused (k : Z) l (evs : list (event D)) : Prop :=
  forall j, 0 <= j < lv_lo cfg k -> j < p cfg ->
    d_at (l_corr l) j = d_of_Z 0 /\ z_at (l_ncorr l) j = 0.

Lemma level_unused_step w k l evs :
  0 <= d_min cfg <= p cfg -> level_shape cfg l -> level_unused k l evs ->
  level_unused k (lv_step cfg w k l) (evs ++ lv_events cfg w k l).
Proof.
  intros Hd Hshape Hun j Hj Hjp.
  destruct (lv_head_frame cfg w l) as (_ & Hhc & Hhn & _).
  assert (0 <= lv_lo cfg k <= p cfg) as Hlo.
  { unfold lv_lo. case_match; lia. }
  assert (hit cfg (lv_lo cfg k) (Z.to_nat (p cfg - lv_lo cfg k))
              (lv_head cfg w l) j = false) as Hhit.
  { unfold hit. destruct (Z.leb_spec (lv_lo cfg k) j); [lia|done]. }
  unfold lv_step, lv_advance, lv_correlate. simpl.
  rewrite lv_loop_corr by (rewrite ?Hhc, ?(ls_corr _ _ Hshape); lia).
  rewrite lv_loop_ncorr by (rewrite ?Hhn, ?(ls_ncorr _ _ Hshape); lia).
  rewrite Hhit, Hhc, Hhn. by apply Hun.
Qed.

(** X4: in every state reached from [initialize], the bins [j < d_min]
    of a level [k >= 1] hold what [initialize] put there: [correlation]
    0 and [ncorrelation] 0.  The loop of such a level starts at [d_min]. *)
Theorem low_bins_unused s tr k j :
  cfg_ok cfg -> reachable cfg s tr ->
  1 <= k < numcorrelators cfg -> 0 <= j < d_min cfg ->
  aget2 (correlation s) k j = Some (d_of_Z 0) /\
  aget2 (ncorrelation s) k j = Some 0.
Proof.
  intros Hcfg Hreach Hk Hj.
  pose proof Hcfg as (Hnc & Hp & Hm & Hd & _).
  assert (0 <= d_min cfg <= p cfg) as Hdm.
  { rewrite Hd. split; [apply Z.div_pos; lia|].
    apply Z.div_le_upper_bound; nia. }
  destruct (reachable_invariant cfg
              (fun s tr => forall k l, get_level k s = Some l ->
                                       level_unused k l (at_level k tr))
              Hcfg) with (s := s) (tr := tr) as [Hwf Hinv]; [| | |done|].
  - intros k' l Hl. apply get_level_fresh_inv in Hl. subst l.
    intros j' Hj' Hjp. unfold d_at, z_at. simpl.
    by rewrite !aget_replicate by lia.
  - intros s1 tr1 w k' Hwf1 HI Hk' j' l Hl.
    eapply (add_pure_levels_all cfg level_unused level_unused
              (fun _ => True)); [lia|done| |done|done|done|apply HI|apply Hl].
    intros w' k'' l' evs _ Hshape Hun. by apply level_unused_step.
  - intros s1 tr1 norm Hwf1 HI k' l Hl. by eapply HI.
  - destruct (level_cells s k Hwf ltac:(lia)) as (l & Hl & _ & _ & _ & _ & Hcells).
    destruct (Hcells j ltac:(lia)) as (_ & -> & ->).
    assert (lv_lo cfg k = d_min cfg) as Hlo.
    { unfold lv_lo. destruct (Z.eqb_spec k 0); [lia|done]. }
    destruct (Hinv k l Hl j) as [-> ->]; [lia|lia|done].
Qed.

(** The deepest level with an insertion, 0 if there is none. *)
Definition deepest tr : Z := foldr Z.max 0 (insert_levels tr).

Lemma deepest_nonneg tr : 0 <= deepest tr.
Proof. unfold deepest. induction (insert_levels tr); simpl; lia. Qed.

Lemma deepest_app tr1 tr2 :
  deepest (tr1 ++ tr2) = Z.max (deepest tr1) (deepest tr2).
Proof.
  unfold deepest. rewrite insert_levels_app.
  pose proof (deepest_nonneg tr2) as H2. unfold deepest in H2.
  induction (insert_levels tr1) as [|x xs IH]; simpl; lia.
Qed.

Lemma insert_levels_insertions k tr :
  k ∈ insert_levels tr <-> insertions k tr <> [].
Proof.
  unfold insert_levels, insertions.
  induction tr as [|e tr IH]; [split; [by intros ?%elem_of_nil|done]|].
  rewrite !omap_cons_eq. destruct e as [k' i w|]; [|done].
  rewrite elem_of_cons, IH.
  destruct (Z.eqb_spec k' k) as [->|Hne].
  - split; [done|by left].
  - split; [intros [->|]; done|by right].
Qed.

Lemma deepest_ge k tr : k ∈ insert_levels tr -> k <= deepest tr.
Proof.
  unfold deepest. induction (insert_levels tr) as [|x xs IH]; simpl.
  - by intros ?%elem_of_nil.
  - intros [->|Hin]%elem_of_cons; [lia|]. specialize (IH Hin). lia.
Qed.

Lemma deepest_in tr : deepest tr = 0 \/ deepest tr ∈ insert_levels tr.
Proof.
  unfold deepest. induction (insert_levels tr) as [|x xs IH]; simpl; [by left|].
  destruct IH as [IH|IH].
  - destruct (Z.max_spec x (foldr Z.max 0 xs)) as [[_ ->]|[_ ->]].
    + by left.
    + right. by left.
  - destruct (Z.max_spec x (foldr Z.max 0 xs)) as [[_ ->]|[_ ->]].
    + right. by right.
    + right. by left.
Qed.

Lemma add_pure_kmax fuel : forall w k s,
  0 <= k -> 0 <= kmax s ->
  kmax (add_pure cfg fuel w k s).1 =
  Z.max (kmax s) (deepest (add_pure cfg fuel w k s).2).
Proof.
  induction fuel as [|fuel IH]; intros w k s Hk Hkm; cbn [add_pure].
  { simpl. unfold deepest. simpl. lia. }
  destruct (Z.eqb_spec k (numcorrelators cfg)).
  { simpl. unfold deepest. simpl. lia. }
  destruct (get_level k s) as [l|]; [|simpl; unfold deepest; simpl; lia].
  cbn [fst snd].
  set (s1 := put_level k (lv_step cfg w k l) (bump w k s)).
  assert (kmax s1 = Z.max (kmax s) k) as Hs1.
  { unfold s1, bump. simpl.
    destruct (Z.ltb_spec (kmax s) k); destruct (k =? 0); simpl; lia. }
  change (EvInsert k (l_ii l) w ::
          (if lv_full cfg (lv_insert w l)
           then add_pure cfg fuel (lv_carry cfg (lv_insert w l)) (k + 1) s1
           else (s1, [])).2 ++ lv_products cfg k (lv_head cfg w l))
    with ([EvInsert k (l_ii l) w] ++
          (if lv_full cfg (lv_insert w l)
           then add_pure cfg fuel (lv_carry cfg (lv_insert w l)) (k + 1) s1
           else (s1, [])).2 ++ lv_products cfg k (lv_head cfg w l)).
  rewrite !deepest_app.
  assert (deepest (lv_products cfg k (lv_head cfg w l)) = 0) as ->.
  { unfold deepest, lv_products. by rewrite insert_levels_products. }
  assert (deepest [EvInsert k (l_ii l) w] = k) as ->.
  { unfold deepest. simpl. lia. }
  destruct (lv_full cfg (lv_insert w l)).
  - rewrite IH by lia. rewrite Hs1.
    pose proof (deepest_nonneg
      (add_pure cfg fuel (lv_carry cfg (lv_insert w l)) (k + 1) s1).2). lia.
  - cbn [fst snd]. rewrite Hs1. unfold deepest. simpl. lia.
Qed.

Lemma kmax_deepest s tr :
  cfg_ok cfg -> reachable cfg s tr -> kmax s = deepest tr.
Proof.
  intros Hcfg Hreach.
  destruct (reachable_invariant cfg (fun s tr => kmax s = deepest tr) Hcfg)
    with (s := s) (tr := tr) as [_ H]; [done| | |done|done].
  - intros s1 tr1 w k Hwf HI Hk.
    rewrite add_pure_kmax, deepest_app, HI; [done|lia|].
    destruct (wf_kmax _ _ Hwf). lia.
  - intros s1 tr1 norm Hwf HI. exact HI.
Qed.

(** X5: in every state reached from [initialize], [kmax] is the deepest
    level at which a value has been inserted, by a call of [add] at that
    level or by the cascade; it is 0 when nothing has been inserted, and
    it is a level of the hierarchy. *)
Theorem kmax_is_deepest_level s tr :
  cfg_ok cfg -> reachable cfg s tr ->
  kmax s = deepest tr /\ 0 <= kmax s < numcorrelators cfg /\
  (kmax s = 0 \/ insertions (kmax s) tr <> []) /\
  (forall k, kmax s < k -> insertions k tr = []).
Proof.
  intros Hcfg Hreach. pose proof (kmax_deepest s tr Hcfg Hreach) as Hk.
  destruct (reachable_invariant cfg (fun _ _ => True) Hcfg) with (s := s) (tr := tr)
    as [Hwf _]; [done..|].
  split; [done|]. split; [apply (wf_kmax _ _ Hwf)|]. rewrite Hk. split.
  - destruct (deepest_in tr) as [E|E]; [by left|right].
    by apply insert_levels_insertions.
  - intros k Hlt. destruct (insertions k tr) eqn:E; [done|].
    assert (k ∈ insert_levels tr) as Hin
      by (apply insert_levels_insertions; by rewrite E).
    apply deepest_ge in Hin. lia.
Qed.

Lemma add_pure_accval_sum w k s :
  cfg_ok cfg -> wf cfg s -> 0 <= k <= numcorrelators cfg ->
  accval (add_pure cfg (S (Z.to_nat (numcorrelators cfg - k))) w k s).1 =
  foldl d_add (accval s)
    (insertions 0 (add_pure cfg (S (Z.to_nat (numcorrelators cfg - k))) w k s).2).
Proof.
  intros Hcfg Hwf Hk. pose proof Hcfg as (Hnc & Hp & _).
  destruct (Z.eq_dec k 0) as [->|Hk0].
  - destruct (wf_get_level cfg s 0 Hwf ltac:(lia)) as (l & Hl & _).
    rewrite (add_pure_accval_0 cfg _ w s l Hl) by lia.
    destruct (add_pure_insertions cfg (S (Z.to_nat (numcorrelators cfg - 0))) w 0 s
                Hwf ltac:(lia) ltac:(lia) ltac:(lia)) as [-> _]. done.
  - rewrite add_pure_accval by lia.
    rewrite insertions_other; [done|].
    eapply Forall_impl; [apply add_pure_events_from|]. simpl. intros; lia.
Qed.

Lemma accval_sum s tr :
  cfg_ok cfg -> reachable cfg s tr ->
  accval s = foldl d_add (d_of_Z 0) (insertions 0 tr).
Proof.
  intros Hcfg Hreach.
  destruct (reachable_invariant cfg
              (fun s tr => accval s = foldl d_add (d_of_Z 0) (insertions 0 tr))
              Hcfg) with (s := s) (tr := tr) as [_ H]; [done| | |done|done].
  - intros s1 tr1 w k Hwf HI Hk.
    rewrite add_pure_accval_sum, insertions_app, foldl_app, HI by done. done.
  - intros s1 tr1 norm Hwf HI. exact HI.
Qed.

(** X6: in every state reached from [initialize], [accval] is the sum of
    the values given to [add] at level 0, added up from 0 in the order of
    the calls; calls at other levels and the cascade leave it alone. *)
Theorem accval_is_sum_of_samples s tr :
  cfg_ok cfg -> reachable cfg s tr ->
  accval s = foldl d_add (d_of_Z 0) (insertions 0 tr).
Proof. apply accval_sum. Qed.

End HistoryResults.

(** * The cascade, level by level

    When all samples enter at level 0, what a level receives is a
    function of the samples alone. *)

Section CascadeBlocks.
Context {D : Type} {DD : Double D}.
Implicit Types (s : state D) (l : level D) (k j : Z) (tr : list (event D)).
Implicit Types (vs : list D).
Variable cfg : config.

(** The mean of the [i]-th group of [m] consecutive values, added up
    from 0 in their order. *)
Definition block_mean vs (i : nat) : D :=
  d_div (foldl d_add (d_of_Z 0)
           (take (Z.to_nat (m cfg)) (drop (i * Z.to_nat (m cfg)) vs)))
        (d_of_Z (m cfg)).

Definition block_means vs : list D :=
  block_mean vs <$> seq 0 (length vs / Z.to_nat (m cfg)).

(** The values after the last full group. *)
Definition block_rest vs : list D :=
  drop (length vs / Z.to_nat (m cfg) * Z.to_nat (m cfg)) vs.

Lemma decimate_short vs :
  1 <= m cfg < 2 ^ 32 -> Z.of_nat (length vs) < m cfg ->
  decimate cfg dec0 vs = [].
Proof.
  intros Hm Hlen. apply nil_length_inv.
  pose proof (decimate_length cfg vs (d_of_Z 0) 0 Hm ltac:(lia)) as H.
  fold (@dec0 D DD) in H. rewrite Z.add_0_l, Z.div_small in H by lia. lia.
Qed.

Lemma residue_short vs : forall a n,
  1 <= m cfg < 2 ^ 32 -> 0 <= n -> n + Z.of_nat (length vs) < m cfg ->
  residue cfg (a, n) vs = (foldl d_add a vs, n + Z.of_nat (length vs)).
Proof.
  induction vs as [|w vs IH]; intros a n Hm Hn Hlen.
  { simpl. f_equal. lia. }
  unfold residue in *. cbn [foldl length] in *. unfold dec_step at 2.
  cbn [fst snd]. rewrite u32_id by lia.
  destruct (Z.eqb_spec (n + 1) (m cfg)); [lia|].
  rewrite IH by lia. f_equal. lia.
Qed.

Lemma block_shift vs i :
  (1 <= Z.to_nat (m cfg))%nat ->
  block_mean vs (S i) = block_mean (drop (Z.to_nat (m cfg)) vs) i.
Proof.
  intros HM. unfold block_mean. rewrite drop_drop. do 3 f_equal; lia.
Qed.

Lemma decimate_blocks : forall (n : nat) vs,
  1 <= m cfg < 2 ^ 32 -> (length vs <= n)%nat ->
  decimate cfg dec0 vs = block_means vs /\
  residue cfg dec0 vs =
    (foldl d_add (d_of_Z 0) (block_rest vs),
     Z.of_nat (length vs) mod m cfg).
Proof.
  intros n vs Hm. revert vs.
  set (M := Z.to_nat (m cfg)).
  assert (1 <= M)%nat as HM by (unfold M; lia).
  assert (Z.of_nat M = m cfg) as HMZ by (unfold M; lia).
  induction n as [|n IH]; intros vs Hn.
  { destruct vs; [|simpl in Hn; lia].
    unfold block_means, block_rest. simpl.
    rewrite Nat.Div0.div_0_l. split; [done|].
    unfold dec0. by rewrite Z.mod_0_l by lia. }
  destruct (decide (length vs < M)%nat) as [Hlt|Hge].
  - unfold block_means, block_rest. fold M.
    rewrite Nat.div_small by done. simpl.
    rewrite decimate_short by lia. split; [done|].
    unfold dec0. rewrite residue_short by lia.
    rewrite Z.add_0_l, Z.mod_small by lia. done.
  - assert (length (take M vs) = M) as Htake by (rewrite length_take; lia).
    destruct (decimate_exact cfg (take M vs) (d_of_Z 0) 0 Hm ltac:(lia))
      as [Hdec Hres]; [lia|by destruct (take M vs); simpl in *; [lia|]|].
    destruct (IH (drop M vs)) as [IHd IHr]; [rewrite length_drop; lia|].
    assert (length vs = (1 * M + length (drop M vs))%nat) as Hlen
      by (rewrite length_drop; lia).
    assert (length vs / M = S (length (drop M vs) / M))%nat as Hq.
    { rewrite Hlen at 1. rewrite Nat.div_add_l by lia. lia. }
    split.
    + rewrite <- (take_drop M vs) at 1. rewrite decimate_app.
      fold (@dec0 D DD) in Hdec, Hres. rewrite Hdec, Hres, IHd.
      unfold block_means. fold M. rewrite Hq. cbn [seq fmap list_fmap].
      change ([?x] ++ ?l) with (x :: l). f_equal. symmetry.
      rewrite <- fmap_S_seq, <- list_fmap_compose.
      apply list_fmap_ext. intros i x _. simpl. by apply block_shift.
    + rewrite <- (take_drop M vs) at 1. rewrite residue_app.
      fold (@dec0 D DD) in Hres. rewrite Hres, IHr.
      unfold block_rest. fold M. rewrite Hq, drop_drop. f_equal.
      rewrite Hlen, Nat2Z.inj_add, Nat2Z.inj_mul, HMZ.
      rewrite Z.add_comm, Z.mod_add by lia. done.
Qed.

(** The state reached by feeding [ws] at level 0 to a fresh engine. *)
Lemma feed_fresh_runs s0 ws :
  cfg_ok cfg -> shaped cfg s0 ->
  exists s tr,
    bind (initialize cfg) (fun _ => feed cfg ws) s0 = Done (tt, s, tr) /\
    reachable cfg s tr /\ wf cfg s /\ cascade_ok cfg s tr /\
    insertions 0 tr = ws.
Proof.
  intros Hcfg Hs0. pose proof Hcfg as (Hnc & Hp & _).
  pose proof (initialize_runs cfg s0 Hs0 ltac:(lia) ltac:(lia)) as Hini.
  destruct (feed_runs cfg ws (fresh cfg) [] Hcfg (fresh_wf cfg Hcfg)
              (cascade_ok_fresh cfg)) as (s & tr & Hrun & Hwf & Hok & Hins).
  simpl in Hok.
  assert (bind (initialize cfg) (fun _ => feed cfg ws) s0 = Done (tt, s, tr))
    as Hall.
  { unfold runs, bind in *. by rewrite Hini, Hrun. }
  exists s, tr. split; [done|]. split; [|done].
  exists s0, ((fun w => OpAdd w 0) <$> ws). split; [done|]. exact Hall.
Qed.

(** X7: on a fresh engine fed the samples [ws] at level 0, level 0
    receives [ws] and every level [k + 1] of the hierarchy receives the
    means of the consecutive groups of [m] values that level [k] has
    received, each the sum of its group from 0 in order divided by [m];
    [accumulator[k]] holds the sum of the values after the last full
    group. *)
Theorem cascade_feeds_block_means s0 ws :
  cfg_ok cfg -> shaped cfg s0 ->
  exists s tr,
    bind (initialize cfg) (fun _ => feed cfg ws) s0 = Done (tt, s, tr) /\
    insertions 0 tr = ws /\
    (forall k, 0 <= k -> k + 1 < numcorrelators cfg ->
       insertions (k + 1) tr = block_means (insertions k tr)) /\
    (forall k, 0 <= k < numcorrelators cfg ->
       aget (accumulator s) k =
       Some (foldl d_add (d_of_Z 0) (block_rest (insertions k tr)))).
Proof.
  intros Hcfg Hs0. pose proof Hcfg as (Hnc & Hp & Hm & _).
  destruct (feed_fresh_runs s0 ws Hcfg Hs0)
    as (s & tr & Hrun & _ & Hwf & [Hlev Hcross] & Hins).
  exists s, tr. split; [done|]. split; [done|]. split.
  - intros k Hk Hk1. rewrite Hcross by lia.
    by apply (decimate_blocks (length (insertions k tr))).
  - intros k Hk.
    destruct (wf_get_level cfg s k Hwf Hk) as (l & Hl & _).
    destruct (Hlev k l Hl) as [Hres _].
    apply get_level_Some in Hl. destruct Hl as (_ & _ & _ & -> & _).
    destruct (decimate_blocks (length (insertions k tr)) (insertions k tr)
                ltac:(lia) ltac:(lia)) as [_ Hr].
    rewrite Hr in Hres. by injection Hres as -> _.
Qed.

(** The number of values a level has received. *)
Lemma cascade_lengths s tr :
  cfg_ok cfg -> cascade_ok cfg s tr ->
  forall k, 0 <= k < numcorrelators cfg ->
    alen (insertions k tr) = alen (insertions 0 tr) / m cfg ^ k.
Proof.
  intros Hcfg [_ Hcross] k Hk. pose proof Hcfg as (Hnc & Hp & Hm & _).
  assert (forall n : nat, Z.of_nat n < numcorrelators cfg ->
            alen (insertions (Z.of_nat n) tr) =
            alen (insertions 0 tr) / m cfg ^ Z.of_nat n) as Hall.
  { induction n as [|n IH]; intros Hn.
    - simpl. by rewrite Z.div_1_r.
    - rewrite Nat2Z.inj_succ, <- Z.add_1_r, Hcross by lia.
      pose proof (decimate_length cfg (insertions (Z.of_nat n) tr) (d_of_Z 0) 0
                    ltac:(lia) ltac:(lia)) as Hlen.
      fold (@dec0 D DD) in Hlen. unfold alen in *.
      rewrite Hlen, Z.add_0_l, IH by lia.
      rewrite Z.pow_add_r, Z.pow_1_r by lia.
      rewrite Z.div_div; [done| |lia].
      assert (0 < m cfg ^ Z.of_nat n) by (apply Z.pow_pos_nonneg; lia). lia. }
  specialize (Hall (Z.to_nat k)). rewrite Z2Nat.id in Hall by lia.
  apply Hall. lia.
Qed.

(** X8: on a fresh engine fed [N] samples at level 0, level [k] has
    received [N / m^k] values (integer division), and its
    [naccumulator] and [insertindex] are that number modulo [m] and
    modulo [p]. *)
Theorem cascade_counts s0 ws k :
  cfg_ok cfg -> shaped cfg s0 -> 0 <= k < numcorrelators cfg ->
  exists s tr,
    bind (initialize cfg) (fun _ => feed cfg ws) s0 = Done (tt, s, tr) /\
    alen (insertions k tr) = alen ws / m cfg ^ k /\
    aget (naccumulator s) k = Some ((alen ws / m cfg ^ k) mod m cfg) /\
    aget (insertindex s) k = Some ((alen ws / m cfg ^ k) mod p cfg).
Proof.
  intros Hcfg Hs0 Hk. pose proof Hcfg as (Hnc & Hp & Hm & _).
  destruct (feed_fresh_runs s0 ws Hcfg Hs0)
    as (s & tr & Hrun & _ & Hwf & Hok & Hins).
  exists s, tr. split; [done|].
  pose proof (cascade_lengths s tr Hcfg Hok k Hk) as Hlen.
  rewrite Hins in Hlen. split; [done|].
  destruct Hok as [Hlev _].
  destruct (wf_get_level cfg s k Hwf Hk) as (l & Hl & _).
  destruct (Hlev k l Hl) as [Hres Hii].
  apply get_level_Some in Hl. destruct Hl as (_ & _ & _ & _ & -> & ->).
  destruct (decimate_blocks (length (insertions k tr)) (insertions k tr)
              ltac:(lia) ltac:(lia)) as [_ Hr].
  rewrite Hr in Hres. unfold alen in Hlen.
  injection Hres as _ ->. by rewrite Hii, Hlen.
Qed.

(** Insertions are at levels of the hierarchy. *)
Lemma insert_levels_range s tr :
  cfg_ok cfg -> reachable cfg s tr ->
  Forall (fun k => 0 <= k < numcorrelators cfg) (insert_levels tr).
Proof.
  intros Hcfg Hreach. pose proof Hcfg as (Hnc & Hp & _).
  destruct (reachable_invariant cfg
              (fun s tr => Forall (fun k => 0 <= k < numcorrelators cfg)
                                  (insert_levels tr)) Hcfg)
    with (s := s) (tr := tr) as [_ H]; [done| | |done|done].
  - intros s1 tr1 w k Hwf HI Hk.
    rewrite insert_levels_app. apply Forall_app. split; [done|].
    destruct (add_pure_insert_levels cfg (S (Z.to_nat (numcorrelators cfg - k)))
                w k s1 Hwf Hk ltac:(lia)) as (r & Hr & ->).
    apply Forall_forall. intros x Hx. apply elem_of_seqZ in Hx. lia.
  - intros s1 tr1 norm Hwf HI. exact HI.
Qed.

(** X9: on a fresh engine fed [N >= 1] samples at level 0, the levels
    that have been reached, that is those up to [kmax], are the levels
    [k] of the hierarchy with [m^k <= N]. *)
Theorem levels_reached s0 ws k :
  cfg_ok cfg -> shaped cfg s0 -> ws <> [] -> 0 <= k < numcorrelators cfg ->
  exists s tr,
    bind (initialize cfg) (fun _ => feed cfg ws) s0 = Done (tt, s, tr) /\
    (k <= kmax s <-> m cfg ^ k <= alen ws).
Proof.
  intros Hcfg Hs0 Hne Hk. pose proof Hcfg as (Hnc & Hp & Hm & _).
  destruct (feed_fresh_runs s0 ws Hcfg Hs0)
    as (s & tr & Hrun & Hreach & Hwf & Hok & Hins).
  exists s, tr. split; [done|].
  rewrite (kmax_deepest cfg s tr Hcfg Hreach).
  assert (forall j, 0 <= j < numcorrelators cfg ->
            (j ∈ insert_levels tr <-> m cfg ^ j <= alen ws)) as Hin.
  { intros j Hj. rewrite insert_levels_insertions.
    pose proof (cascade_lengths s tr Hcfg Hok j Hj) as Hlen.
    rewrite Hins in Hlen.
    assert (0 < m cfg ^ j) as Hpow by (apply Z.pow_pos_nonneg; lia).
    assert (0 <= alen ws) as Hws by (unfold alen; lia).
    split.
    - intros Hins'. destruct (Z.le_gt_cases (m cfg ^ j) (alen ws)); [done|].
      rewrite Z.div_small in Hlen by lia.
      destruct (insertions j tr); [done|]. unfold alen in Hlen. simpl in Hlen. lia.
    - intros Hle Hnil. rewrite Hnil in Hlen. unfold alen in Hlen at 1.
      simpl in Hlen.
      pose proof (Z.div_str_pos (alen ws) (m cfg ^ j) ltac:(lia)). lia. }
  assert (0 < alen ws) as Hpos.
  { unfold alen. destruct ws; [done|]. simpl. lia. }
  split.
  - intros Hle. destruct (deepest_in tr) as [E|E].
    + rewrite E in Hle. assert (k = 0) as -> by lia. simpl. lia.
    + pose proof (insert_levels_range s tr Hcfg Hreach) as Hrange.
      rewrite Forall_forall in Hrange. pose proof (Hrange _ E) as Hr.
      apply Hin in E; [|done].
      assert (m cfg ^ k <= m cfg ^ deepest tr)
        by (apply Z.pow_le_mono_r; lia).
      lia.
  - intros Hle. apply deepest_ge. by apply Hin.
Qed.

End CascadeBlocks.

(** * [initialize] and [evaluate] on a used and on an empty engine *)

Section Reset.
Context {D : Type} {DD : Double D}.
Implicit Types (s : state D) (l : level D) (k j : Z) (tr : list (event D)).
Variable cfg : config.

Lemma wf_shaped s : wf cfg s -> shaped cfg s.
Proof.
  intros [W1 W2 W3 W4 W5 W6 Wl Wk Wt Wf]. split; try done.
  intros k l Hl. destruct (Wl k l Hl) as [? ? ? _]. done.
Qed.

(** X10: [initialize] is a reset.  Called on an engine in any state
    reached by calls of [add] and [evaluate], it returns and leaves the
    state it leaves on a newly allocated engine: every [shift] cell
    [-2E10], every sum, count, accumulator and index 0, [t] and [f] all 0,
    [npcorr], [kmax] and [accval] 0.  Nothing of what was fed remains. *)
Theorem initialize_resets s tr :
  cfg_ok cfg -> reachable cfg s tr ->
  initialize cfg s = Done (tt, fresh cfg, []) /\
  initialize cfg (fresh cfg) = Done (tt, fresh cfg, []).
Proof.
  intros Hcfg Hreach. pose proof Hcfg as (Hnc & Hp & _).
  destruct (reachable_invariant cfg (fun _ _ => True) Hcfg)
    with (s := s) (tr := tr) as [Hwf _]; [done..|].
  split.
  - apply (initialize_runs cfg s); [by apply wf_shaped|lia|lia].
  - apply (initialize_runs cfg (fresh cfg));
      [by apply wf_shaped, fresh_wf|lia|lia].
Qed.

Lemma omap_none {A B} (g : A -> option B) (l : list A) :
  (forall x, g x = None) -> omap g l = [].
Proof.
  intros Hg. induction l as [|x l IH]; [done|].
  by rewrite omap_cons_eq, Hg.
Qed.

Lemma point_fresh aux k i : point cfg aux (fresh cfg) k i = None.
Proof.
  unfold point, point_with, aget2. simpl.
  destruct (aget (replicate _ (replicate _ 0)) k) as [row|] eqn:Erow; [|done].
  pose proof (aget_Some_lt _ _ _ Erow) as Hk. rewrite alen_replicate in Hk.
  rewrite aget_replicate in Erow by done. simplify_eq.
  destruct (aget (replicate _ 0) i) as [n|] eqn:En; [|done].
  pose proof (aget_Some_lt _ _ _ En) as Hi. rewrite alen_replicate in Hi.
  rewrite aget_replicate in En by done. simplify_eq.
  by case_match.
Qed.

(** X11: [evaluate] on an engine that has received no sample (right
    after [initialize]) returns with [npcorr = 0] and changes nothing,
    for either value of [norm]: the quotient [accval / ncorrelation[0][0]]
    it forms when [norm] is set is used for no output. *)
Theorem evaluate_before_samples norm :
  cfg_ok cfg ->
  evaluate cfg norm (fresh cfg) = Done (tt, fresh cfg, []) /\
  npcorr (fresh cfg) = 0.
Proof.
  intros Hcfg. split; [|done].
  destruct (evaluate_runs cfg norm (fresh cfg) Hcfg (fresh_wf cfg Hcfg))
    as [Hrun _].
  assert (eval_points cfg norm (fresh cfg) = []) as Hpts.
  { unfold eval_points, level_points.
    rewrite omap_none by (intros; apply point_fresh). done. }
  unfold runs in Hrun. rewrite Hrun. unfold evaluated. rewrite Hpts.
  by rewrite with_out_nil.
Qed.

Lemma length_omap_le {A B} (g : A -> option B) (l : list A) :
  (length (omap g l) <= length l)%nat.
Proof.
  induction l as [|x l IH]; [done|].
  rewrite omap_cons_eq. destruct (g x); simpl; lia.
Qed.

Lemma length_join_le {A B} (g : A -> list B) (l : list A) (c : nat) :
  (forall x, (length (g x) <= c)%nat) ->
  (length (mjoin (g <$> l)) <= length l * c)%nat.
Proof.
  intros Hg. induction l as [|x l IH]; [done|].
  rewrite fmap_cons, mjoin_cons_eq, length_app. simpl.
  specialize (Hg x). lia.
Qed.

(** X12: on a well-formed engine [evaluate] returns with
    [0 <= npcorr <= p + max 0 (kmax - 1) * (p - d_min)], which is at most
    [length], the size of [t] and [f]: it never writes past their end.
    The cells of [t] and [f] from [npcorr] on keep what they held before
    the call. *)
Theorem evaluate_output_bounds norm s :
  cfg_ok cfg -> wf cfg s ->
  exists s',
    evaluate cfg norm s = Done (tt, s', []) /\
    0 <= npcorr s' <= p cfg + Z.max 0 (kmax s - 1) * (p cfg - d_min cfg) /\
    npcorr s' <= length_ cfg /\
    alen (t s') = length_ cfg /\ alen (f s') = length_ cfg /\
    drop (Z.to_nat (npcorr s')) (t s') = drop (Z.to_nat (npcorr s')) (t s) /\
    drop (Z.to_nat (npcorr s')) (f s') = drop (Z.to_nat (npcorr s')) (f s).
Proof.
  intros Hcfg Hwf.
  pose proof Hcfg as (Hnc & Hp & Hm & Hd & Hlen & Hcap).
  assert (0 <= d_min cfg <= p cfg) as Hdm.
  { rewrite Hd. split; [apply Z.div_pos; lia|].
    apply Z.div_le_upper_bound; nia. }
  destruct (evaluate_runs cfg norm s Hcfg Hwf) as [Hrun Hle].
  pose proof (evaluated_wf cfg norm s Hcfg Hwf) as Hwf'.
  destruct (evaluated_out cfg norm s) as (Hnp & _ & _).
  exists (evaluated cfg norm s). split; [apply Hrun|].
  pose proof (wf_t _ _ Hwf) as Ht. pose proof (wf_kmax _ _ Hwf) as Hk.
  set (pts := eval_points cfg norm s) in *.
  assert (Z.of_nat (length pts) <=
          p cfg + Z.max 0 (kmax s - 1) * (p cfg - d_min cfg)) as Hbound.
  { unfold pts, eval_points, level_points. rewrite length_app.
    pose proof (length_omap_le (point cfg (eval_aux norm s) s 0)
                  (seqZ 0 (p cfg - 0))) as H0.
    rewrite length_seqZ in H0.
    pose proof (length_join_le
                  (fun k => omap (point cfg (eval_aux norm s) s k)
                              (seqZ (d_min cfg) (p cfg - d_min cfg)))
                  (seqZ 1 (kmax s - 1)) (Z.to_nat (p cfg - d_min cfg))) as H1.
    rewrite length_seqZ in H1.
    specialize (H1 ltac:(intros k; etransitivity;
                          [apply length_omap_le|by rewrite length_seqZ])).
    nia. }
  split; [rewrite Hnp; lia|].
  split; [rewrite Hnp; unfold alen in Ht; lia|].
  split; [apply (wf_t _ _ Hwf')|]. split; [apply (wf_f _ _ Hwf')|].
  rewrite Hnp, Nat2Z.id. unfold evaluated, with_out. simpl. fold pts.
  split; by rewrite drop_app_length' by (by rewrite length_fmap).
Qed.

End Reset.

(** * What [evaluate] emits for level 0 *)

Section Estimate.
Context {D : Type} {DD : Double D}.
Implicit Types (s : state D) (l : level D) (k j : Z) (tr : list (event D)).
Variable cfg : config.

Lemma omap_lookup_prefix {A B} (g : A -> option B) (l : list A) :
  forall (j : nat) x y,
    l !! j = Some x -> g x = Some y ->
    (forall i z, (i < j)%nat -> l !! i = Some z -> is_Some (g z)) ->
    omap g l !! j = Some y.
Proof.
  induction l as [|a l IH]; intros j x y Hj Hg Hpre; [done|].
  rewrite omap_cons_eq. destruct j as [|j].
  - simpl in Hj. simplify_eq. by rewrite Hg.
  - destruct (Hpre 0%nat a ltac:(lia) eq_refl) as [b Hb]. rewrite Hb. simpl.
    apply (IH j x y); [done|done|].
    intros i z Hi Hz. apply (Hpre (S i) z); [lia|done].
Qed.

(** The square of the mean of the samples, as [evaluate] forms it. *)
Definition mean_sq (ws : list D) : D :=
  d_mul (d_div (foldl d_add (d_of_Z 0) ws) (d_of_Z (alen ws)))
        (d_div (foldl d_add (d_of_Z 0) ws) (d_of_Z (alen ws))).

(** X13: feed a fresh engine [N < 2^64] samples that all pass the
    validity test, then call [evaluate].  For every lag [j] below [p] and
    below [N], cell [j] of the output is that lag: [t[j] = j], and [f[j]]
    is the sum of the products of each sample with the one [j] before it
    divided by their number [N - j], less, when [norm] is set, the square
    of the mean of the samples. *)
Theorem level0_estimate s0 ws norm j :
  cfg_ok cfg -> d_gt d_m2e10 d_m1e10 = false -> shaped cfg s0 ->
  Forall (fun x => d_gt x d_m1e10 = true) ws -> alen ws < 2 ^ 64 ->
  0 <= j < p cfg -> j < alen ws ->
  exists s tr s',
    bind (initialize cfg) (fun _ => feed cfg ws) s0 = Done (tt, s, tr) /\
    evaluate cfg norm s = Done (tt, s', []) /\
    j < npcorr s' /\
    aget (t s') j = Some (d_of_Z j) /\
    aget (f s') j =
      Some (d_sub (d_div (corr_sum cfg 0 ws j (length ws))
                         (d_of_Z (alen ws - j)))
                  (if norm then mean_sq ws else d_of_Z 0)).
Proof.
  intros Hcfg Hsent Hs0 Hvalid HN Hj HjN.
  pose proof Hcfg as (Hnc & Hp & _).
  destruct (feed_fresh_runs cfg s0 ws Hcfg Hs0)
    as (s & tr & Hrun & Hreach & Hwf & _ & Hins).
  destruct (history_reachable cfg s tr Hcfg Hreach) as [_ Hhist].
  destruct (level_cells cfg s 0 Hwf ltac:(lia))
    as (l & Hl & _ & _ & _ & _ & Hcells).
  destruct (Hhist 0 l Hl) as [_ Hsums].
  destruct (Hsums Hsent) as [Hc Hn].
  assert (forall i, 0 <= i < p cfg ->
            aget2 (ncorrelation s) 0 i = Some (Z.max 0 (alen ws - i)) /\
            aget2 (correlation s) 0 i =
              Some (corr_sum cfg 0 ws i (length ws))) as Hbin.
  { intros i Hi. destruct (Hcells i Hi) as (_ & -> & ->).
    rewrite (Hc i Hi), (Hn i Hi), insertions_at_level, Hins.
    rewrite pair_count_valid by (done || unfold lv_lo; simpl; lia).
    fold (alen ws). rewrite u64_id by lia. done. }
  assert (eval_aux norm s = if norm then mean_sq ws else d_of_Z 0) as Haux.
  { unfold eval_aux. destruct norm; [|done].
    destruct (Hbin 0 ltac:(lia)) as [-> _]. simpl.
    rewrite (accval_sum cfg s tr Hcfg Hreach), Hins.
    replace (Z.max 0 (alen ws - 0)) with (alen ws) by lia. done. }
  assert (forall i, 0 <= i <= j ->
            point cfg (eval_aux norm s) s 0 i =
            Some (d_of_Z i,
                  d_sub (d_div (corr_sum cfg 0 ws i (length ws))
                               (d_of_Z (alen ws - i)))
                        (eval_aux norm s))) as Hpoint.
  { intros i Hi. unfold point, point_with.
    destruct (Hbin i ltac:(lia)) as [-> ->].
    replace (Z.max 0 (alen ws - i)) with (alen ws - i) by lia.
    destruct (Z.ltb_spec 0 (alen ws - i)); [|lia]. done. }
  set (pt := (d_of_Z j,
              d_sub (d_div (corr_sum cfg 0 ws j (length ws))
                           (d_of_Z (alen ws - j)))
                    (eval_aux norm s))).
  assert (eval_points cfg norm s !! Z.to_nat j = Some pt) as Hlook.
  { unfold eval_points, level_points. apply lookup_app_l_Some.
    apply (omap_lookup_prefix _ _ (Z.to_nat j) j).
    - rewrite lookup_seqZ_lt by lia. f_equal. lia.
    - apply Hpoint. lia.
    - intros i z Hi Hz. apply lookup_seqZ in Hz. destruct Hz as [-> _].
      rewrite Hpoint by lia. done. }
  destruct (evaluate_runs cfg norm s Hcfg Hwf) as [Hev _].
  exists s, tr, (evaluated cfg norm s).
  split; [done|]. split; [apply Hev|].
  pose proof (lookup_lt_Some _ _ _ Hlook) as Hlt.
  unfold evaluated, with_out, aget. simpl.
  destruct (Z.leb_spec 0 j); [|lia].
  split; [lia|]. rewrite <- Haux. split.
  - apply lookup_app_l_Some. by rewrite list_lookup_fmap, Hlook.
  - apply lookup_app_l_Some. by rewrite list_lookup_fmap, Hlook.
Qed.

End Estimate.

(** * The order of the lags, in exact arithmetic *)

Section Lags.
Implicit Types (s : state Q) (k i : Z).
Variable cfg : config.

(** The lag of bin [i] of level [k], as an integer. *)
Definition lagZ (k i : Z) : Z := i * m cfg ^ k.

Lemma lag_lagZ k i : 0 <= k -> (lag cfg k i == inject_Z (lagZ k i))%Q.
Proof.
  intros Hk. unfold lag, lagZ. destruct (Z.eqb_spec k 0) as [->|Hne].
  - simpl. by rewrite Z.mul_1_r.
  - cbn [d_mul d_pow d_of_Z Double_Q].
    by rewrite inject_Z_mult, Zpower_Qpower.
Qed.

Lemma point_lag aux s k i (pt : Q * Q) :
  point cfg aux s k i = Some pt -> pt.1 = lag cfg k i.
Proof.
  unfold point, point_with. intros H.
  destruct (aget2 (ncorrelation s) k i); [|done].
  destruct (aget2 (correlation s) k i); [|done].
  destruct (0 <? z); by simplify_eq.
Qed.

Lemma seqZ_sorted (n : nat) : forall a, StronglySorted Z.lt (seqZ a (Z.of_nat n)).
Proof.
  induction n as [|n IH]; intros a; [constructor|].
  rewrite seqZ_S_cons. constructor; [apply IH|].
  apply Forall_forall. intros x Hx. apply elem_of_seqZ in Hx. lia.
Qed.

Lemma seqZ_sorted_Z a n : StronglySorted Z.lt (seqZ a n).
Proof.
  destruct (Z.le_gt_cases 0 n).
  - rewrite <- (Z2Nat.id n) by done. apply seqZ_sorted.
  - unfold seqZ. replace (Z.to_nat n) with 0%nat by lia. constructor.
Qed.

(** Within a level the lags grow with the bin. *)
Lemma block_sorted aux s k (l : list Z) :
  0 <= k -> 1 <= m cfg -> StronglySorted Z.lt l ->
  StronglySorted Qlt ((omap (point cfg aux s k) l).*1).
Proof.
  intros Hk Hm. induction 1 as [|a l Hs IH Ha]; [constructor|].
  rewrite omap_cons_eq. destruct (point cfg aux s k a) as [pt|] eqn:E; [|done].
  rewrite fmap_cons. constructor; [done|].
  apply Forall_forall. intros x Hx.
  apply list_elem_of_fmap in Hx. destruct Hx as (pt' & -> & Hpt').
  apply list_elem_of_omap in Hpt'. destruct Hpt' as (i & Hi & Hpi).
  rewrite Forall_forall in Ha. specialize (Ha i Hi).
  rewrite (point_lag _ _ _ _ _ E), (point_lag _ _ _ _ _ Hpi).
  rewrite !lag_lagZ by done. rewrite <- Zlt_Qlt. unfold lagZ.
  assert (0 < m cfg ^ k) by (apply Z.pow_pos_nonneg; lia). nia.
Qed.

Lemma block_elem aux s k lo (x : Q) :
  x ∈ (level_points cfg aux s k lo).*1 ->
  exists i, lo <= i < p cfg /\ x = lag cfg k i.
Proof.
  intros Hx. apply list_elem_of_fmap in Hx. destruct Hx as (pt & -> & Hpt).
  apply list_elem_of_omap in Hpt. destruct Hpt as (i & Hi & Hpi).
  apply elem_of_seqZ in Hi. exists i. split; [lia|].
  by eapply point_lag.
Qed.

Lemma levels_elem aux s (ks : list Z) (x : Q) :
  x ∈ (mjoin ((fun k => level_points cfg aux s k (d_min cfg)) <$> ks)).*1 ->
  exists k i, k ∈ ks /\ d_min cfg <= i < p cfg /\ x = lag cfg k i.
Proof.
  intros Hx. apply list_elem_of_fmap in Hx. destruct Hx as (pt & -> & Hpt).
  apply list_elem_of_join in Hpt. destruct Hpt as (blk & Hpt & Hblk).
  apply list_elem_of_fmap in Hblk. destruct Hblk as (k & -> & Hk).
  destruct (block_elem aux s k (d_min cfg) pt.1) as (i & Hi & Hlag).
  { apply list_elem_of_fmap. by exists pt. }
  by exists k, i.
Qed.

(** The last lag of a level is below the first of every deeper one. *)
Lemma lagZ_levels k k' i i' :
  1 <= m cfg -> d_min cfg * m cfg = p cfg ->
  0 <= k < k' -> 0 <= i < p cfg -> d_min cfg <= i' ->
  lagZ k i < lagZ k' i'.
Proof.
  intros Hm Hdiv Hk Hi Hi'. unfold lagZ.
  assert (0 < m cfg ^ k) as Hpk by (apply Z.pow_pos_nonneg; lia).
  assert (m cfg ^ (k + 1) <= m cfg ^ k') as Hmono
    by (apply Z.pow_le_mono_r; lia).
  rewrite Z.pow_add_r, Z.pow_1_r in Hmono by lia.
  assert (0 <= d_min cfg) by nia.
  nia.
Qed.

Lemma levels_sorted aux s (ks : list Z) :
  1 <= m cfg -> d_min cfg * m cfg = p cfg ->
  StronglySorted Z.lt ks -> Forall (fun k => 0 <= k) ks ->
  StronglySorted Qlt
    ((mjoin ((fun k => level_points cfg aux s k (d_min cfg)) <$> ks)).*1).
Proof.
  intros Hm Hdiv. induction 1 as [|k ks Hs IH Hk]; intros Hpos; [constructor|].
  apply Forall_cons in Hpos. destruct Hpos as [Hk0 Hpos].
  rewrite fmap_cons, mjoin_cons_eq, fmap_app.
  apply StronglySorted_app_2; [|apply block_sorted; [done..|apply seqZ_sorted_Z]
                               |by apply IH].
  intros x1 x2 H1 H2.
  apply block_elem in H1. destruct H1 as (i1 & Hi1 & ->).
  apply levels_elem in H2. destruct H2 as (k' & i2 & Hk' & Hi2 & ->).
  rewrite Forall_forall in Hk, Hpos.
  pose proof (Hk k' Hk'). pose proof (Hpos k' Hk').
  rewrite !lag_lagZ by lia. rewrite <- Zlt_Qlt.
  assert (0 <= d_min cfg) by nia.
  apply lagZ_levels; lia.
Qed.

(** X14: when [m] divides [p], the lags that [evaluate] leaves in the
    first [npcorr] cells of [t] are strictly increasing (in exact
    arithmetic): no lag is emitted twice and the levels do not overlap. *)
Theorem lags_increasing norm s :
  cfg_ok cfg -> wf cfg s -> (m cfg | p cfg) ->
  exists s',
    evaluate cfg norm s = Done (tt, s', []) /\
    StronglySorted Qlt (take (Z.to_nat (npcorr s')) (t s')).
Proof.
  intros Hcfg Hwf [q Hq]. pose proof Hcfg as (Hnc & Hp & Hm & Hd & _).
  assert (d_min cfg * m cfg = p cfg) as Hdiv.
  { rewrite Hd, Hq, Z.div_mul by lia. done. }
  assert (0 <= d_min cfg) as Hd0 by nia.
  destruct (evaluate_runs cfg norm s Hcfg Hwf) as [Hrun _].
  destruct (evaluated_out cfg norm s) as (Hnp & Ht & _).
  exists (evaluated cfg norm s). split; [apply Hrun|].
  rewrite Hnp, Nat2Z.id, Ht. unfold eval_points. rewrite fmap_app.
  apply StronglySorted_app_2.
  - intros x1 x2 H1 H2.
    apply block_elem in H1. destruct H1 as (i1 & Hi1 & ->).
    apply levels_elem in H2. destruct H2 as (k' & i2 & Hk' & Hi2 & ->).
    apply elem_of_seqZ in Hk'.
    rewrite !lag_lagZ by lia. rewrite <- Zlt_Qlt.
    apply lagZ_levels; lia.
  - apply block_sorted; [lia|lia|apply seqZ_sorted_Z].
  - apply levels_sorted; [lia|done|apply seqZ_sorted_Z|].
    apply Forall_forall. intros k Hk. apply elem_of_seqZ in Hk. lia.
Qed.

End Lags.

(** * Construction, and what [add] and [norm] leave alone *)

Section Frames.
Context {D : Type} {DD : Double D}.
Implicit Types (s : state D) (l : level D) (k j : Z) (tr : list (event D)).

(** X15: for sizes in range ([1 <= numcorrin, p_in < 2^31],
    [1 <= m_in < 2^32], [numcorrin * p_in < 2^32]) [setsize] gives the
    configuration with [d_min = p / m] and [length = numcorrelators * p],
    the arrays it allocates have the sizes [initialize] needs, and
    [initialize] returns on them whatever they hold; with [m_in = 0] the
    quotient [p / m] is undefined and there is no configuration. *)
Theorem constructed_engine_initializes (numcorrin p_in m_in : Z) :
  1 <= numcorrin < 2 ^ 31 -> 1 <= p_in < 2 ^ 31 -> 1 <= m_in < 2 ^ 32 ->
  numcorrin * p_in < 2 ^ 32 ->
  setsize numcorrin p_in 0 = None /\
  exists cfg,
    setsize numcorrin p_in m_in = Some cfg /\
    cfg_ok cfg /\
    d_min cfg * m cfg <= p cfg < (d_min cfg + 1) * m cfg /\
    length_ cfg = numcorrin * p_in /\
    (forall (jd : D) (jz : Z), shaped cfg (allocate cfg jd jz)) /\
    (forall s0 : state D, shaped cfg s0 ->
       initialize cfg s0 = Done (tt, fresh cfg, [])).
Proof.
  intros Hn Hp Hm Hcap. split; [done|].
  unfold setsize. destruct (Z.eqb_spec m_in 0); [lia|].
  eexists. split; [reflexivity|].
  assert (u32 (numcorrin * p_in) = numcorrin * p_in) as Hlen
    by (apply u32_id; nia).
  assert (cfg_ok (Config numcorrin p_in m_in (p_in / m_in)
                         (u32 (numcorrin * p_in)))) as Hcfg.
  { unfold cfg_ok. simpl. repeat split; try lia. }
  split; [done|]. simpl. split.
  - pose proof (Z.mul_div_le p_in m_in ltac:(lia)).
    pose proof (Z.mul_succ_div_gt p_in m_in ltac:(lia)). lia.
  - split; [done|]. split.
    + intros jd jz. apply allocate_shaped; simpl; lia.
    + intros s0 Hs0. apply initialize_runs; simpl; (done || lia).
Qed.

Variable cfg : config.

Lemma add_pure_output fuel : forall w k s,
  t (add_pure cfg fuel w k s).1 = t s /\
  f (add_pure cfg fuel w k s).1 = f s /\
  npcorr (add_pure cfg fuel w k s).1 = npcorr s.
Proof.
  induction fuel as [|fuel IH]; intros w k s; cbn [add_pure]; [done|].
  destruct (k =? numcorrelators cfg); [done|].
  destruct (get_level k s) as [l|]; [|done]. cbn [fst].
  set (s1 := put_level k (lv_step cfg w k l) (bump w k s)).
  assert (t s1 = t s /\ f s1 = f s /\ npcorr s1 = npcorr s) as (E1 & E2 & E3).
  { unfold s1, bump. simpl.
    destruct (kmax s <? k), (k =? 0); done. }
  destruct (lv_full cfg (lv_insert w l)); [|done].
  destruct (IH (lv_carry cfg (lv_insert w l)) (k + 1) s1) as (-> & -> & ->).
  done.
Qed.

(** X16: a call of [add] that returns leaves [t], [f] and [npcorr] as
    they are: what the last [evaluate] emitted stays in place while
    further samples are added. *)
Theorem add_keeps_output fuel w k s :
  cfg_ok cfg -> wf cfg s -> 0 <= k <= numcorrelators cfg ->
  numcorrelators cfg - k < Z.of_nat fuel ->
  exists s' tr,
    add cfg fuel w k s = Done (tt, s', tr) /\
    t s' = t s /\ f s' = f s /\ npcorr s' = npcorr s.
Proof.
  intros Hcfg Hwf Hk Hfuel.
  pose proof (add_runs cfg fuel w k s Hcfg Hwf Hk Hfuel) as Hrun.
  eexists _, _. split; [apply Hrun|]. apply add_pure_output.
Qed.

(** The pairs before the correction is subtracted. *)
Definition raw_point s (k i : Z) : option (D * D) :=
  match aget2 (ncorrelation s) k i, aget2 (correlation s) k i with
  | Some n, Some c =>
      if 0 <? n then Some (lag cfg k i, d_div c (d_of_Z n)) else None
  | _, _ => None
  end.

Definition raw_points s : list (D * D) :=
  omap (raw_point s 0) (seqZ 0 (p cfg - 0)) ++
  mjoin ((fun k => omap (raw_point s k) (seqZ (d_min cfg) (p cfg - d_min cfg)))
           <$> seqZ 1 (kmax s - 1)).

Lemma fmap_join {A B} (h : A -> B) (ls : list (list A)) :
  h <$> mjoin ls = mjoin (fmap h <$> ls).
Proof.
  induction ls as [|l ls IH]; [done|].
  by rewrite fmap_cons, !mjoin_cons_eq, fmap_app, IH.
Qed.

Lemma omap_ext_all {A B} (g h : A -> option B) (l : list A) :
  (forall x, g x = h x) -> omap g l = omap h l.
Proof.
  intros E. induction l as [|x l IH]; [done|].
  by rewrite !omap_cons_eq, E, IH.
Qed.

Lemma eval_points_raw norm s :
  eval_points cfg norm s =
  (fun pt => (pt.1, d_sub pt.2 (eval_aux norm s))) <$> raw_points s.
Proof.
  unfold eval_points, raw_points, level_points.
  assert (forall k i,
            point cfg (eval_aux norm s) s k i =
            (fun pt => (pt.1, d_sub pt.2 (eval_aux norm s))) <$> raw_point s k i)
    as Hpt.
  { intros k i. unfold point, point_with, raw_point.
    destruct (aget2 (ncorrelation s) k i); [|done].
    destruct (aget2 (correlation s) k i); [|done].
    by destruct (0 <? z). }
  rewrite fmap_app, fmap_join, list_fmap_omap, <- list_fmap_compose.
  f_equal.
  - apply omap_ext_all. intros; apply Hpt.
  - f_equal. apply list_fmap_ext. intros _ k _. simpl.
    rewrite list_fmap_omap. apply omap_ext_all. intros; apply Hpt.
Qed.

(** X17: the argument [norm] of [evaluate] changes the values only.
    Called on the same engine with [norm] false and with [norm] true,
    [evaluate] gives the same [npcorr], the number of bins it visits
    whose count is positive, and the same lags in [t]; the value in [f]
    for such a bin is the quotient [correlation[k][i] / ncorrelation[k][i]]
    less 0 in one case and less the squared mean
    [(accval / ncorrelation[0][0])^2] in the other. *)
Theorem norm_shifts_values s :
  cfg_ok cfg -> wf cfg s ->
  exists s0 s1,
    evaluate cfg false s = Done (tt, s0, []) /\
    evaluate cfg true s = Done (tt, s1, []) /\
    npcorr s0 = alen (raw_points s) /\ npcorr s1 = alen (raw_points s) /\
    take (length (raw_points s)) (t s0) = (raw_points s).*1 /\
    take (length (raw_points s)) (t s1) = (raw_points s).*1 /\
    take (length (raw_points s)) (f s0) =
      (fun pt => d_sub pt.2 (d_of_Z 0)) <$> raw_points s /\
    take (length (raw_points s)) (f s1) =
      (fun pt =>
         d_sub pt.2
           (d_mul (d_div (accval s)
                     (d_of_Z (default 0 (aget2 (ncorrelation s) 0 0))))
                  (d_div (accval s)
                     (d_of_Z (default 0 (aget2 (ncorrelation s) 0 0))))))
        <$> raw_points s.
Proof.
  intros Hcfg Hwf.
  destruct (evaluate_runs cfg false s Hcfg Hwf) as [Hrun0 _].
  destruct (evaluate_runs cfg true s Hcfg Hwf) as [Hrun1 _].
  destruct (evaluated_out cfg false s) as (Hn0 & Ht0 & Hf0).
  destruct (evaluated_out cfg true s) as (Hn1 & Ht1 & Hf1).
  exists (evaluated cfg false s), (evaluated cfg true s).
  split; [apply Hrun0|]. split; [apply Hrun1|].
  rewrite eval_points_raw in *. rewrite !length_fmap in *.
  unfold alen.
  split; [done|]. split; [done|].
  rewrite Ht0, Ht1, Hf0, Hf1.
  rewrite <- !list_fmap_compose. done.
Qed.

End Frames.

(** * The further results on the concrete engine

    The engine [cfgW] (three levels of four bins, [m = 2]) after the run
    [opsW], and fed short sequences from a newly allocated state. *)

Lemma shift_holds_last_values_witness :
  aget (insertindex sW) 0 = Some (alen (insertions 0 trW) mod p cfgW) /\
  aget2 (shift sW) 0 ((alen (insertions 0 trW) - 1 - 1) mod p cfgW) =
    Some (if 1 <? alen (insertions 0 trW)
          then d_at (insertions 0 trW) (alen (insertions 0 trW) - 1 - 1)
          else d_m2e10).
Proof.
  apply (shift_holds_last_values cfgW sW trW 0 1 cfgW_ok reachableW);
    simpl; lia.
Defined.

(** Level 0 has received 1, ..., 8: its four slots hold 5, 6, 7, 8 and
    the next insertion goes to slot 0. *)
Example shift_W :
  aget (shift sW) 0 = Some [5; 6; 7; 8]%Q /\ aget (insertindex sW) 0 = Some 0.
Proof. vm_compute. split; reflexivity. Qed.

Lemma bins_are_lagged_sums_witness :
  aget2 (correlation sW) 1 3 =
    Some (corr_sum cfgW 1 (insertions 1 trW) 3 (length (insertions 1 trW))) /\
  aget2 (ncorrelation sW) 1 3 =
    Some (u64 (pair_count cfgW 1 (insertions 1 trW) 3
                 (length (insertions 1 trW)))).
Proof.
  apply (bins_are_lagged_sums cfgW sW trW 1 3 cfgW_ok).
  - reflexivity.
  - exact reachableW.
  - simpl. lia.
  - simpl. lia.
Defined.

Lemma counts_of_valid_values_witness :
  aget2 (ncorrelation sW) 0 2 =
    Some (u64 (Z.max 0 (alen (insertions 0 trW) - 2))).
Proof.
  apply (counts_of_valid_values cfgW sW trW 0 2 cfgW_ok).
  - reflexivity.
  - exact reachableW.
  - simpl. lia.
  - simpl. lia.
  - vm_compute. discriminate.
  - vm_compute. repeat constructor.
Defined.

Lemma low_bins_unused_witness :
  aget2 (correlation sW) 1 1 = Some (d_of_Z 0) /\
  aget2 (ncorrelation sW) 1 1 = Some 0.
Proof.
  apply (low_bins_unused cfgW sW trW 1 1 cfgW_ok reachableW); simpl; lia.
Defined.

Lemma kmax_is_deepest_level_witness :
  kmax sW = deepest trW /\ 0 <= kmax sW < numcorrelators cfgW /\
  (kmax sW = 0 \/ insertions (kmax sW) trW <> []) /\
  (forall k, kmax sW < k -> insertions k trW = []).
Proof. exact (kmax_is_deepest_level cfgW sW trW cfgW_ok reachableW). Defined.

Lemma accval_is_sum_of_samples_witness :
  accval sW = foldl d_add (d_of_Z 0) (insertions 0 trW).
Proof. exact (accval_is_sum_of_samples cfgW sW trW cfgW_ok reachableW). Defined.

Lemma cascade_feeds_block_means_witness :
  exists s tr,
    bind (initialize cfgW) (fun _ => feed cfgW [1; 2; 3; 4; 5]%Q)
         (allocate cfgW 7%Q 9) = Done (tt, s, tr) /\
    insertions 0 tr = [1; 2; 3; 4; 5]%Q /\
    (forall k, 0 <= k -> k + 1 < numcorrelators cfgW ->
       insertions (k + 1) tr = block_means cfgW (insertions k tr)) /\
    (forall k, 0 <= k < numcorrelators cfgW ->
       aget (accumulator s) k =
       Some (foldl d_add (d_of_Z 0) (block_rest cfgW (insertions k tr)))).
Proof.
  apply (cascade_feeds_block_means cfgW (allocate cfgW 7%Q 9)
           [1; 2; 3; 4; 5]%Q cfgW_ok).
  apply allocate_shaped; simpl; lia.
Defined.

(** The means of the pairs of [1; 2; 3; 4; 5], and the value left over. *)
Example block_means_W :
  Qred <$> block_means cfgW [1; 2; 3; 4; 5]%Q = [3 # 2; 7 # 2]%Q /\
  block_rest cfgW [1; 2; 3; 4; 5]%Q = [5]%Q.
Proof. vm_compute. split; reflexivity. Qed.

Lemma cascade_counts_witness :
  exists s tr,
    bind (initialize cfgW) (fun _ => feed cfgW [1; 2; 3; 4; 5; 6; 7]%Q)
         (allocate cfgW 7%Q 9) = Done (tt, s, tr) /\
    alen (insertions 1 tr) = alen [1; 2; 3; 4; 5; 6; 7]%Q / m cfgW ^ 1 /\
    aget (naccumulator s) 1 =
      Some ((alen [1; 2; 3; 4; 5; 6; 7]%Q / m cfgW ^ 1) mod m cfgW) /\
    aget (insertindex s) 1 =
      Some ((alen [1; 2; 3; 4; 5; 6; 7]%Q / m cfgW ^ 1) mod p cfgW).
Proof.
  apply (cascade_counts cfgW (allocate cfgW 7%Q 9)
           [1; 2; 3; 4; 5; 6; 7]%Q 1 cfgW_ok).
  - apply allocate_shaped; simpl; lia.
  - simpl. lia.
Defined.

Lemma levels_reached_witness :
  exists s tr,
    bind (initialize cfgW) (fun _ => feed cfgW [1; 2; 3]%Q)
         (allocate cfgW 7%Q 9) = Done (tt, s, tr) /\
    (2 <= kmax s <-> m cfgW ^ 2 <= alen [1; 2; 3]%Q).
Proof.
  apply (levels_reached cfgW (allocate cfgW 7%Q 9) [1; 2; 3]%Q 2 cfgW_ok).
  - apply allocate_shaped; simpl; lia.
  - discriminate.
  - simpl. lia.
Defined.

Lemma initialize_resets_witness :
  initialize cfgW sW = Done (tt, fresh cfgW, []) /\
  initialize cfgW (fresh cfgW) = Done (tt, fresh cfgW, []).
Proof. exact (initialize_resets cfgW sW trW cfgW_ok reachableW). Defined.

Lemma evaluate_before_samples_witness :
  evaluate cfgW true (fresh cfgW) = Done (tt, fresh cfgW, []) /\
  npcorr (fresh cfgW : state Q) = 0.
Proof. exact (evaluate_before_samples cfgW true cfgW_ok). Defined.

Lemma evaluate_output_bounds_witness :
  exists s',
    evaluate cfgW true sW = Done (tt, s', []) /\
    0 <= npcorr s' <= p cfgW + Z.max 0 (kmax sW - 1) * (p cfgW - d_min cfgW) /\
    npcorr s' <= length_ cfgW /\
    alen (t s') = length_ cfgW /\ alen (f s') = length_ cfgW /\
    drop (Z.to_nat (npcorr s')) (t s') = drop (Z.to_nat (npcorr s')) (t sW) /\
    drop (Z.to_nat (npcorr s')) (f s') = drop (Z.to_nat (npcorr s')) (f sW).
Proof. exact (evaluate_output_bounds cfgW true sW cfgW_ok sW_wf). Defined.

Lemma level0_estimate_witness :
  exists s tr s',
    bind (initialize cfgW) (fun _ => feed cfgW [1; 2; 3; 4; 5]%Q)
         (allocate cfgW 7%Q 9) = Done (tt, s, tr) /\
    evaluate cfgW true s = Done (tt, s', []) /\
    1 < npcorr s' /\
    aget (t s') 1 = Some (d_of_Z 1) /\
    aget (f s') 1 =
      Some (d_sub (d_div (corr_sum cfgW 0 [1; 2; 3; 4; 5]%Q 1
                            (length [1; 2; 3; 4; 5]%Q))
                         (d_of_Z (alen [1; 2; 3; 4; 5]%Q - 1)))
                  (mean_sq [1; 2; 3; 4; 5]%Q)).
Proof.
  apply (level0_estimate cfgW (allocate cfgW 7%Q 9) [1; 2; 3; 4; 5]%Q true 1
           cfgW_ok).
  - reflexivity.
  - apply allocate_shaped; simpl; lia.
  - repeat constructor.
  - vm_compute. reflexivity.
  - simpl. lia.
  - vm_compute. reflexivity.
Defined.

(** For [1; 2; 3; 4; 5] at lag 1: [(2*1 + 3*2 + 4*3 + 5*4) / 4 = 10], and
    the mean is 3. *)
Example estimate_W :
  Qred (corr_sum cfgW 0 [1; 2; 3; 4; 5]%Q 1 5) = 40%Q /\
  Qred (mean_sq [1; 2; 3; 4; 5]%Q) = 9%Q.
Proof. vm_compute. split; reflexivity. Qed.

Lemma lags_increasing_witness :
  exists s',
    evaluate cfgW false sW = Done (tt, s', []) /\
    StronglySorted Qlt (take (Z.to_nat (npcorr s')) (t s')).
Proof.
  apply (lags_increasing cfgW false sW cfgW_ok sW_wf).
  exists 2. reflexivity.
Defined.

Lemma constructed_engine_initializes_witness :
  setsize 3 4 0 = None /\
  exists cfg,
    setsize 3 4 2 = Some cfg /\
    cfg_ok cfg /\
    d_min cfg * m cfg <= p cfg < (d_min cfg + 1) * m cfg /\
    length_ cfg = 3 * 4 /\
    (forall (jd : Q) (jz : Z), shaped cfg (allocate cfg jd jz)) /\
    (forall s0 : state Q, shaped cfg s0 ->
       initialize cfg s0 = Done (tt, fresh cfg, [])).
Proof. apply (constructed_engine_initializes 3 4 2); lia. Defined.

Lemma add_keeps_output_witness :
  exists s' tr,
    add cfgW 4 (5 # 2)%Q 0 sW = Done (tt, s', tr) /\
    t s' = t sW /\ f s' = f sW /\ npcorr s' = npcorr sW.
Proof.
  apply (add_keeps_output cfgW 4 (5 # 2)%Q 0 sW cfgW_ok sW_wf).
  - simpl. lia.
  - simpl. lia.
Defined.

Lemma norm_shifts_values_witness :
  exists s0 s1,
    evaluate cfgW false sW = Done (tt, s0, []) /\
    evaluate cfgW true sW = Done (tt, s1, []) /\
    npcorr s0 = alen (raw_points cfgW sW) /\
    npcorr s1 = alen (raw_points cfgW sW) /\
    take (length (raw_points cfgW sW)) (t s0) = (raw_points cfgW sW).*1 /\
    take (length (raw_points cfgW sW)) (t s1) = (raw_points cfgW sW).*1 /\
    take (length (raw_points cfgW sW)) (f s0) =
      (fun pt => d_sub pt.2 (d_of_Z 0)) <$> raw_points cfgW sW /\
    take (length (raw_points cfgW sW)) (f s1) =
      (fun pt =>
         d_sub pt.2
           (d_mul (d_div (accval sW)
                     (d_of_Z (default 0 (aget2 (ncorrelation sW) 0 0))))
                  (d_div (accval sW)
                     (d_of_Z (default 0 (aget2 (ncorrelation sW) 0 0))))))
        <$> raw_points cfgW sW.
Proof. exact (norm_shifts_values cfgW sW cfgW_ok sW_wf). Defined.

(** The six bins with a positive count after the run [opsW], with their
    lags and quotients: [204 / 8], [168 / 7], [133 / 6] and [100 / 5] at
    level 0, and the bins 2 and 3 of level 1. *)
Example raw_points_W :
  (raw_points cfgW sW).*1 = [0; 1; 2; 3; 4; 6]%Q /\
  Qred <$> (raw_points cfgW sW).*2 =
    [51 # 2; 24; 133 # 6; 20; 69 # 4; 45 # 4]%Q.
Proof. vm_compute. split; reflexivity. Qed.
